(** * consolegpt: the conversation-tree state engine

    A shallow embedding of the TypeScript sources

    - [src/app/utils.ts]               ([storage], [createAtom]),
    - [src/app/completionTaskStore.ts] ([chatCompletion], [newTask]),
    - [src/app/settingsStore.ts]       ([settingsStore]),
    - the [Message] component (message.tsx, the module [./message] of
      main.tsx: [newMessageCompletion], [newBranch], [editSelect],
      [handleItemDelete], [recDel], [handleItemClick], the weight layout
      effect, [selectedMemoProps] and the handlers behind the controls),
    - the two handlers of the header that write the settings,

    the properties of the specification that can be settled on it
    (C1 to C10), and further properties of the code (X1 to X30). *)

From stdpp Require Import gmap strings list fin_maps.
From Stdlib Require Import ZArith Ascii Decimal DecimalN DecimalFacts.

Local Open Scope string_scope.
Local Open Scope list_scope.
Local Open Scope Z_scope.

(* ===================================================================== *)
(** * JavaScript conventions used by the sources *)
(* ===================================================================== *)

(** A value that is either [null] or a value of [A] (TypeScript [A | null]).
    An optional property [p?: A] is an [option]: [None] is [undefined]. *)
Inductive nullable (A : Type) : Type :=
  | null : nullable A
  | notnull (a : A) : nullable A.
Arguments null {A}.
Arguments notnull {A} a.

#[global] Instance nullable_eq_dec {A : Type} `{EqDecision A} :
  EqDecision (nullable A).
Proof. solve_decision. Defined.

(** Truthiness of an optional string: [undefined] and the empty string are
    falsy.  [truthy o] keeps a truthy value and maps a falsy one to [None],
    so that [a || b] on strings is [default b (truthy a)]. *)
Definition truthy (o : option string) : option string :=
  match o with
  | Some s => if decide (s = "") then None else Some s
  | None => None
  end.

(** [a || b] where [a] is an optional string and [b] a string. *)
Definition or_str (a : option string) (b : string) : string :=
  default b (truthy a).

(** [Array.prototype.indexOf]: the first position of [x], or [-1]. *)
Fixpoint indexOf (l : list string) (x : string) : Z :=
  match l with
  | [] => -1
  | y :: l' =>
      if decide (y = x) then 0
      else let i := indexOf l' x in if decide (i = -1) then -1 else 1 + i
  end.

(** [l[i]] for a number [i]: [undefined] out of range (also for [-1]). *)
Definition at_index (l : list string) (i : Z) : option string :=
  if decide (i < 0) then None else l !! Z.to_nat i.

(* ===================================================================== *)
(** * [JSON.stringify] and [JSON.parse]

    The part of the two functions that [storage] relies on, on strings of
    8-bit characters. *)
(* ===================================================================== *)

Module JSON.

(** JavaScript values as [JSON.stringify] sees them.  [Fun] is any function
    value.  An object is its own properties in order; a number is an integer
    (the only numbers the program stores are child counts). *)
#[local] Unset Elimination Schemes.
Inductive value : Type :=
  | Undefined
  | Fun
  | Null
  | Bool (b : bool)
  | Num (z : Z)
  | Str (s : string)
  | Arr (l : list value)
  | Obj (l : list (string * value)).
#[local] Set Elimination Schemes.

Definition dquote : ascii := ascii_of_nat 34.
Definition backslash : ascii := ascii_of_nat 92.

Definition hex_digit (n : nat) : ascii :=
  match n with
  | 0 => "0" | 1 => "1" | 2 => "2" | 3 => "3" | 4 => "4" | 5 => "5"
  | 6 => "6" | 7 => "7" | 8 => "8" | 9 => "9" | 10 => "a" | 11 => "b"
  | 12 => "c" | 13 => "d" | 14 => "e" | _ => "f"
  end%nat%char.

(** QuoteJSONString, one code unit. *)
Definition escape_char (c : ascii) : string :=
  let n := nat_of_ascii c in
  if decide (c = dquote) then String backslash (String dquote "")
  else if decide (c = backslash) then String backslash (String backslash "")
  else if decide (n = 8)%nat then String backslash "b"
  else if decide (n = 12)%nat then String backslash "f"
  else if decide (n = 10)%nat then String backslash "n"
  else if decide (n = 13)%nat then String backslash "r"
  else if decide (n = 9)%nat then String backslash "t"
  else if decide (n < 32)%nat then
    String backslash
      (String "u" (String "0" (String "0"
         (String (hex_digit (n / 16)) (String (hex_digit (n mod 16)) "")))))
  else String c "".

Fixpoint escape (s : string) : string :=
  match s with
  | "" => ""
  | String c s => escape_char c +:+ escape s
  end.

Definition quote (s : string) : string :=
  String dquote (escape s +:+ String dquote "").

Fixpoint print_uint (d : uint) : string :=
  match d with
  | Nil => ""
  | D0 d => String "0" (print_uint d)
  | D1 d => String "1" (print_uint d)
  | D2 d => String "2" (print_uint d)
  | D3 d => String "3" (print_uint d)
  | D4 d => String "4" (print_uint d)
  | D5 d => String "5" (print_uint d)
  | D6 d => String "6" (print_uint d)
  | D7 d => String "7" (print_uint d)
  | D8 d => String "8" (print_uint d)
  | D9 d => String "9" (print_uint d)
  end.

Definition print_Z (z : Z) : string :=
  if decide (z < 0) then String "-" (print_uint (N.to_uint (Z.to_N (- z))))
  else print_uint (N.to_uint (Z.to_N z)).

Fixpoint join (sep : string) (l : list string) : string :=
  match l with
  | [] => ""
  | [t] => t
  | t :: l => t +:+ sep +:+ join sep l
  end.

(** [JSON.stringify(v)]; [None] is the result [undefined]. *)
Fixpoint stringify (v : value) : option string :=
  match v with
  | Undefined | Fun => None
  | Null => Some "null"
  | Bool true => Some "true"
  | Bool false => Some "false"
  | Num z => Some (print_Z z)
  | Str s => Some (quote s)
  | Arr l =>
      Some ("[" +:+
            join ","
              ((fix elements (l : list value) : list string :=
                  match l with
                  | [] => []
                  | v :: l => default "null" (stringify v) :: elements l
                  end) l)
            +:+ "]")
  | Obj l =>
      Some ("{" +:+
            join ","
              ((fix members (l : list (string * value)) : list string :=
                  match l with
                  | [] => []
                  | (k, v) :: l =>
                      match stringify v with
                      | Some t => (quote k +:+ ":" +:+ t) :: members l
                      | None => members l
                      end
                  end) l)
            +:+ "}")
  end.


(** [SerializeJSONProperty] drops [undefined] and functions from objects
    and writes them as [null] in arrays: what is left of [v] in its text. *)
Fixpoint defined (v : value) : value :=
  match v with
  | Arr l =>
      Arr ((fix elements (l : list value) : list value :=
              match l with
              | [] => []
              | v :: l =>
                  match v with
                  | Undefined | Fun => Null
                  | _ => defined v
                  end :: elements l
              end) l)
  | Obj l =>
      Obj ((fix members (l : list (string * value)) : list (string * value) :=
              match l with
              | [] => []
              | (k, v) :: l =>
                  match v with
                  | Undefined | Fun => members l
                  | _ => (k, defined v) :: members l
                  end
              end) l)
  | _ => v
  end.

(** ** [JSON.parse] *)

Definition is_ws (c : ascii) : bool :=
  bool_decide (nat_of_ascii c = 32 \/ nat_of_ascii c = 9 \/
               nat_of_ascii c = 10 \/ nat_of_ascii c = 13)%nat.

Fixpoint skip_ws (s : string) : string :=
  match s with
  | "" => ""
  | String c s' => if is_ws c then skip_ws s' else s
  end.

Definition digit_of (c : ascii) : option (uint -> uint) :=
  match c with
  | "0" => Some D0 | "1" => Some D1 | "2" => Some D2 | "3" => Some D3
  | "4" => Some D4 | "5" => Some D5 | "6" => Some D6 | "7" => Some D7
  | "8" => Some D8 | "9" => Some D9 | _ => None
  end%char.

(** The longest run of digits at the head of [s], and what follows it. *)
Fixpoint parse_uint (s : string) : uint * string :=
  match s with
  | "" => (Nil, "")
  | String c s' =>
      match digit_of c with
      | Some D => let '(d, rest) := parse_uint s' in (D d, rest)
      | None => (Nil, s)
      end
  end.

(** What may not follow the digits of an integer: a fraction or an
    exponent is a number outside this model. *)
Definition continues_number (s : string) : bool :=
  match s with
  | String c _ => bool_decide (c = "." \/ c = "e" \/ c = "E")%char
  | "" => false
  end.

#[global] Instance uint_eq_dec : EqDecision uint.
Proof. solve_decision. Defined.

(** A JSON number that is an integer: an optional [-], then [0] or digits
    without a leading zero. *)
Definition parse_number (s : string) : option (Z * string) :=
  let '(neg, s) :=
    match s with
    | String "-" s' => (true, s')
    | _ => (false, s)
    end in
  let '(d, rest) := parse_uint s in
  if decide (d = Nil) then None
  else if decide (unorm d = d) then
    if continues_number rest then None
    else Some (if neg then - Z.of_N (N.of_uint d) else Z.of_N (N.of_uint d),
               rest)
  else None.

Definition hex_val (c : ascii) : option nat :=
  let n := nat_of_ascii c in
  if decide (48 <= n <= 57)%nat then Some (n - 48)%nat        (* 0-9 *)
  else if decide (97 <= n <= 102)%nat then Some (n - 87)%nat  (* a-f *)
  else if decide (65 <= n <= 70)%nat then Some (n - 55)%nat   (* A-F *)
  else None.

(** [c] in front of the string a parse gave. *)
Definition put (c : ascii) (r : option (string * string))
    : option (string * string) :=
  match r with
  | Some (t, rest) => Some (String c t, rest)
  | None => None
  end.

(** The characters of a string literal after its opening quote, up to the
    closing quote.  A [\u] escape above 255 is a code unit outside the
    characters modelled here. *)
Fixpoint parse_chars (s : string) : option (string * string) :=
  match s with
  | "" => None
  | String c s' =>
      if decide (c = dquote) then Some ("", s')
      else if decide (c = backslash) then
        match s' with
        | "" => None
        | String e s'' =>
            if decide (e = dquote) then put dquote (parse_chars s'')
            else if decide (e = backslash) then put backslash (parse_chars s'')
            else if decide (e = "/"%char) then put "/"%char (parse_chars s'')
            else if decide (e = "b"%char) then put (ascii_of_nat 8) (parse_chars s'')
            else if decide (e = "f"%char) then put (ascii_of_nat 12) (parse_chars s'')
            else if decide (e = "n"%char) then put (ascii_of_nat 10) (parse_chars s'')
            else if decide (e = "r"%char) then put (ascii_of_nat 13) (parse_chars s'')
            else if decide (e = "t"%char) then put (ascii_of_nat 9) (parse_chars s'')
            else if decide (e = "u"%char) then
              match s'' with
              | String h1 (String h2 (String h3 (String h4 s3))) =>
                  match hex_val h1, hex_val h2, hex_val h3, hex_val h4 with
                  | Some n1, Some n2, Some n3, Some n4 =>
                      let n := (((n1 * 16 + n2) * 16 + n3) * 16 + n4)%nat in
                      if decide (n < 256)%nat
                      then put (ascii_of_nat n) (parse_chars s3)
                      else None
                  | _, _, _, _ => None
                  end
              | _ => None
              end
            else None
        end
      else if decide (nat_of_ascii c < 32)%nat then None
      else put c (parse_chars s')
  end.

(** [s] without the prefix [p]. *)
Fixpoint strip_prefix (p s : string) : option string :=
  match p, s with
  | "", _ => Some s
  | String a p', String b s' => if decide (a = b) then strip_prefix p' s' else None
  | _, _ => None
  end.

(** A value at the head of [s], and what follows it.  [None] is a syntax
    error, a text outside the model, or a nesting deeper than [fuel]. *)
Fixpoint parse_value (fuel : nat) (s : string) : option (value * string) :=
  match fuel with
  | O => None
  | S fuel =>
      match skip_ws s with
      | "" => None
      | String c rest =>
          if decide (c = "n"%char) then
            match strip_prefix "ull" rest with
            | Some rest' => Some (Null, rest')
            | None => None
            end
          else if decide (c = "t"%char) then
            match strip_prefix "rue" rest with
            | Some rest' => Some (Bool true, rest')
            | None => None
            end
          else if decide (c = "f"%char) then
            match strip_prefix "alse" rest with
            | Some rest' => Some (Bool false, rest')
            | None => None
            end
          else if decide (c = dquote) then
            match parse_chars rest with
            | Some (t, rest') => Some (Str t, rest')
            | None => None
            end
          else if decide (c = "["%char) then
            match skip_ws rest with
            | String "]" rest' => Some (Arr [], rest')
            | _ =>
                match parse_elements fuel rest with
                | Some (l, rest') => Some (Arr l, rest')
                | None => None
                end
            end
          else if decide (c = "{"%char) then
            match skip_ws rest with
            | String "}" rest' => Some (Obj [], rest')
            | _ =>
                match parse_members fuel rest with
                | Some (l, rest') => Some (Obj l, rest')
                | None => None
                end
            end
          else
            match parse_number (String c rest) with
            | Some (z, rest') => Some (Num z, rest')
            | None => None
            end
      end
  end
with parse_elements (fuel : nat) (s : string) : option (list value * string) :=
  match fuel with
  | O => None
  | S fuel =>
      match parse_value fuel s with
      | Some (v, rest) =>
          match skip_ws rest with
          | String "," rest' =>
              match parse_elements fuel rest' with
              | Some (l, rest2) => Some (v :: l, rest2)
              | None => None
              end
          | String "]" rest' => Some ([v], rest')
          | _ => None
          end
      | None => None
      end
  end
with parse_members (fuel : nat) (s : string)
    : option (list (string * value) * string) :=
  match fuel with
  | O => None
  | S fuel =>
      match skip_ws s with
      | String c rest =>
          if decide (c = dquote) then
            match parse_chars rest with
            | Some (k, rest) =>
                match skip_ws rest with
                | String ":" rest =>
                    match parse_value fuel rest with
                    | Some (v, rest) =>
                        match skip_ws rest with
                        | String "," rest' =>
                            match parse_members fuel rest' with
                            | Some (l, rest2) => Some ((k, v) :: l, rest2)
                            | None => None
                            end
                        | String "}" rest' => Some ([(k, v)], rest')
                        | _ => None
                        end
                    | None => None
                    end
                | _ => None
                end
            | None => None
            end
          else None
      | "" => None
      end
  end.

(** [JSON.parse(text)]; [None] is a [SyntaxError] (or a text outside the
    model).  No value nests deeper than its text is long. *)
Definition parse (text : string) : option value :=
  match parse_value (2 * String.length text) text with
  | Some (v, rest) => if decide (skip_ws rest = "") then Some v else None
  | None => None
  end.


(** The texts of the elements of an array and of the members of an object,
    and what is left of them. *)
Definition elements (l : list value) : list string :=
  map (fun v => default "null" (stringify v)) l.

Fixpoint members (l : list (string * value)) : list string :=
  match l with
  | [] => []
  | (k, v) :: l =>
      match stringify v with
      | Some t => (quote k +:+ ":" +:+ t) :: members l
      | None => members l
      end
  end.

Definition defined_element (v : value) : value :=
  match v with
  | Undefined | Fun => Null
  | _ => defined v
  end.

Fixpoint defined_members (l : list (string * value))
    : list (string * value) :=
  match l with
  | [] => []
  | (k, v) :: l =>
      match v with
      | Undefined | Fun => defined_members l
      | _ => (k, defined v) :: defined_members l
      end
  end.

(** What can follow a value in a text: nothing, or a separator. *)
Definition good_rest (rest : string) : Prop :=
  match rest with
  | "" => True
  | String c _ => c = ","%char \/ c = "]"%char \/ c = "}"%char
  end.

(** The first character of a value's text. *)
Definition starts_value (t : string) : Prop :=
  match t with
  | "" => False
  | String c _ =>
      is_ws c = false /\ c <> "]"%char /\ c <> "}"%char /\ c <> ","%char
  end.

(** What follows the digits of a number is not a digit. *)
Definition no_digit (rest : string) : Prop :=
  match rest with
  | "" => True
  | String c _ => digit_of c = None
  end.

(** The round trip of one value, as the induction has it. *)
Definition round_trips (v : value) : Prop :=
  forall t, stringify v = Some t ->
  forall fuel rest, (2 * String.length t <= fuel)%nat -> good_rest rest ->
    parse_value fuel (t +:+ rest) = Some (defined v, rest).

End JSON.

(* ===================================================================== *)
(** * utils.ts: [storage] over [window.localStorage] (lines 1-5) *)
(* ===================================================================== *)

(** [window.localStorage]: strings by key. *)
Abbreviation DOMStorage := (gmap string string).

Module storage.

(** [get: () => JSON.parse(localStorage?.getItem(key) || "{}")].
    [getItem] gives [null] for a missing key; [None] is a [SyntaxError]. *)
Definition get (key : string) (ls : DOMStorage) : option JSON.value :=
  JSON.parse (or_str (ls !! key) "{}").

(** [set: (data) => localStorage?.setItem(key, JSON.stringify(data))].
    [setItem] stores the string of its argument: ["undefined"] when
    [JSON.stringify] gives [undefined]. *)
Definition set (key : string) (data : JSON.value) (ls : DOMStorage)
    : DOMStorage :=
  <[key := default "undefined" (JSON.stringify data)]> ls.

(** [del: () => localStorage?.removeItem(key)] *)
Definition del (key : string) (ls : DOMStorage) : DOMStorage :=
  delete key ls.

End storage.

(* ===================================================================== *)
(** * Data model (message.tsx, lines 21-29; completionTaskStore.ts) *)
(* ===================================================================== *)

Inductive Role : Type := user | assistant.

(** The role of a request message: a node role or ["developer"]. *)
Inductive ChatRole : Type := node_role (r : Role) | developer.

#[global] Instance Role_eq_dec : EqDecision Role.
Proof. solve_decision. Defined.

Record ChatMessage : Type := {
  chat_role : ChatRole;
  chat_content : string;
}.

Record ChatCompletionOptions : Type := {
  opt_messages : option (list ChatMessage);
  opt_model : option string;
}.

Module Meta.
Record t : Type := mk {
  model : option string;
  error : option string;
}.
Definition empty : t := mk None None.
End Meta.

(** [MsgStore]: the record kept per node.  [role] and [id] are required by
    the TypeScript type, but [storage(key).get()] returns [{}] for a missing
    key, so every property can be absent at run time.  [task] is not part of
    the declared type: it is the JSON image [{"id": .., "result": {}}] of a
    registry entry, which [editSelect] writes along when the edited child is
    streaming (it spreads [selectedMsg], which carries the [task] handle);
    the field holds that image's [id]. *)
Module MsgStore.
Record t : Type := mk {
  weight : option Z;
  content : option string;
  messages : option (list string);
  select : option (nullable string);
  meta : option Meta.t;
  role : option Role;
  id : option string;
  task : option string;
}.
(** [{}] *)
Definition empty : t := mk None None None None None None None None.
(** [{ ...r, weight: v }] and the like. *)
Definition with_weight (v : option Z) (r : t) : t :=
  mk v (content r) (messages r) (select r) (meta r) (role r) (id r) (task r).
Definition with_content (v : option string) (r : t) : t :=
  mk (weight r) v (messages r) (select r) (meta r) (role r) (id r) (task r).
Definition with_messages (v : option (list string)) (r : t) : t :=
  mk (weight r) (content r) v (select r) (meta r) (role r) (id r) (task r).
Definition with_select (v : option (nullable string)) (r : t) : t :=
  mk (weight r) (content r) (messages r) v (meta r) (role r) (id r) (task r).
Definition with_meta (v : option Meta.t) (r : t) : t :=
  mk (weight r) (content r) (messages r) (select r) v (role r) (id r) (task r).
Definition with_task (v : option string) (r : t) : t :=
  mk (weight r) (content r) (messages r) (select r) (meta r) (role r) (id r) v.
End MsgStore.

Module SettingsStore.
Record t : Type := mk {
  model : option string;
  apiKey : option string;
}.
End SettingsStore.

(** A registry entry.  [result] is the address of the task's result atom and
    [abort] the address of the [AbortController] its [abort] closure calls. *)
Module CompletionTask.
Record t : Type := mk {
  id : string;
  result : nat;
  abort : nat;
}.
End CompletionTask.

(** An error value, as far as the sources look at it: its [name], and the
    text [JSON.stringify] gives for it. *)
Record JsError : Type := {
  err_name : string;
  err_json : string;
}.

(** [new Error("API key is required")]: [name] is ["Error"], and no own
    property is enumerable, so it serialises to [{}]. *)
Definition ApiKeyRequired : JsError :=
  {| err_name := "Error"; err_json := "{}" |}.

(** An error with the name the [catch] of [chatCompletion] tests for (line
    50). *)
Definition AbortError : JsError :=
  {| err_name := "AbortError"; err_json := "{}" |}.

(** The typed view of [window.localStorage] that [storage<MsgStore>] gives:
    the record each key parses to.  A missing key is a missing entry. *)
Abbreviation Records := (gmap string MsgStore.t).

(** The promise of one [chatCompletion] call, with the handlers [newTask]
    attached to it. *)
Inductive Phase : Type :=
  | Streaming (result : string)   (* request issued; [result] accumulated so far *)
  | Resolved (text : string)      (* resolved; the [then] handler has not run yet *)
  | Rejected (error : JsError)    (* rejected; the [catch] handler has not run yet *)
  | Settled.                      (* a handler ran *)

Record Promise : Type := {
  p_id : string;
  p_onText : option (string -> Records -> Records);
  p_onDone : option (string -> Records -> Records);
  p_onError : option (JsError -> Records -> Records);
  p_phase : Phase;
}.

(** Calls observed at the seams: callbacks, and [abort()] on a controller. *)
Inductive Call : Type :=
  | CallOnText (h : nat) (text : string)
  | CallOnDone (h : nat) (text : string)
  | CallOnError (h : nat) (error : JsError)
  | CallAbort (h : nat).

Record World : Type := mkWorld {
  localStorage : Records;
  settings : SettingsStore.t;           (* value of [settingsStore]'s atom *)
  atom : list CompletionTask.t;         (* value of the registry's atom *)
  results : gmap nat string;            (* value of each result atom *)
  requests : list (nat * ChatCompletionOptions); (* requests sent to the service *)
  promises : gmap nat Promise;
  calls : list Call;                    (* oldest first *)
}.

Definition set_localStorage (f : Records -> Records) (w : World) : World :=
  mkWorld (f (localStorage w)) (settings w) (atom w) (results w)
          (requests w) (promises w) (calls w).
Definition set_atom (f : list CompletionTask.t -> list CompletionTask.t)
    (w : World) : World :=
  mkWorld (localStorage w) (settings w) (f (atom w)) (results w)
          (requests w) (promises w) (calls w).
Definition set_results (f : gmap nat string -> gmap nat string)
    (w : World) : World :=
  mkWorld (localStorage w) (settings w) (atom w) (f (results w))
          (requests w) (promises w) (calls w).
Definition add_request (r : nat * ChatCompletionOptions) (w : World) : World :=
  mkWorld (localStorage w) (settings w) (atom w) (results w)
          (requests w ++ [r]) (promises w) (calls w).
Definition set_promise (h : nat) (p : Promise) (w : World) : World :=
  mkWorld (localStorage w) (settings w) (atom w) (results w)
          (requests w) (<[h := p]> (promises w)) (calls w).
Definition add_call (c : Call) (w : World) : World :=
  mkWorld (localStorage w) (settings w) (atom w) (results w)
          (requests w) (promises w) (calls w ++ [c]).

(* ===================================================================== *)
(** * utils.ts: [storage], seen through the record type *)
(* ===================================================================== *)

(** [storage<MsgStore>(key).get()]: the record of [key], [{}] when absent. *)
Definition storage_get (key : string) (ls : Records) : MsgStore.t :=
  default MsgStore.empty (ls !! key).

(** [storage<MsgStore>(key).set(data)] *)
Definition storage_set (key : string) (data : MsgStore.t) (ls : Records)
    : Records :=
  <[key := data]> ls.

(** [storage(key).del()], and [localStorage.removeItem(key)] *)
Definition storage_del (key : string) (ls : Records) : Records :=
  delete key ls.

(** ** The record type and the texts in [localStorage]

    [storage<MsgStore>(key).get()] is [JSON.parse(..) as MsgStore]: the
    record is what the properties of the parsed object read as. *)

(** [o.k], the last property of that name. *)
Definition prop (k : string) (o : JSON.value) : JSON.value :=
  match o with
  | JSON.Obj l =>
      match List.find (fun kv => bool_decide (kv.1 = k)) (reverse l) with
      | Some kv => kv.2
      | None => JSON.Undefined
      end
  | _ => JSON.Undefined
  end.

Definition as_string (v : JSON.value) : option string :=
  match v with JSON.Str s => Some s | _ => None end.

Definition as_number (v : JSON.value) : option Z :=
  match v with JSON.Num z => Some z | _ => None end.

Definition as_strings (v : JSON.value) : option (list string) :=
  match v with
  | JSON.Arr l => mapM as_string l
  | _ => None
  end.

Definition as_select (v : JSON.value) : option (nullable string) :=
  match v with
  | JSON.Null => Some null
  | JSON.Str s => Some (notnull s)
  | _ => None
  end.

Definition as_role (v : JSON.value) : option Role :=
  match v with
  | JSON.Str "user" => Some user
  | JSON.Str "assistant" => Some assistant
  | _ => None
  end.

Definition as_meta (v : JSON.value) : option Meta.t :=
  match v with
  | JSON.Obj _ =>
      Some (Meta.mk (as_string (prop "model" v)) (as_string (prop "error" v)))
  | _ => None
  end.

Definition as_task (v : JSON.value) : option string :=
  match v with
  | JSON.Obj _ => as_string (prop "id" v)
  | _ => None
  end.

(** The record a parsed object reads as. *)
Definition MsgStore_of (o : JSON.value) : MsgStore.t :=
  MsgStore.mk (as_number (prop "weight" o)) (as_string (prop "content" o))
              (as_strings (prop "messages" o)) (as_select (prop "select" o))
              (as_meta (prop "meta" o)) (as_role (prop "role" o))
              (as_string (prop "id" o)) (as_task (prop "task" o)).

Definition of_option {A : Type} (f : A -> JSON.value) (o : option A)
    : JSON.value :=
  match o with Some a => f a | None => JSON.Undefined end.

(** An object with the properties of a record ([undefined] where the
    record has none). *)
Definition MsgStore_object (r : MsgStore.t) : JSON.value :=
  JSON.Obj
    [("weight", of_option JSON.Num (MsgStore.weight r));
     ("content", of_option JSON.Str (MsgStore.content r));
     ("messages",
      of_option (fun l => JSON.Arr (map JSON.Str l)) (MsgStore.messages r));
     ("select",
      of_option (fun s => match s with
                          | null => JSON.Null
                          | notnull s => JSON.Str s
                          end)
                (MsgStore.select r));
     ("meta",
      of_option (fun m => JSON.Obj
                   [("model", of_option JSON.Str (Meta.model m));
                    ("error", of_option JSON.Str (Meta.error m))])
                (MsgStore.meta r));
     ("role",
      of_option (fun r => match r with
                          | user => JSON.Str "user"
                          | assistant => JSON.Str "assistant"
                          end)
                (MsgStore.role r));
     ("id", of_option JSON.Str (MsgStore.id r));
     ("task",
      of_option (fun i => JSON.Obj [("id", JSON.Str i);
                                    ("result", JSON.Obj [("get", JSON.Fun);
                                                         ("set", JSON.Fun);
                                                         ("subscribe", JSON.Fun)]);
                                    ("abort", JSON.Fun)])
                (MsgStore.task r))].

(** [rs] is what [storage<MsgStore>] reads in [ls]: every stored text is a
    JSON text, and [rs] holds the record it reads as. *)
Definition represents (ls : DOMStorage) (rs : Records) : Prop :=
  forall k,
    match ls !! k with
    | None => rs !! k = None
    | Some t =>
        t <> "" /\
        exists o, JSON.parse t = Some o /\ rs !! k = Some (MsgStore_of o)
    end.

(* ===================================================================== *)
(** * completionTaskStore.ts *)
(* ===================================================================== *)

(** [createAtom(initialValue)] for a result atom at address [h]; and its
    [set(updater)].  Subscribers of a result atom only re-read storage (they
    are [refresh] of a mounted [Message]), so an atom is its value here. *)
Definition createAtom (h : nat) (initialValue : string) (w : World) : World :=
  set_results (fun rs => <[h := initialValue]> rs) w.

Definition atom_set (h : nat) (updater : string -> string) (w : World)
    : World :=
  set_results (fun rs => <[h := updater (default "" (rs !! h))]> rs) w.

(** [storeTask] and [removeTask] (lines 66-69) *)
Definition storeTask (task : CompletionTask.t) (w : World) : World :=
  set_atom (fun prev => prev ++ [task]) w.

Definition removeTask (id : string) (w : World) : World :=
  set_atom
    (fun prev =>
       List.filter (fun task => negb (bool_decide (CompletionTask.id task = id)))
                   prev)
    w.

(** [completionTaskStore.get().find((task) => task.id === _id)] *)
Definition find_task (_id : string) (w : World) : option CompletionTask.t :=
  List.find (fun task => bool_decide (CompletionTask.id task = _id)) (atom w).

Record newTaskProps : Type := {
  nt_id : string;
  nt_apiKey : option string;
  nt_opts : ChatCompletionOptions;
  nt_onText : option (string -> Records -> Records);
  nt_onDone : option (string -> Records -> Records);
  nt_onError : option (JsError -> Records -> Records);
}.

(** An optional callback called on [x]: [cb?.(x)]. *)
Definition call_opt {X : Type} (cb : option (X -> Records -> Records)) (x : X)
    (w : World) : World :=
  match cb with
  | Some f => set_localStorage (f x) w
  | None => w
  end.

(** The synchronous part of [chatCompletion] (lines 17-29), for the promise
    at address [h]: without an API key the promise is rejected at once and
    nothing is sent; otherwise the request is sent. *)
Definition chatCompletion (h : nat) (props : newTaskProps) (w : World)
    : World :=
  let mkp ph :=
    {| p_id := nt_id props; p_onText := nt_onText props;
       p_onDone := nt_onDone props; p_onError := nt_onError props;
       p_phase := ph |} in
  match truthy (nt_apiKey props) with
  | None => set_promise h (mkp (Rejected ApiKeyRequired)) w
  | Some _ =>
      let body :=
        {| opt_model := Some (or_str (opt_model (nt_opts props)) "gpt-4o");
           opt_messages := Some (default [] (opt_messages (nt_opts props))) |} in
      set_promise h (mkp (Streaming "")) (add_request (h, body) w)
  end.

(** The address [newTask] allocates for its result atom and its controller:
    one that no earlier call used. *)
Definition fresh_handle (w : World) : nat := fresh (dom (promises w)).

(** [newTask] (lines 80-110) *)
Definition newTask (props : newTaskProps) (w : World) : World :=
  let h := fresh_handle w in
  let w := createAtom h "" w in
  let w := chatCompletion h props w in
  storeTask (CompletionTask.mk (nt_id props) h h) w.

(** [task.abort()]: [abortController.abort()] *)
Definition task_abort (task : CompletionTask.t) (w : World) : World :=
  add_call (CallAbort (CompletionTask.abort task)) w.

(** What can happen to a pending promise: the stream yields a chunk whose
    [choices[0]?.delta?.content] is [content]; the stream ends; the request
    or the stream raises; the microtask that runs the settled promise's
    handler. *)
Inductive Event : Type :=
  | Chunk (content : option string)
  | End
  | Throw (error : JsError)
  | Microtask.

Definition set_phase (ph : Phase) (p : Promise) : Promise :=
  {| p_id := p_id p; p_onText := p_onText p; p_onDone := p_onDone p;
     p_onError := p_onError p; p_phase := ph |}.

(** One event for the promise at [h] (lines 36-55 and 87-103). *)
Definition step (h : nat) (ev : Event) (w : World) : World :=
  match promises w !! h with
  | None => w
  | Some p =>
      match p_phase p, ev with
      | Streaming result, Chunk c =>
          match truthy c with
          | None => w
          | Some content =>
              let result := result +:+ content in
              let w := set_promise h (set_phase (Streaming result) p) w in
              (* onText: (text) => { result.set(() => text); onText?.(text) } *)
              let w := atom_set h (fun _ => result) w in
              let w := add_call (CallOnText h result) w in
              call_opt (p_onText p) result w
          end
      | Streaming result, End =>
          set_promise h (set_phase (Resolved result) p) w
      | Streaming _, Throw error =>
          if decide (err_name error = "AbortError")
          then set_promise h (set_phase (Resolved "") p) w
          else set_promise h (set_phase (Rejected error) p) w
      | Resolved text, Microtask =>
          let w := set_promise h (set_phase Settled p) w in
          let w := atom_set h (fun _ => text) w in
          let w := add_call (CallOnDone h text) w in
          let w := call_opt (p_onDone p) text w in
          removeTask (p_id p) w
      | Rejected error, Microtask =>
          let w := set_promise h (set_phase Settled p) w in
          let w := atom_set h (fun current => current) w in
          let w := add_call (CallOnError h error) w in
          let w := call_opt (p_onError p) error w in
          removeTask (p_id p) w
      | _, _ => w
      end
  end.

(** A run of events for one promise. *)
Definition steps (h : nat) (evs : list Event) (w : World) : World :=
  foldl (fun w ev => step h ev w) w evs.

(** What [chatCompletion] resolves with when the event [reaction] reaches a
    request that has streamed [acc]: [result] when the stream ends (line
    47), the empty string when the error caught is named [AbortError]
    (lines 49-51).  An error of another name rejects (line 53), and a chunk
    does not settle. *)
Definition resolves_with (acc : string) (reaction : Event) : option string :=
  match reaction with
  | End => Some acc
  | Throw error =>
      if decide (err_name error = "AbortError") then Some "" else None
  | _ => None
  end.

(** Cancelling a task: its [abort()] is called.  What the signal does to the
    pending request is decided by the client library, which is not part of
    these sources, so it is the argument [reaction]: the event that reaches
    [chatCompletion] next (the stream ends, or the request or the stream
    raises [error]).  The microtask of the promise follows it. *)
Definition cancel (task : CompletionTask.t) (reaction : Event) (w : World)
    : World :=
  let h := CompletionTask.abort task in
  step h Microtask (step h reaction (task_abort task w)).

(* ===================================================================== *)
(** * message.tsx *)
(* ===================================================================== *)

(** [newMessageCompletion] (lines 42-76).  [settingsStore.get()] is the
    [settings] of the world. *)
Definition newMessageCompletion (msgId : string) (messages : list ChatMessage)
    (w : World) : World :=
  let apiKey := SettingsStore.apiKey (settings w) in
  let model := SettingsStore.model (settings w) in
  let msg :=
    MsgStore.with_meta (Some (Meta.mk model None))
                       (storage_get msgId (localStorage w)) in
  let w := set_localStorage (storage_set msgId msg) w in
  newTask
    {| nt_id := msgId;
       nt_apiKey := apiKey;
       nt_opts := {| opt_model := model; opt_messages := Some messages |};
       nt_onText := Some (fun text =>
         storage_set msgId
           (MsgStore.with_content
              (Some (or_str (MsgStore.content msg) "" +:+ text +:+ " ")) msg));
       nt_onDone := None;
       nt_onError := Some (fun error ls =>
         let freshMsg := storage_get msgId ls in
         storage_set msgId
           (MsgStore.with_meta
              (Some (Meta.mk (MsgStore.meta freshMsg ≫= Meta.model)
                             (Some (err_json error))))
              freshMsg)
           ls) |}
    w.

(** An element of [childMsgs]: [{ ...storage(_id).get(), task: .. }].  The
    [task] put here replaces a [task] property read from storage. *)
Record ChildMsg : Type := {
  data : MsgStore.t;
  task : option CompletionTask.t;
}.

(** One render of [Message]: its props, its state [parentMsg], and what the
    render read from storage and from the registry. *)
Record Message : Type := {
  id : string;
  initialContent : list ChatMessage;
  parentMsg : MsgStore.t;
  childMsgs : list ChildMsg;
}.

(** [a === b] for [msg.id === parentMsg?.select]. *)
Definition strict_eq (a : option string) (b : option (nullable string))
    : bool :=
  match a, b with
  | None, None => true
  | Some x, Some (notnull y) => bool_decide (x = y)
  | _, _ => false
  end.

(** Lines 85-91: the render of [Message] with state [parentMsg] in [w]. *)
Definition render (id : string) (initialContent : list ChatMessage)
    (parentMsg : MsgStore.t) (w : World) : Message :=
  {| id := id;
     initialContent := initialContent;
     parentMsg := parentMsg;
     childMsgs :=
       match MsgStore.messages parentMsg with
       | Some messages =>
           map (fun _id =>
                  {| data := storage_get _id (localStorage w);
                     task := find_task _id w |})
               messages
       | None => []
       end |}.

(** The render after [refresh()]: the state is what storage holds. *)
Definition mount (id : string) (initialContent : list ChatMessage)
    (w : World) : Message :=
  render id initialContent (storage_get id (localStorage w)) w.

(** Line 93 *)
Definition weight (m : Message) : Z :=
  foldl (fun p c => p + 1 + default 0 (MsgStore.weight (data c))) 0
        (childMsgs m).

(** Line 95 *)
Definition selectedMsg (m : Message) : option ChildMsg :=
  List.find (fun msg => strict_eq (MsgStore.id (data msg))
                                  (MsgStore.select (parentMsg m)))
            (childMsgs m).

(** Line 97 *)
Definition defaultChildRole (m : Message) : Role :=
  if decide (MsgStore.role (parentMsg m) = Some user) then assistant else user.

(** The layout effect of lines 106-112 ([onWeightChange] and [refresh] ask
    for renders and change no state here). *)
Definition layoutEffect (m : Message) (w : World) : World :=
  if decide (Some (weight m) = MsgStore.weight (parentMsg m)) then w
  else set_localStorage
         (storage_set (id m)
            (MsgStore.with_weight (Some (weight m)) (parentMsg m)))
         w.

(** [newBranch] (lines 165-217).  [nanoid1] and [nanoid2] are the results of
    the two [nanoid(4)] calls. *)
Definition newBranch (m : Message) (nanoid1 nanoid2 : string)
    (content : option string) (fillContent addAnswer : bool) (w : World)
    : World :=
  let msgId := "#" +:+ nanoid1 in
  let role :=
    default (defaultChildRole m) (selectedMsg m ≫= fun s => MsgStore.role (data s)) in
  let msg :=
    MsgStore.mk None content None None None (Some role) (Some msgId) None in
  let '(msg, w) :=
    match addAnswer, truthy content, role with
    | true, Some content, user =>
        let childMsgId := "#" +:+ nanoid2 in
        let w :=
          set_localStorage
            (storage_set childMsgId
               (MsgStore.mk None None None None None (Some assistant)
                            (Some childMsgId) None))
            w in
        let msg :=
          MsgStore.with_select (Some (notnull childMsgId))
            (MsgStore.with_messages (Some [childMsgId]) msg) in
        let w :=
          newMessageCompletion childMsgId
            (initialContent m
               ++ [{| chat_role := node_role role; chat_content := content |}])
            w in
        (msg, w)
    | _, _, _ => (msg, w)
    end in
  let w := set_localStorage (storage_set msgId msg) w in
  let w :=
    match fillContent, addAnswer, role with
    | true, false, assistant => newMessageCompletion msgId (initialContent m) w
    | _, _, _ => w
    end in
  set_localStorage
    (storage_set (id m)
       (MsgStore.with_select (Some (notnull msgId))
          (MsgStore.with_messages
             (Some (msgId :: default [] (MsgStore.messages (parentMsg m))))
             (parentMsg m))))
    w.

(** [editSelect] (lines 219-230).  The key [storage] is given is
    [selectedMsg.id]; a missing [id] reads as the key ["undefined"].  The
    object written is [{ ...selectedMsg, content }]: it carries the [task]
    of [selectedMsg], which [JSON.stringify] keeps as far as it is data. *)
Definition editSelect (m : Message) (content : string) (w : World) : World :=
  match selectedMsg m with
  | None => w
  | Some sel =>
      set_localStorage
        (storage_set (default "undefined" (MsgStore.id (data sel)))
           (MsgStore.with_content (Some content)
              (MsgStore.with_task (CompletionTask.id <$> task sel) (data sel))))
        w
  end.

(** Lines 235-243 of [handleItemDelete]. *)
Definition newMsgs (m : Message) (msgId : string) : list string :=
  List.filter (fun _id => negb (bool_decide (_id = msgId)))
              (default [] (MsgStore.messages (parentMsg m))).

Definition deletedChatIndex (m : Message) (msgId : string) : Z :=
  indexOf (default [] (MsgStore.messages (parentMsg m))) msgId.

Definition newSelected (m : Message) (msgId : string)
    : option (nullable string) :=
  if decide (MsgStore.select (parentMsg m) = Some (notnull msgId)) then
    match truthy (at_index (newMsgs m msgId) (deletedChatIndex m msgId)) with
    | Some s => Some (notnull s)
    | None =>
        match truthy (at_index (newMsgs m msgId) 0) with
        | Some s => Some (notnull s)
        | None => Some null
        end
    end
  else MsgStore.select (parentMsg m).

(** A [for .. of] loop whose body can run out of fuel. *)
Fixpoint for_of {A S : Type} (body : A -> S -> option S) (l : list A) (s : S)
    : option S :=
  match l with
  | [] => Some s
  | x :: l' =>
      match body x s with
      | Some s' => for_of body l' s'
      | None => None
      end
  end.

(** [recDel] (lines 253-268), by recursion on [fuel]: [None] is a call
    deeper than [fuel]. *)
Fixpoint recDel (fuel : nat) (_id : string) (w : World) : option World :=
  match fuel with
  | O => None
  | S fuel =>
      let messages := MsgStore.messages (storage_get _id (localStorage w)) in
      let w := set_localStorage (storage_del _id) w in
      let w :=
        match find_task _id w with
        | Some task => task_abort task w
        | None => w
        end in
      match messages with
      | None => Some w
      | Some messages => for_of (recDel fuel) messages w
      end
  end.

(** [handleItemDelete] (lines 232-271).  The recursion of [recDel] is at
    most one deeper than the number of stored records
    ([recDel_terminates]). *)
Definition handleItemDelete (m : Message) (msgId : string) (w : World)
    : option World :=
  let w :=
    set_localStorage
      (storage_set (id m)
         (MsgStore.with_messages (Some (newMsgs m msgId))
            (MsgStore.with_select (newSelected m msgId) (parentMsg m))))
      w in
  recDel (S (size (localStorage w))) msgId w.

(** [handleItemClick] (lines 273-282) *)
Definition handleItemClick (m : Message) (msgId : string) (w : World)
    : World :=
  set_localStorage
    (storage_set (id m)
       (MsgStore.with_select (Some (notnull msgId)) (parentMsg m)))
    w.

(** [deselectMsgRef.current] (lines 284-286) *)
Definition deselectMsg (m : Message) (w : World) : World :=
  handleItemClick m "" w.

(* ===================================================================== *)
(** * Notions the properties are stated with *)
(* ===================================================================== *)

(** The children sequence of the node stored under [x]. *)
Definition children (ls : Records) (x : string) : list string :=
  default [] (MsgStore.messages (storage_get x ls)).

(** [reachable ls x z]: [z] is [x] or a descendant of [x] through the
    children chains of [ls]. *)
Inductive reachable (ls : Records) : string -> string -> Prop :=
  | reachable_refl x : reachable ls x x
  | reachable_step x y z :
      y ∈ children ls x -> reachable ls y z -> reachable ls x z.

(** [abort()] was called on the task the registry finds for [x], if any. *)
Definition aborted (x : string) (w : World) : Prop :=
  forall t, find_task x w = Some t ->
            CallAbort (CompletionTask.abort t) ∈ calls w.

(** The ids of the registered tasks. *)
Definition task_ids (w : World) : list string :=
  map CompletionTask.id (atom w).

(** [w'] differs from [w] in storage and in further calls only. *)
Definition same_tasks (w w' : World) : Prop :=
  settings w' = settings w /\ atom w' = atom w /\ results w' = results w /\
  requests w' = requests w /\ promises w' = promises w /\
  calls w `prefix_of` calls w'.

(** What one call of [recDel], or a run of them, leaves behind: records are
    only removed, and every child of a removed record was itself removed
    and had its task aborted. *)
Definition closed_removal (w w' : World) : Prop :=
  localStorage w' ⊆ localStorage w /\
  same_tasks w w' /\
  forall y, is_Some (localStorage w !! y) -> localStorage w' !! y = None ->
    forall z, z ∈ children (localStorage w) y ->
      localStorage w' !! z = None /\ aborted z w'.

(** What a run of [recDel] does to the record of [y]: nothing, or it
    removes it, and then [y] was reachable from where the run started. *)
Definition removes_from (P : string -> Prop) (w w' : World) : Prop :=
  forall y, localStorage w' !! y = localStorage w !! y \/
            (localStorage w' !! y = None /\ P y).

(** The world of the examples: root [#0000] with the user node [#aaaa],
    whose assistant child [#bbbb] is streaming. *)
Definition example_settings : SettingsStore.t :=
  SettingsStore.mk (Some "gpt-4o") (Some "sk-key").

Definition empty_world (s : SettingsStore.t) : World :=
  mkWorld ∅ s [] ∅ [] ∅ [].

Definition example_world : World :=
  newBranch (mount "#0000" [] (empty_world example_settings))
            "aaaa" "bbbb" (Some "hi") false true
            (empty_world example_settings).

(** Root [#0000] with two sibling branches, [#cccc] (newest, selected)
    before [#aaaa]. *)
Definition two_siblings_world : World :=
  let w := empty_world example_settings in
  let w := newBranch (mount "#0000" [] w) "aaaa" "" (Some "one") false false w in
  newBranch (mount "#0000" [] w) "cccc" "" (Some "two") false false w.

(** [select], when present and not [null], names a member of [messages]. *)
Definition select_ok (r : MsgStore.t) : Prop :=
  match MsgStore.select r with
  | Some (notnull s) => s ∈ default [] (MsgStore.messages r)
  | _ => True
  end.

(** A task for the node [#x], without callbacks, as [newTask] gets it
    when the settings hold [apiKey]. *)
Definition example_props (apiKey : option string) : newTaskProps :=
  {| nt_id := "#x"; nt_apiKey := apiKey;
     nt_opts := {| opt_messages := None; opt_model := None |};
     nt_onText := None; nt_onDone := None; nt_onError := None |}.

(** The text a run of chunks adds up to: [content || ""] of each. *)
Fixpoint chunks_text (cs : list (option string)) : string :=
  match cs with
  | [] => ""
  | c :: cs => or_str c "" +:+ chunks_text cs
  end.

(** The calls of [onText] of promise [h]. *)
Definition onText_calls (h : nat) (k : list Call) : Prop :=
  Forall (fun c => exists t, c = CallOnText h t) k.

(** The example world after its task streamed the chunk ["hel"]. *)
Definition streamed_world : World :=
  step 0 (Chunk (Some "hel")) example_world.

(** The sum over the children [c] of [n] of [1 + weight(c)], where an
    absent weight counts as 0 (it is read as [c.weight || 0]). *)
Definition children_weight (ls : Records) (n : string) : Z :=
  foldr (fun c acc => (1 + default 0 (MsgStore.weight (storage_get c ls))) + acc)
        0 (children ls n).

(** The persisted weight of [n] is that sum. *)
Definition weight_ok (ls : Records) (n : string) : Prop :=
  default 0 (MsgStore.weight (storage_get n ls)) = children_weight ls n.

(** The records of the scenario "send [hi] from the empty root": the
    assistant placeholder [A] as [newBranch] creates it and as
    [newMessageCompletion] rewrites it with the settings' model, the user
    node [U], and the root. *)
Definition placeholder (A : string) : MsgStore.t :=
  MsgStore.mk None None None None None (Some assistant) (Some A) None.

Definition placeholder_with_model (model : option string) (A : string)
    : MsgStore.t :=
  MsgStore.with_meta (Some (Meta.mk model None)) (placeholder A).

Definition user_node (U A : string) : MsgStore.t :=
  MsgStore.mk None (Some "hi") (Some [A]) (Some (notnull A)) None
              (Some user) (Some U) None.

Definition root_node (U : string) : MsgStore.t :=
  MsgStore.with_select (Some (notnull U))
    (MsgStore.with_messages (Some [U]) MsgStore.empty).

(** The request of that scenario is the path plus the new message. *)
Definition hi_path (initialContent : list ChatMessage) : list ChatMessage :=
  initialContent
    ++ [{| chat_role := node_role user; chat_content := "hi" |}].

(* ===================================================================== *)
(** * utils.ts: [createAtom] with its subscribers (lines 7-27) *)
(* ===================================================================== *)

(** An atom is its value and its subscribers.  [subscribers] is a [Set]: it
    holds a callback at most once, and [forEach] visits the callbacks in
    the order they were added.  A callback is known by its identity (a
    function object; here a number).  The callbacks this program subscribes
    are React state setters, which do not touch the atom that calls them,
    so [set] gives the calls it makes, in order, next to the new atom. *)
Module Atom.

Record t (T : Type) : Type := mk {
  value : T;
  subscribers : list nat;
}.
Arguments mk {T} value subscribers.
Arguments value {T} _.
Arguments subscribers {T} _.

(** [createAtom(initialValue)] *)
Definition create {T : Type} (initialValue : T) : t T := mk initialValue [].

(** [get: () => value] *)
Definition get {T : Type} (a : t T) : T := value a.

(** [set: (updater) => { value = updater(value);
                         subscribers.forEach((callback) => callback(value)) }] *)
Definition set {T : Type} (updater : T -> T) (a : t T)
    : t T * list (nat * T) :=
  let value := updater (value a) in
  (mk value (subscribers a),
   map (fun callback => (callback, value)) (subscribers a)).

(** [subscribe: (callback) => { subscribers.add(callback); return .. }] *)
Definition subscribe {T : Type} (callback : nat) (a : t T) : t T :=
  if decide (callback ∈ subscribers a) then a
  else mk (value a) (subscribers a ++ [callback]).

(** The function [subscribe] returns: [subscribers.delete(callback)]. *)
Definition unsubscribe {T : Type} (callback : nat) (a : t T) : t T :=
  mk (value a)
     (List.filter (fun c => negb (bool_decide (c = callback))) (subscribers a)).

(** What a client can do with an atom. *)
Inductive Op (T : Type) : Type :=
  | Set_ (updater : T -> T)
  | Subscribe (callback : nat)
  | Unsubscribe (callback : nat).
Arguments Set_ {T} updater.
Arguments Subscribe {T} callback.
Arguments Unsubscribe {T} callback.

Definition run_op {T : Type} (a : t T) (op : Op T) : t T :=
  match op with
  | Set_ updater => (set updater a).1
  | Subscribe callback => subscribe callback a
  | Unsubscribe callback => unsubscribe callback a
  end.

Definition run {T : Type} (ops : list (Op T)) (a : t T) : t T :=
  foldl run_op a ops.

(** Whether [callback] is subscribed after [ops], when [b] says whether it
    was before: what its latest [Subscribe] or [Unsubscribe] says. *)
Fixpoint subscribed {T : Type} (callback : nat) (ops : list (Op T)) (b : bool)
    : bool :=
  match ops with
  | [] => b
  | Set_ _ :: ops => subscribed callback ops b
  | Subscribe c :: ops =>
      subscribed callback ops (if decide (c = callback) then true else b)
  | Unsubscribe c :: ops =>
      subscribed callback ops (if decide (c = callback) then false else b)
  end.

End Atom.

(* ===================================================================== *)
(** * settingsStore.ts, and the handlers of the header that write to it *)
(* ===================================================================== *)

(** A settings object, and the settings a parsed object reads as (at the
    type the program declares for it). *)
Definition SettingsStore_object (s : SettingsStore.t) : JSON.value :=
  JSON.Obj [("model", of_option JSON.Str (SettingsStore.model s));
            ("apiKey", of_option JSON.Str (SettingsStore.apiKey s))].

Definition SettingsStore_of (o : JSON.value) : SettingsStore.t :=
  SettingsStore.mk (as_string (prop "model" o)) (as_string (prop "apiKey" o)).

(** The properties [{ ...o }] copies from a parsed value [o]: those of an
    object.  ([null], a number and a boolean have none; the index
    properties of a string or an array are none of the settings.) *)
Definition spread (o : JSON.value) : list (string * JSON.value) :=
  match o with
  | JSON.Obj l => l
  | _ => []
  end.

(** [createSettingsStore] (lines 3-24): the initial value of its atom,
    [{ model: 'gpt-4o', ...store.get() }].  [None] is the [SyntaxError] of
    [store.get()]. *)
Definition createSettingsStore (ls : DOMStorage) : option SettingsStore.t :=
  match storage.get "settings" ls with
  | Some o =>
      Some (SettingsStore_of
              (JSON.Obj (("model", JSON.Str "gpt-4o") :: spread o)))
  | None => None
  end.

(** [settingsStore.set(data)] (lines 17-20): [store.set(data)], then
    [atom.set(() => data)].  The result is the storage and the value of the
    atom. *)
Definition settingsStore_set (data : SettingsStore.t) (ls : DOMStorage)
    : DOMStorage * SettingsStore.t :=
  (storage.set "settings" (SettingsStore_object data) ls, data).

(** header.tsx, lines 24-30.  [settings] is the state of the header, the
    value of the atom it subscribed to. *)
Definition handleModelSelect (settings : SettingsStore.t) (val : string)
    (ls : DOMStorage) : DOMStorage * SettingsStore.t :=
  settingsStore_set
    (SettingsStore.mk (Some val) (SettingsStore.apiKey settings)) ls.

Definition handleApiKeyInput (settings : SettingsStore.t) (val : string)
    (ls : DOMStorage) : DOMStorage * SettingsStore.t :=
  settingsStore_set
    (SettingsStore.mk (SettingsStore.model settings) (Some val)) ls.

(* ===================================================================== *)
(** * message.tsx: what a render shows, and the handlers behind its
      controls *)
(* ===================================================================== *)

(** [selectedMemoProps] (lines 114-138) without its [key]: the props of the
    component of the selected child.  The dependencies of the [useMemo] are
    all it reads, so it is a function of the render. *)
Record MemoProps : Type := {
  mp_id : string;
  mp_role : option Role;
  mp_content : option string;
  mp_initialContent : list ChatMessage;
}.

Definition selectedMemoProps (m : Message) : option MemoProps :=
  match selectedMsg m with
  | Some sel =>
      match truthy (MsgStore.id (data sel)) with
      | Some i =>
          Some {| mp_id := i;
                  mp_role := MsgStore.role (data sel);
                  mp_content := MsgStore.content (data sel);
                  mp_initialContent :=
                    initialContent m ++
                    match MsgStore.role (data sel),
                          truthy (MsgStore.content (data sel)) with
                    | Some role, Some content =>
                        [{| chat_role := node_role role;
                            chat_content := content |}]
                    | _, _ => []
                    end |}
      | None => None
      end
  | None => None
  end.

(** Lines 442-450: the component of the selected child is rendered when
    there are props for it and the selected child has no task; it starts
    from what storage holds. *)
Definition childMessage (m : Message) (w : World) : option Message :=
  match selectedMemoProps m, selectedMsg m ≫= task with
  | Some props, None => Some (mount (mp_id props) (mp_initialContent props) w)
  | _, _ => None
  end.

(** [onSubmit] of the text area (lines 407-416) *)
Inductive Action : Type := send | save.

Definition onSubmit (m : Message) (nanoid1 nanoid2 : string)
    (content : string) (action : Action) (w : World) : World :=
  match action with
  | send => newBranch m nanoid1 nanoid2 (Some content) false true w
  | save => editSelect m content w
  end.

(** "Roll another response" (line 381): [newBranch({ fillContent: true })].
    The button is there when [selectedMsg?.role === "assistant"]. *)
Definition rollAnother (m : Message) (nanoid1 nanoid2 : string) (w : World)
    : World :=
  newBranch m nanoid1 nanoid2 None true false w.

(* ===================================================================== *)
(** * More notions the properties are stated with *)
(* ===================================================================== *)

(** The texts [onText] is called with over a run of chunks, [acc] being
    what the stream gave before: one call per chunk with a non-empty
    content, each with all the text so far. *)
Fixpoint cumulative (acc : string) (cs : list (option string)) : list string :=
  match cs with
  | [] => []
  | c :: cs =>
      match truthy c with
      | Some s => (acc +:+ s) :: cumulative (acc +:+ s) cs
      | None => cumulative acc cs
      end
  end.

(** The role [newBranch] gives the node it creates (line 180). *)
Definition newBranch_role (m : Message) : Role :=
  default (defaultChildRole m)
          (selectedMsg m ≫= fun s => MsgStore.role (data s)).

(** The ids of the nodes below [n], children first to last and each
    followed by what is below it, as far as [fuel] levels down. *)
Fixpoint descendants (fuel : nat) (ls : Records) (n : string) : list string :=
  match fuel with
  | O => []
  | S fuel =>
      flat_map (fun c => c :: descendants fuel ls c) (children ls n)
  end.

(** The nodes below [n] are at most [depth] children chains deep. *)
Fixpoint shallow (depth : nat) (ls : Records) (n : string) : Prop :=
  match depth with
  | O => children ls n = []
  | S depth => Forall (shallow depth ls) (children ls n)
  end.

(** Every registered task is in progress: its two addresses are one, the
    promise there bears its id and was not handled yet, and while the
    promise streams the result atom holds the text accumulated so far. *)
Definition in_progress (w : World) : Prop :=
  forall t, t ∈ atom w ->
    CompletionTask.result t = CompletionTask.abort t /\
    exists p,
      promises w !! CompletionTask.abort t = Some p /\
      p_id p = CompletionTask.id t /\
      p_phase p <> Settled /\
      forall acc, p_phase p = Streaming acc ->
                  results w !! CompletionTask.result t = Some acc.

(** The layout effects of the nodes of [path], one after the other, each
    at a render from what storage holds then ([initialContent] plays no
    part in the effect). *)
Definition layoutEffects (path : list string) (w : World) : World :=
  foldl (fun w n => layoutEffect (mount n [] w) w) w path.

(** [path] leads upwards in the tree: no node is its own child, and none
    is a child of a node that comes before it. *)
Fixpoint upwards (ls : Records) (path : list string) : Prop :=
  match path with
  | [] => True
  | n :: path =>
      (n ∉ children ls n) /\
      Forall (fun m => m <> n /\ (m ∉ children ls n)) path /\
      upwards ls path
  end.

(** The example with the layout effects of [#aaaa] and of the root run: the
    weights stored are 1 at [#aaaa] and 2 at the root. *)
Definition weighed_world : World :=
  layoutEffects ["#aaaa"; "#0000"] example_world.

(** Then "Roll another response" in the component of [#aaaa], and the
    layout effects that follow: the children of [#aaaa] are [#cccc] (new,
    streaming, and selected) and [#bbbb]; the effect of [#aaaa] wrote the
    weight 2 and asked for a render of the root, whose effect wrote 3. *)
Definition rolled_world : World :=
  layoutEffects ["#aaaa"; "#0000"]
    (rollAnother (mount "#aaaa" (hi_path []) weighed_world) "cccc" "dddd"
                 weighed_world).

(** The render of the root from then on: nothing asks for another while
    the weight of [#aaaa] stays as it is. *)
Definition root_before_click : Message := mount "#0000" [] rolled_world.

(** Then [#bbbb] is clicked in the component of [#aaaa].  The handler asks
    for a render of that component only ([refresh], line 281), and the
    effect of that render finds the weight it computes stored, so the
    component of the root keeps the render it has. *)
Definition clicked_world : World :=
  handleItemClick (mount "#aaaa" (hi_path []) rolled_world) "#bbbb"
                  rolled_world.

(** The mutations of the tree that the handlers of a component make. *)
Inductive Mutation : Type :=
  | NewBranch (nanoid1 nanoid2 : string) (content : option string)
              (fillContent addAnswer : bool)
  | EditSelect (content : string)
  | ItemDelete (msgId : string)
  | ItemClick (msgId : string).

(** The handler of [mu], called in the component rendered as [m]. *)
Definition mutate (m : Message) (mu : Mutation) (w : World) : option World :=
  match mu with
  | NewBranch nanoid1 nanoid2 content fillContent addAnswer =>
      Some (newBranch m nanoid1 nanoid2 content fillContent addAnswer w)
  | EditSelect content => Some (editSelect m content w)
  | ItemDelete msgId => handleItemDelete m msgId w
  | ItemClick msgId => Some (handleItemClick m msgId w)
  end.

(** The components whose layout effect follows the handler, in the order
    of their writes.  Every handler calls [refresh()], which renders the
    component of [m] from what storage holds.  Below it the component of
    the selected child is rendered when that child has no task (line 442):
    after [newBranch] that child is the new node, and its effect comes
    first.  An effect that writes calls [onWeightChange], the [refresh] of
    the component above, so the effects go up the [ancestors] of [m].
    ([layoutEffects] runs each effect at a render of what storage holds.
    A component that was rendered before the effects below it wrote is
    asked for such a render by their [onWeightChange]; the effect of its
    earlier render and the effect of that render together leave what the
    latter alone would: [layoutEffect_stale_then_fresh].) *)
Definition effects_after (m : Message) (mu : Mutation)
    (ancestors : list string) (w' : World) : list string :=
  match mu with
  | NewBranch nanoid1 _ _ _ _ =>
      match find_task ("#" +:+ nanoid1) w' with
      | None => ["#" +:+ nanoid1]
      | Some _ => []
      end
  | _ => []
  end ++ id m :: ancestors.

(** A mutation with the layout effects that follow it. *)
Definition completed (m : Message) (mu : Mutation) (ancestors : list string)
    (w : World) : option World :=
  match mutate m mu w with
  | Some w' => Some (layoutEffects (effects_after m mu ancestors w') w')
  | None => None
  end.

(** What the handlers rely on.  The two ids [newBranch] draws are new: no
    record is stored under them, no node lists them as a child, and the new
    node has no task.  The child [editSelect] writes back was read with the
    weight and the children it has in storage.  [handleItemDelete] is
    called for a child of the node (the delete button of a row), in a tree:
    the node and its ancestors are not below that child, and no node is
    listed by two parents. *)
Definition admissible (m : Message) (mu : Mutation) (ancestors : list string)
    (w : World) : Prop :=
  let ls := localStorage w in
  match mu with
  | NewBranch nanoid1 nanoid2 _ _ _ =>
      nanoid1 <> nanoid2 /\
      Forall (fun x => ls !! x = None /\
                       (x ∉ id m :: ancestors) /\
                       forall n, x ∉ children ls n)
             ["#" +:+ nanoid1; "#" +:+ nanoid2] /\
      ("#" +:+ nanoid1 ∉ task_ids w)
  | EditSelect _ =>
      forall sel, selectedMsg m = Some sel ->
        let stored :=
          storage_get (default "undefined" (MsgStore.id (data sel))) ls in
        MsgStore.weight (data sel) = MsgStore.weight stored /\
        MsgStore.messages (data sel) = MsgStore.messages stored
  | ItemDelete msgId =>
      msgId ∈ children ls (id m) /\
      (forall x, x ∈ id m :: ancestors -> ~ reachable ls msgId x) /\
      (forall n n' c, c ∈ children ls n -> c ∈ children ls n' -> n = n')
  | ItemClick _ => True
  end.

(* ===================================================================== *)
(** * Facts about [JSON] *)
(* ===================================================================== *)

Section JSONFacts.

Import JSON.

Lemma value_ind' (P : value -> Prop) :
  P Undefined -> P Fun -> P Null -> (forall b, P (Bool b)) ->
  (forall z, P (Num z)) -> (forall s, P (Str s)) ->
  (forall l, Forall P l -> P (Arr l)) ->
  (forall l, Forall (fun kv => P kv.2) l -> P (Obj l)) ->
  forall v, P v.
Proof.
  intros HU HF HN HB HZ HS HA HO.
  fix IH 1. intros [| | |b|z|s|l|l];
    [exact HU|exact HF|exact HN|apply HB|apply HZ|apply HS| |].
  - apply HA. induction l as [|v l IHl]; constructor; [apply IH|exact IHl].
  - apply HO. induction l as [|[k v] l IHl]; constructor; [apply IH|exact IHl].
Qed.

Lemma string_length_app (a b : string) :
  String.length (a +:+ b) = (String.length a + String.length b)%nat.
Proof.
  induction a as [|c a IH]; [done|].
  change (S (String.length (a +:+ b)) = S (String.length a + String.length b)).
  by rewrite IH.
Qed.

Lemma string_app_nil_r (s : string) : s +:+ "" = s.
Proof.
  induction s as [|a s IH]; [done|].
  change (String a (s +:+ "") = String a s). by rewrite IH.
Qed.

Lemma string_app_cons (c : ascii) (a b : string) :
  String c a +:+ b = String c (a +:+ b).
Proof. reflexivity. Qed.

Lemma string_app_assoc (s1 s2 s3 : string) :
  (s1 +:+ s2) +:+ s3 = s1 +:+ (s2 +:+ s3).
Proof.
  induction s1 as [|a s1 IH]; [done|].
  change (String a ((s1 +:+ s2) +:+ s3) = String a (s1 +:+ (s2 +:+ s3))).
  by rewrite IH.
Qed.

Lemma stringify_Arr l :
  stringify (Arr l) = Some ("[" +:+ join "," (elements l) +:+ "]").
Proof. reflexivity. Qed.

Lemma stringify_Obj l :
  stringify (Obj l) = Some ("{" +:+ join "," (members l) +:+ "}").
Proof. reflexivity. Qed.

Lemma defined_Arr l : defined (Arr l) = Arr (map defined_element l).
Proof. reflexivity. Qed.

Lemma defined_Obj l : defined (Obj l) = Obj (defined_members l).
Proof. reflexivity. Qed.

(** *** Strings *)

Lemma parse_chars_escape_char (c : ascii) (t : string) :
  parse_chars (escape_char c +:+ t) = put c (parse_chars t).
Proof.
  destruct c as [[] [] [] [] [] [] [] []]; reflexivity.
Qed.

Lemma parse_chars_escape (s rest : string) :
  parse_chars (escape s +:+ String dquote rest) = Some (s, rest).
Proof.
  induction s as [|c s IH]; [reflexivity|].
  cbn [escape]. rewrite string_app_assoc, parse_chars_escape_char.
  by rewrite IH.
Qed.

Lemma parse_chars_quote (s rest : string) :
  exists t, quote s +:+ rest = String dquote t /\
            parse_chars t = Some (s, rest).
Proof.
  exists (escape s +:+ String dquote rest). split.
  - unfold quote.
    change (String dquote ((escape s +:+ String dquote "") +:+ rest)
            = String dquote (escape s +:+ String dquote rest)).
    by rewrite string_app_assoc.
  - apply parse_chars_escape.
Qed.

(** *** Numbers *)


Lemma parse_uint_print (d : uint) (rest : string) :
  no_digit rest -> parse_uint (print_uint d +:+ rest) = (d, rest).
Proof.
  intros Hrest. induction d as [|d IH|d IH|d IH|d IH|d IH|d IH|d IH|d IH|d IH|d IH];
    try (cbn [print_uint]; rewrite string_app_cons; cbn [parse_uint digit_of];
         by rewrite IH).
  destruct rest as [|c rest]; [done|].
  change (parse_uint (String c rest) = (Nil, String c rest)).
  unfold no_digit in Hrest. unfold parse_uint. by rewrite Hrest.
Qed.

Lemma good_rest_no_digit rest : good_rest rest -> no_digit rest.
Proof.
  destruct rest as [|c rest]; [done|]. simpl. by intros [->|[->| ->]].
Qed.

Lemma good_rest_continues rest : good_rest rest -> continues_number rest = false.
Proof.
  destruct rest as [|c rest]; [done|]. simpl. by intros [->|[->| ->]].
Qed.

Lemma to_uint_normal (n : N) :
  N.to_uint n <> Nil /\ unorm (N.to_uint n) = N.to_uint n.
Proof.
  assert (H : unorm (N.to_uint n) = N.to_uint n).
  { rewrite <- (DecimalN.Unsigned.to_of (N.to_uint n)).
    by rewrite DecimalN.Unsigned.of_to. }
  split; [|done]. rewrite <- H. apply DecimalFacts.unorm_nonnil.
Qed.

(** The text of a number starts with a digit. *)
Lemma print_uint_digit (d : uint) :
  d <> Nil ->
  exists c t, print_uint d = String c t /\ is_Some (digit_of c).
Proof.
  destruct d; [done|..]; intros _; eexists _, _; (split; [reflexivity|]);
    by eexists.
Qed.

Lemma parse_number_print (z : Z) (rest : string) :
  good_rest rest -> parse_number (print_Z z +:+ rest) = Some (z, rest).
Proof.
  intros Hrest. unfold print_Z.
  case_decide as Hz.
  - destruct (to_uint_normal (Z.to_N (- z))) as [Hnil Hnorm].
    unfold parse_number.
    change (String "-" (print_uint (N.to_uint (Z.to_N (- z)))) +:+ rest)
      with (String "-" (print_uint (N.to_uint (Z.to_N (- z))) +:+ rest)).
    cbn iota beta.
    rewrite parse_uint_print by by apply good_rest_no_digit.
    rewrite decide_False, decide_True by done.
    rewrite good_rest_continues by done.
    rewrite DecimalN.Unsigned.of_to. do 2 f_equal. lia.
  - destruct (to_uint_normal (Z.to_N z)) as [Hnil Hnorm].
    destruct (print_uint_digit _ Hnil) as (c & t & Hprint & Hc).
    unfold parse_number.
    assert (Hneg : match print_uint (N.to_uint (Z.to_N z)) +:+ rest with
                   | String "-" s' => (true, s')
                   | _ => (false, print_uint (N.to_uint (Z.to_N z)) +:+ rest)
                   end = (false, print_uint (N.to_uint (Z.to_N z)) +:+ rest)).
    { rewrite Hprint.
      change (String c t +:+ rest) with (String c (t +:+ rest)).
      destruct Hc as [D HD].
      destruct c as [[] [] [] [] [] [] [] []]; try done. }
    rewrite Hneg.
    rewrite parse_uint_print by by apply good_rest_no_digit.
    rewrite decide_False, decide_True by done.
    rewrite good_rest_continues by done.
    rewrite DecimalN.Unsigned.of_to. do 2 f_equal. lia.
Qed.

(** *** Values *)

Lemma parse_value_number_char (c : ascii) (s : string) (fuel : nat) :
  c = "-"%char \/ is_Some (digit_of c) ->
  parse_value (S fuel) (String c s)
  = match parse_number (String c s) with
    | Some (z, rest') => Some (Num z, rest')
    | None => None
    end.
Proof.
  intros Hc.
  destruct c as [[] [] [] [] [] [] [] []];
    (destruct Hc as [Hc|[D Hc]]; try discriminate Hc); reflexivity.
Qed.

Lemma print_Z_first (z : Z) :
  exists c t, print_Z z = String c t /\
              (c = "-"%char \/ is_Some (digit_of c)).
Proof.
  unfold print_Z. case_decide.
  - eexists _, _. split; [reflexivity|by left].
  - destruct (to_uint_normal (Z.to_N z)) as [Hnil _].
    destruct (print_uint_digit _ Hnil) as (c & t & -> & Hc).
    exists c, t. by split; [|right].
Qed.

Lemma parse_value_number (z : Z) (rest : string) (fuel : nat) :
  good_rest rest ->
  parse_value (S fuel) (print_Z z +:+ rest) = Some (Num z, rest).
Proof.
  intros Hrest. pose proof (parse_number_print z rest Hrest) as Hnum.
  destruct (print_Z_first z) as (c & t & Hz & Hc). rewrite Hz in *.
  rewrite string_app_cons in *.
  rewrite (parse_value_number_char c _ fuel Hc). by rewrite Hnum.
Qed.

Lemma parse_value_string (s rest : string) (fuel : nat) :
  parse_value (S fuel) (quote s +:+ rest) = Some (Str s, rest).
Proof.
  destruct (parse_chars_quote s rest) as (t & -> & Ht).
  change (match parse_chars t with
          | Some (t, rest') => Some (Str t, rest')
          | None => None
          end = Some (Str s, rest)).
  by rewrite Ht.
Qed.

Lemma skip_ws_sep (c : ascii) (s : string) :
  c = ","%char \/ c = "]"%char \/ c = "}"%char \/ c = ":"%char ->
  skip_ws (String c s) = String c s.
Proof. by intros [->|[->|[->| ->]]]. Qed.

Lemma starts_value_skip (t rest : string) :
  starts_value t ->
  exists c t', t = String c t' /\
    skip_ws (t +:+ rest) = String c (t' +:+ rest) /\
    c <> "]"%char /\ c <> "}"%char.
Proof.
  destruct t as [|c t']; [done|]. intros (Hws & H1 & H2 & _).
  exists c, t'. split; [done|]. rewrite string_app_cons. simpl.
  by rewrite Hws.
Qed.

Lemma stringify_starts (v : value) (t : string) :
  stringify v = Some t -> starts_value t.
Proof.
  destruct v as [| | |[]|z|s|l|l]; try discriminate; intros [= <-];
    try (by repeat split).
  destruct (print_Z_first z) as (c & t & -> & Hc). simpl.
  destruct c as [[] [] [] [] [] [] [] []];
    (destruct Hc as [Hc|[D Hc]]; try discriminate Hc); by repeat split.
Qed.

Lemma stringify_length (v : value) (t : string) :
  stringify v = Some t -> (1 <= String.length t)%nat.
Proof.
  intros H%stringify_starts. destruct t; [done|]. simpl. lia.
Qed.

Lemma stringify_None (v : value) :
  stringify v = None -> v = Undefined \/ v = Fun.
Proof. destruct v as [| | |[]| | | |]; try discriminate; auto. Qed.

(** The text of an array element, and what it parses to. *)
Lemma element_cases (v : value) :
  (stringify v = None /\ default "null" (stringify v) = "null" /\
   defined_element v = Null) \/
  (exists t, stringify v = Some t /\ default "null" (stringify v) = t /\
             defined_element v = defined v).
Proof.
  destruct (stringify v) as [t|] eqn:Hv.
  - right. exists t. repeat split. destruct v; try done.
  - left. by destruct (stringify_None v Hv) as [-> | ->].
Qed.


Lemma round_trips_element (v : value) :
  round_trips v ->
  forall fuel rest,
    (2 * String.length (default "null" (stringify v)) <= fuel)%nat ->
    good_rest rest ->
    parse_value fuel (default "null" (stringify v) +:+ rest)
    = Some (defined_element v, rest).
Proof.
  intros IH fuel rest Hfuel Hrest.
  destruct (element_cases v) as [(_ & Ht & ->)|(t & Hv & Ht & ->)];
    rewrite Ht in *.
  - destruct fuel as [|fuel]; [simpl in Hfuel; lia|]. reflexivity.
  - by apply IH.
Qed.

Lemma parse_elements_join (l : list value) :
  l <> [] -> Forall round_trips l ->
  forall fuel rest,
    (2 * String.length (join "," (elements l)) + 1 <= fuel)%nat ->
    good_rest rest ->
    parse_elements fuel (join "," (elements l) +:+ String "]" rest)
    = Some (map defined_element l, rest).
Proof.
  induction l as [|v l IHl]; [done|]. intros _ Hall fuel rest Hfuel Hrest.
  apply Forall_cons in Hall as [Hv Hall].
  destruct fuel as [|fuel]; [lia|].
  set (t := default "null" (stringify v)).
  destruct l as [|v' l].
  - (* the last element *)
    change (join "," (elements [v])) with t in *.
    pose proof (round_trips_element v Hv fuel (String "]" rest)) as Hparse.
    fold t in Hparse. specialize (Hparse ltac:(lia) ltac:(simpl; auto)).
    cbn [parse_elements]. rewrite Hparse. reflexivity.
  - change (join "," (elements (v :: v' :: l)))
      with (t +:+ "," +:+ join "," (elements (v' :: l))) in *.
    rewrite !string_length_app in Hfuel.
    change (String.length ",") with 1%nat in Hfuel.
    rewrite !string_app_assoc.
    pose proof (round_trips_element v Hv fuel
                  ("," +:+ join "," (elements (v' :: l)) +:+ String "]" rest))
      as Hparse.
    fold t in Hparse. specialize (Hparse ltac:(lia) ltac:(simpl; auto)).
    cbn [parse_elements]. rewrite Hparse.
    rewrite string_app_cons, skip_ws_sep by auto. cbn iota.
    change ("" +:+ join "," (elements (v' :: l)) +:+ String "]" rest)
      with (join "," (elements (v' :: l)) +:+ String "]" rest).
    rewrite IHl; [done|done|done|lia|done].
Qed.

Lemma members_defined (l : list (string * value)) :
  members l = [] -> defined_members l = [].
Proof.
  induction l as [|[k v] l IH]; [done|]. simpl.
  destruct (stringify v) as [t|] eqn:Hv; [done|].
  by destruct (stringify_None v Hv) as [-> | ->].
Qed.

Lemma parse_members_join (l : list (string * value)) :
  Forall (fun kv => round_trips kv.2) l -> members l <> [] ->
  forall fuel rest,
    (2 * String.length (join "," (members l)) + 1 <= fuel)%nat ->
    good_rest rest ->
    parse_members fuel (join "," (members l) +:+ String "}" rest)
    = Some (defined_members l, rest).
Proof.
  induction l as [|[k v] l IHl]; [done|]. intros Hall Hne fuel rest Hfuel Hrest.
  apply Forall_cons in Hall as [Hv Hall]. simpl in Hv.
  cbn [members] in *.
  destruct (stringify v) as [t|] eqn:Hst.
  2:{ destruct (stringify_None v Hst) as [-> | ->]; by apply IHl. }
  assert (Hdef : defined_members ((k, v) :: l)
                 = (k, defined v) :: defined_members l).
  { destruct v; try done. }
  rewrite Hdef. clear Hdef.
  destruct fuel as [|fuel]; [lia|].
  assert (Hkey : forall R,
            parse_members (S fuel) ((quote k +:+ ":" +:+ t) +:+ R)
            = match parse_value fuel (t +:+ R) with
              | Some (v, rest) =>
                  match skip_ws rest with
                  | String "," rest' =>
                      match parse_members fuel rest' with
                      | Some (l, rest2) => Some ((k, v) :: l, rest2)
                      | None => None
                      end
                  | String "}" rest' => Some ([(k, v)], rest')
                  | _ => None
                  end
              | None => None
              end).
  { intros R. rewrite !string_app_assoc.
    destruct (parse_chars_quote k (":" +:+ t +:+ R)) as (q & -> & Hq).
    cbn [parse_members skip_ws]. 
    change (is_ws dquote) with false. cbn iota.
    rewrite decide_True by done. rewrite Hq. reflexivity. }
  destruct (members l) as [|m ms] eqn:Hms.
  - change (join "," [quote k +:+ ":" +:+ t]) with (quote k +:+ ":" +:+ t) in *.
    rewrite !string_length_app in Hfuel.
    rewrite Hkey, (Hv t Hst fuel (String "}" rest)); [|lia|simpl; auto].
    rewrite (members_defined l Hms). reflexivity.
  - change (join "," ((quote k +:+ ":" +:+ t) :: m :: ms))
      with ((quote k +:+ ":" +:+ t) +:+ "," +:+ join "," (m :: ms)) in *.
    rewrite !string_length_app in Hfuel.
    change (String.length ",") with 1%nat in Hfuel.
    rewrite (string_app_assoc (quote k +:+ ":" +:+ t)).
    rewrite Hkey, (Hv t Hst fuel); [|lia|simpl; auto].
    rewrite string_app_assoc, string_app_cons, skip_ws_sep by auto.
    cbn iota.
    change ("" +:+ join "," (m :: ms) +:+ String "}" rest)
      with (join "," (m :: ms) +:+ String "}" rest).
    rewrite IHl; [done|done|done|lia|done].
Qed.

Lemma parse_value_bracket (s : string) (fuel : nat) :
  parse_value (S fuel) (String "[" s)
  = match skip_ws s with
    | String "]" rest' => Some (Arr [], rest')
    | _ =>
        match parse_elements fuel s with
        | Some (l, rest') => Some (Arr l, rest')
        | None => None
        end
    end.
Proof. reflexivity. Qed.

Lemma parse_value_brace (s : string) (fuel : nat) :
  parse_value (S fuel) (String "{" s)
  = match skip_ws s with
    | String "}" rest' => Some (Obj [], rest')
    | _ =>
        match parse_members fuel s with
        | Some (l, rest') => Some (Obj l, rest')
        | None => None
        end
    end.
Proof. reflexivity. Qed.

Lemma element_starts (v : value) :
  starts_value (default "null" (stringify v)).
Proof.
  destruct (element_cases v) as [(_ & -> & _)|(t & Hv & -> & _)].
  - by repeat split.
  - by eapply stringify_starts.
Qed.

Lemma join_starts (t : string) (ts : list string) :
  starts_value t -> starts_value (join "," (t :: ts)).
Proof.
  destruct t as [|c t]; [done|]. intros H. by destruct ts.
Qed.

Lemma members_starts (l : list (string * value)) (m : string)
    (ms : list string) :
  members l = m :: ms -> starts_value m.
Proof.
  induction l as [|[k v] l IH]; [done|]. simpl.
  destruct (stringify v); [|done]. intros [= <- _]. by repeat split.
Qed.

Lemma match_not_close {T : Type} (close c : ascii) (s : string)
    (A : string -> T) (B : T) :
  c <> close ->
  (if decide (c = close) then A s else B) = B.
Proof. intros H. by rewrite decide_False. Qed.

Lemma skip_then_elements (c : ascii) (s : string) (fuel : nat) :
  c <> "]"%char ->
  match String c s with
  | String "]" rest' => Some (Arr [], rest')
  | _ =>
      match parse_elements fuel (String c s) with
      | Some (l, rest') => Some (Arr l, rest')
      | None => None
      end
  end
  = match parse_elements fuel (String c s) with
    | Some (l, rest') => Some (Arr l, rest')
    | None => None
    end.
Proof.
  intros Hc. destruct c as [[] [] [] [] [] [] [] []]; try reflexivity.
  by destruct Hc.
Qed.

Lemma skip_then_members (c : ascii) (s : string) (fuel : nat) :
  c <> "}"%char ->
  match String c s with
  | String "}" rest' => Some (Obj [], rest')
  | _ =>
      match parse_members fuel (String c s) with
      | Some (l, rest') => Some (Obj l, rest')
      | None => None
      end
  end
  = match parse_members fuel (String c s) with
    | Some (l, rest') => Some (Obj l, rest')
    | None => None
    end.
Proof.
  intros Hc. destruct c as [[] [] [] [] [] [] [] []]; try reflexivity.
  by destruct Hc.
Qed.

(** Every value round-trips. *)
Lemma parse_value_stringify (v : value) : round_trips v.
Proof.
  induction v as [| | |b|z|s|l IH|l IH] using value_ind';
    intros t Ht fuel rest Hfuel Hrest; try discriminate.
  - injection Ht as <-. destruct fuel as [|fuel]; [simpl in Hfuel; lia|].
    reflexivity.
  - destruct fuel as [|fuel];
      [apply stringify_length in Ht; lia|].
    destruct b; injection Ht as <-; reflexivity.
  - destruct fuel as [|fuel];
      [apply stringify_length in Ht; lia|].
    injection Ht as <-. by apply parse_value_number.
  - destruct fuel as [|fuel];
      [apply stringify_length in Ht; lia|].
    injection Ht as <-. apply parse_value_string.
  - rewrite stringify_Arr in Ht. injection Ht as <-.
    rewrite defined_Arr.
    rewrite !string_length_app in Hfuel.
    change (String.length "[") with 1%nat in Hfuel.
    change (String.length "]") with 1%nat in Hfuel.
    destruct fuel as [|fuel]; [lia|].
    rewrite !string_app_assoc, string_app_cons, parse_value_bracket.
    change ("" +:+ join "," (elements l) +:+ "]" +:+ rest)
      with (join "," (elements l) +:+ String "]" rest).
    destruct l as [|v l]; [reflexivity|].
    destruct (starts_value_skip (join "," (elements (v :: l)))
                                (String "]" rest))
      as (c & t' & Hj & Hskip & Hc1 & Hc2).
    { apply join_starts, element_starts. }
    rewrite Hskip.
    assert (Htext : join "," (elements (v :: l)) +:+ String "]" rest
                    = String c (t' +:+ String "]" rest)).
    { by rewrite Hj. }
    rewrite Htext, skip_then_elements by done. rewrite <- Htext.
    rewrite parse_elements_join; [done|done|done|lia|done].
  - rewrite stringify_Obj in Ht. injection Ht as <-.
    rewrite defined_Obj.
    rewrite !string_length_app in Hfuel.
    change (String.length "{") with 1%nat in Hfuel.
    change (String.length "}") with 1%nat in Hfuel.
    destruct fuel as [|fuel]; [lia|].
    rewrite !string_app_assoc, string_app_cons, parse_value_brace.
    change ("" +:+ join "," (members l) +:+ "}" +:+ rest)
      with (join "," (members l) +:+ String "}" rest).
    destruct (members l) as [|m ms] eqn:Hms.
    { rewrite (members_defined l Hms). reflexivity. }
    destruct (starts_value_skip (join "," (m :: ms)) (String "}" rest))
      as (c & t' & Hj & Hskip & Hc1 & Hc2).
    { eapply join_starts, members_starts, Hms. }
    rewrite Hskip.
    assert (Htext : join "," (m :: ms) +:+ String "}" rest
                    = String c (t' +:+ String "}" rest)).
    { by rewrite Hj. }
    rewrite Htext, skip_then_members by done. rewrite <- Htext, <- Hms.
    rewrite parse_members_join;
      [done|done|by rewrite Hms|rewrite Hms; lia|done].
Qed.

(** [JSON.parse(JSON.stringify(v))] is what is defined of [v]. *)
Lemma parse_stringify (v : value) (t : string) :
  stringify v = Some t -> parse t = Some (defined v).
Proof.
  intros Ht. unfold parse.
  pose proof (parse_value_stringify v t Ht (2 * String.length t)%nat "") as H.
  rewrite string_app_nil_r in H. rewrite H; [|lia|done].
  by rewrite decide_True.
Qed.

End JSONFacts.

(* ===================================================================== *)
(** * Persistence: [storage] round-trips records *)
(* ===================================================================== *)

Section Persistence.

Import JSON.

Lemma or_str_nonempty (t d : string) : t <> "" -> or_str (Some t) d = t.
Proof. intros H. unfold or_str, truthy. by rewrite decide_False. Qed.

Lemma stringify_Obj_Some (l : list (string * value)) :
  exists t, stringify (Obj l) = Some t /\ t <> "".
Proof.
  eexists. split; [apply stringify_Obj|]. discriminate.
Qed.

Lemma storage_get_set_eq key l ls :
  storage.get key (storage.set key (Obj l) ls) = Some (defined (Obj l)).
Proof.
  destruct (stringify_Obj_Some l) as (t & Ht & Hne).
  unfold storage.get, storage.set. rewrite Ht, lookup_insert_eq.
  change (default "undefined" (Some t)) with t.
  rewrite or_str_nonempty by done. by apply parse_stringify.
Qed.

Lemma storage_get_set_ne key key' data ls :
  key <> key' ->
  storage.get key' (storage.set key data ls) = storage.get key' ls.
Proof.
  intros Hne. unfold storage.get, storage.set. by rewrite lookup_insert_ne.
Qed.

Lemma mapM_as_string (l : list string) :
  mapM as_string (map Str l) = Some l.
Proof.
  induction l as [|s l IH]; [done|]. simpl. rewrite IH. done.
Qed.

(** Every record is what its object reads as after a round trip. *)
Lemma MsgStore_of_object (r : MsgStore.t) :
  MsgStore_of (defined (MsgStore_object r)) = r.
Proof.
  destruct r as [weight content messages select meta role id task].
  assert (Hms : forall l, as_strings (defined (Arr (map Str l))) = Some l).
  { intros l. rewrite defined_Arr. unfold as_strings.
    assert (map defined_element (map Str l) = map Str l) as ->.
    { induction l as [|s l IH]; [done|]. simpl. by rewrite IH. }
    apply mapM_as_string. }
  destruct weight, content, select as [[]|], meta as [[[] []]|],
    role as [[]|], id, task;
    (destruct messages as [l|];
     [specialize (Hms l); vm_compute in Hms; vm_compute; by rewrite Hms
     |vm_compute; reflexivity]).
Qed.

(** [storage<MsgStore>] and the record view of it. *)
Lemma represents_get ls rs key :
  represents ls rs ->
  exists o, storage.get key ls = Some o /\
            MsgStore_of o = storage_get key rs.
Proof.
  intros H. specialize (H key). unfold storage.get, storage_get.
  destruct (ls !! key) as [t|].
  - destruct H as (Hne & o & Ho & ->). exists o. split; [|done].
    by rewrite or_str_nonempty.
  - rewrite H. exists (Obj []). split; reflexivity.
Qed.

Lemma represents_set ls rs key l r :
  represents ls rs ->
  MsgStore_of (defined (Obj l)) = r ->
  represents (storage.set key (Obj l) ls) (storage_set key r rs).
Proof.
  intros H Hr k. unfold storage.set, storage_set.
  destruct (decide (key = k)) as [->|Hne].
  - destruct (stringify_Obj_Some l) as (t & Ht & Hne).
    rewrite Ht, !lookup_insert_eq.
    change (default "undefined" (Some t)) with t. split; [done|].
    exists (defined (Obj l)). split; [by apply parse_stringify|by rewrite Hr].
  - rewrite !lookup_insert_ne by done. apply H.
Qed.

Lemma represents_del ls rs key :
  represents ls rs -> represents (storage.del key ls) (storage_del key rs).
Proof.
  intros H k. unfold storage.del, storage_del.
  destruct (decide (key = k)) as [->|Hne].
  - by rewrite !lookup_delete_eq.
  - rewrite !lookup_delete_ne by done. apply H.
Qed.

End Persistence.

(** C10.  For every key and every object [data] (a JavaScript value whose
    numbers are integers): [set(data)] followed by [get()] parses, and
    gives [data] restricted to what is defined of it, that is without the
    properties whose value is [undefined] or a function, at every depth
    ([undefined] in an array reads as [null]); the record of every other
    key reads as before. *)
Theorem storage_set_get
    (key : string) (data : list (string * JSON.value)) (ls : DOMStorage) :
  storage.get key (storage.set key (JSON.Obj data) ls)
    = Some (JSON.defined (JSON.Obj data)) /\
  forall key', key' <> key ->
    storage.get key' (storage.set key (JSON.Obj data) ls)
    = storage.get key' ls.
Proof.
  split; [apply storage_get_set_eq|].
  intros key' Hne. by apply storage_get_set_ne.
Qed.


(* ===================================================================== *)
(** * Cascading delete ([recDel]) *)
(* ===================================================================== *)

Section RecDel.

Implicit Types (w : World) (ls : Records) (x y z : string).

Lemma same_tasks_refl w : same_tasks w w.
Proof. by repeat split. Qed.

Lemma same_tasks_trans w1 w2 w3 :
  same_tasks w1 w2 -> same_tasks w2 w3 -> same_tasks w1 w3.
Proof.
  intros (?&?&?&?&?&?) (?&?&?&?&?&?).
  repeat split; try congruence. by etrans.
Qed.

Lemma aborted_mono x w w' : same_tasks w w' -> aborted x w -> aborted x w'.
Proof.
  intros (_&Hatom&_&_&_&Hcalls) Hab t Ht.
  unfold find_task in Ht. rewrite Hatom in Ht.
  destruct Hcalls as [k ->]. apply elem_of_app. left. by apply Hab.
Qed.

Lemma children_lookup ls x r :
  ls !! x = Some r -> children ls x = default [] (MsgStore.messages r).
Proof. intros H. unfold children, storage_get. by rewrite H. Qed.

Lemma children_absent ls x : ls !! x = None -> children ls x = [].
Proof. intros H. unfold children, storage_get. by rewrite H. Qed.

Lemma children_weaken ls ls' x :
  ls' ⊆ ls -> is_Some (ls' !! x) -> children ls' x = children ls x.
Proof.
  intros Hsub [r Hr].
  rewrite (children_lookup _ _ _ Hr).
  by rewrite (children_lookup _ _ _ (lookup_weaken _ _ _ _ Hr Hsub)).
Qed.

Lemma closed_removal_trans w1 w2 w3 :
  closed_removal w1 w2 -> closed_removal w2 w3 -> closed_removal w1 w3.
Proof.
  intros (Hsub1 & Hst1 & Hcl1) (Hsub2 & Hst2 & Hcl2).
  split; [by etrans|]. split; [by eapply same_tasks_trans|].
  intros y Hy Hy3 z Hz.
  destruct (localStorage w2 !! y) as [r|] eqn:Hy2.
  - apply (Hcl2 y); [by eexists|done|].
    rewrite (children_weaken _ _ _ Hsub1); [done|by eexists].
  - destruct (Hcl1 y Hy Hy2 z Hz) as [Hz2 Hab].
    split; [by eapply lookup_weaken_None|by eapply aborted_mono].
Qed.

Lemma for_of_recDel fuel :
  (forall x w, (size (localStorage w) < fuel)%nat ->
     exists w', recDel fuel x w = Some w' /\ closed_removal w w' /\
                localStorage w' !! x = None /\ aborted x w') ->
  forall l w, (size (localStorage w) < fuel)%nat ->
    exists w', for_of (recDel fuel) l w = Some w' /\ closed_removal w w' /\
               forall x, x ∈ l -> localStorage w' !! x = None /\ aborted x w'.
Proof.
  intros IH l. induction l as [|x l IHl]; intros w Hsize; simpl.
  - exists w. split; [done|]. split.
    + split; [done|]. split; [apply same_tasks_refl|].
      intros y [r Hr] Hn. congruence.
    + intros x Hx. by apply elem_of_nil in Hx.
  - destruct (IH x w Hsize) as (w1 & -> & Hcl1 & Hx1 & Hab1).
    destruct (IHl w1) as (w2 & Hrun & Hcl2 & Hall).
    { destruct Hcl1 as (Hsub & _). apply map_subseteq_size in Hsub. lia. }
    exists w2. split; [done|]. split; [by eapply closed_removal_trans|].
    intros x' [->|Hx']%elem_of_cons; [|by apply Hall].
    destruct Hcl2 as (Hsub2 & Hst2 & _).
    split; [by eapply lookup_weaken_None|by eapply aborted_mono].
Qed.

Lemma recDel_step_tasks x w :
  let w1 := set_localStorage (storage_del x) w in
  let w2 := match find_task x w1 with
            | Some task => task_abort task w1
            | None => w1
            end in
  localStorage w2 = delete x (localStorage w) /\ same_tasks w w2 /\
  aborted x w2.
Proof.
  simpl. destruct (find_task x (set_localStorage (storage_del x) w))
    as [t|] eqn:Ht; simpl.
  - split; [done|]. split.
    + repeat split; try done. by apply prefix_app_r.
    + intros t' Ht'. unfold find_task in *. simpl in *.
      rewrite Ht in Ht'. injection Ht' as <-.
      apply elem_of_app. right. by apply list_elem_of_singleton.
  - split; [done|]. split; [by repeat split|].
    intros t' Ht'. unfold find_task in *. simpl in *. congruence.
Qed.

(** [recDel] returns when its fuel exceeds the number of stored records,
    and what it leaves is a [closed_removal] without [x]. *)
Lemma recDel_terminates fuel :
  forall x w, (size (localStorage w) < fuel)%nat ->
    exists w', recDel fuel x w = Some w' /\ closed_removal w w' /\
               localStorage w' !! x = None /\ aborted x w'.
Proof.
  induction fuel as [|fuel IH]; intros x w Hsize; [lia|].
  simpl.
  destruct (recDel_step_tasks x w) as (Hls & Hst & Hab).
  set (w2 := match find_task x (set_localStorage (storage_del x) w) with
             | Some task => task_abort task (set_localStorage (storage_del x) w)
             | None => set_localStorage (storage_del x) w
             end) in *.
  assert (Hx2 : localStorage w2 !! x = None).
  { rewrite Hls. apply lookup_delete_eq. }
  destruct (MsgStore.messages (storage_get x (localStorage w)))
    as [ms|] eqn:Hms.
  - (* the record has children: it was stored *)
    assert (Hx : is_Some (localStorage w !! x)).
    { unfold storage_get in Hms.
      destruct (localStorage w !! x); [by eexists|done]. }
    destruct (for_of_recDel fuel IH ms w2) as (w3 & -> & Hcl & Hall).
    { rewrite Hls, map_size_delete_Some by done.
      destruct Hx as [r Hr].
      assert (size (localStorage w) <> 0%nat).
      { apply map_size_non_empty_iff. intros He. rewrite He in Hr.
        by rewrite lookup_empty in Hr. }
      lia. }
    exists w3. split; [done|].
    destruct Hcl as (Hsub & Hst3 & Hcl).
    assert (Hsub' : localStorage w3 ⊆ localStorage w).
    { etrans; [exact Hsub|]. rewrite Hls. apply delete_subseteq. }
    assert (Hx3 : localStorage w3 !! x = None).
    { eapply lookup_weaken_None; [|exact Hsub].
      rewrite Hls. apply lookup_delete_eq. }
    split; [|split; [done|by eapply aborted_mono]].
    split; [done|]. split; [by eapply same_tasks_trans|].
    intros y Hy Hy3 z Hz.
    destruct (decide (y = x)) as [->|Hne].
    + apply Hall. unfold children in Hz. by rewrite Hms in Hz.
    + apply (Hcl y); [|done|].
      * by rewrite Hls, lookup_delete_ne.
      * rewrite Hls. unfold children, storage_get.
        by rewrite lookup_delete_ne.
  - exists w2. split; [done|]. split; [|by split].
    split; [rewrite Hls; apply delete_subseteq|]. split; [done|].
    intros y [r Hr] Hy z Hz.
    destruct (decide (y = x)) as [->|Hne].
    + unfold children in Hz. rewrite Hms in Hz. by apply elem_of_nil in Hz.
    + rewrite Hls, lookup_delete_ne in Hy by done. congruence.
Qed.

End RecDel.

Section Delete.

Implicit Types (w : World) (ls : Records) (x y z : string).

(** Everything reachable from a removed node is removed and aborted. *)
Lemma closed_removal_reachable w w' a x :
  closed_removal w w' ->
  localStorage w' !! a = None -> aborted a w' ->
  reachable (localStorage w) a x ->
  localStorage w' !! x = None /\ aborted x w'.
Proof.
  intros Hcl Ha Hab Hreach. revert Ha Hab.
  induction Hreach as [a|a y z Hy _ IH]; intros Ha Hab; [done|].
  destruct Hcl as (Hsub & Hst & Hclosed).
  destruct (localStorage w !! a) as [r|] eqn:Hr.
  - destruct (Hclosed a (mk_is_Some _ _ Hr) Ha y Hy) as [Hy' Haby].
    by apply IH.
  - rewrite (children_absent _ _ Hr) in Hy. by apply elem_of_nil in Hy.
Qed.

(** The record [handleItemDelete] writes for the parent unlinks [msgId]
    only: what was reachable from [msgId] stays reachable from it. *)
Lemma reachable_unlink ls id msgId r' a x :
  children (<[id := r']> ls) id
    = List.filter (fun _id => negb (bool_decide (_id = msgId))) (children ls id) ->
  reachable ls a x ->
  reachable (<[id := r']> ls) a x \/ reachable (<[id := r']> ls) msgId x.
Proof.
  intros Hch Hreach.
  induction Hreach as [a|a y z Hy _ [IH|IH]]; [left; constructor| |by right].
  destruct (decide (y = msgId)) as [->|Hne]; [by right|].
  left. apply reachable_step with y; [|done].
  destruct (decide (a = id)) as [->|Ha].
  - rewrite Hch. apply list_elem_of_In, filter_In. split.
    + by apply list_elem_of_In.
    + by rewrite bool_decide_eq_false_2.
  - unfold children, storage_get. by rewrite lookup_insert_ne.
Qed.

Lemma find_task_unique w t :
  NoDup (task_ids w) -> t ∈ atom w ->
  find_task (CompletionTask.id t) w = Some t.
Proof.
  unfold task_ids, find_task. induction (atom w) as [|t' l IH]; simpl.
  - intros _ H. by apply elem_of_nil in H.
  - intros Hnd Hin. apply NoDup_cons in Hnd as [Hnotin Hnd].
    case_bool_decide as Hid.
    + apply elem_of_cons in Hin as [->|Hin]; [done|].
      exfalso. apply Hnotin. rewrite Hid.
      apply list_elem_of_fmap. by exists t.
    + apply elem_of_cons in Hin as [->|Hin]; [done|]. by apply IH.
Qed.

End Delete.

(** C1.  Deleting [msgId] under a mounted parent returns, and for every
    node [x] that is [msgId] or a descendant of it through the children
    chains: the record of [x] is gone from storage (reading it gives the
    empty record [{}]); [abort()] was called on the task the registry finds
    for [x]; and, when the registry holds at most one task per id, on every
    registered task whose id is [x].  The registry itself is unchanged
    (tasks leave it when they settle). *)
Theorem handleItemDelete_cascade
    (id : string) (initialContent : list ChatMessage) (msgId x : string)
    (w : World) :
  reachable (localStorage w) msgId x ->
  exists w',
    handleItemDelete (mount id initialContent w) msgId w = Some w' /\
    localStorage w' !! x = None /\
    storage_get x (localStorage w') = MsgStore.empty /\
    atom w' = atom w /\
    (forall t, find_task x w = Some t ->
               CallAbort (CompletionTask.abort t) ∈ calls w') /\
    (NoDup (task_ids w) ->
     forall t, t ∈ atom w -> CompletionTask.id t = x ->
               CallAbort (CompletionTask.abort t) ∈ calls w').
Proof.
  intros Hreach. unfold handleItemDelete.
  set (m := mount id initialContent w).
  set (r' := MsgStore.with_messages _ _).
  set (w1 := set_localStorage (storage_set id r') w).
  destruct (recDel_terminates (S (size (localStorage w1))) msgId w1)
    as (w' & Hrun & Hcl & Hgone & Hab); [lia|].
  exists w'. split; [done|].
  assert (Hreach1 : reachable (localStorage w1) msgId x).
  { destruct (reachable_unlink (localStorage w) id msgId r' msgId x);
      [|done|done|done].
    unfold children at 1, storage_get. rewrite lookup_insert_eq. done. }
  destruct (closed_removal_reachable w1 w' msgId x Hcl Hgone Hab Hreach1)
    as [Hx Habx].
  destruct Hcl as (_ & (_ & Hatom & _) & _).
  assert (Hfind : forall t, find_task x w = Some t ->
                            CallAbort (CompletionTask.abort t) ∈ calls w').
  { intros t Ht. apply Habx. unfold find_task in *. by rewrite Hatom. }
  split; [done|]. split; [unfold storage_get; by rewrite Hx|].
  split; [done|]. split; [done|].
  intros Hnd t Ht <-. apply Hfind. by apply find_task_unique.
Qed.

Lemma handleItemDelete_cascade_witness :
  exists w',
    handleItemDelete (mount "#0000" [] example_world) "#aaaa" example_world
      = Some w' /\
    storage_get "#bbbb" (localStorage w') = MsgStore.empty /\
    forall t, t ∈ atom example_world -> CompletionTask.id t = "#bbbb" ->
              CallAbort (CompletionTask.abort t) ∈ calls w'.
Proof.
  destruct (handleItemDelete_cascade "#0000" [] "#aaaa" "#bbbb" example_world)
    as (w' & Hrun & _ & Hget & _ & _ & Hab).
  - apply reachable_step with "#bbbb"; [|apply reachable_refl].
    vm_compute. apply list_elem_of_here.
  - exists w'. split; [done|]. split; [done|]. apply Hab.
    vm_compute. apply NoDup_cons. split; [|apply NoDup_nil_2].
    intros H. by apply elem_of_nil in H.
Defined.

Section DeleteFrame.

Implicit Types (w : World) (ls : Records) (x y z : string).

Lemma reachable_mono ls ls' a x :
  ls' ⊆ ls -> reachable ls' a x -> reachable ls a x.
Proof.
  intros Hsub Hreach. induction Hreach as [a|a y z Hy _ IH]; [constructor|].
  apply reachable_step with y; [|done].
  destruct (ls' !! a) as [r|] eqn:Hr.
  - rewrite <- (children_weaken ls ls' a); [done|done|by eexists].
  - rewrite (children_absent _ _ Hr) in Hy. by apply elem_of_nil in Hy.
Qed.

Lemma removes_from_subseteq P w w' :
  removes_from P w w' -> localStorage w' ⊆ localStorage w.
Proof.
  intros H. apply map_subseteq_spec. intros y r Hy.
  destruct (H y) as [<-|[Hn _]]; congruence.
Qed.

Lemma for_of_recDel_frame fuel :
  (forall x w w', recDel fuel x w = Some w' ->
     removes_from (reachable (localStorage w) x) w w') ->
  forall l w w', for_of (recDel fuel) l w = Some w' ->
    removes_from (fun y => exists c, c ∈ l /\ reachable (localStorage w) c y)
                 w w'.
Proof.
  intros IH l. induction l as [|c l IHl]; intros w w' Hrun; simpl in Hrun.
  - injection Hrun as <-. intros y. by left.
  - destruct (recDel fuel c w) as [w1|] eqn:Hc; [|done].
    specialize (IH c w w1 Hc). specialize (IHl w1 w' Hrun).
    pose proof (removes_from_subseteq _ _ _ IH) as Hsub.
    intros y. destruct (IHl y) as [Heq|[Hn (c' & Hc' & Hreach)]].
    + destruct (IH y) as [Heq1|[Hn1 Hreach1]].
      * left. congruence.
      * right. split; [congruence|]. exists c. split; [left|done].
    + right. split; [done|]. exists c'. split; [by right|].
      by eapply reachable_mono.
Qed.

Lemma recDel_frame fuel :
  forall x w w', recDel fuel x w = Some w' ->
    removes_from (reachable (localStorage w) x) w w'.
Proof.
  induction fuel as [|fuel IH]; intros x w w' Hrun; [done|].
  simpl in Hrun.
  destruct (recDel_step_tasks x w) as (Hls & _ & _).
  set (w2 := match find_task x (set_localStorage (storage_del x) w) with
             | Some task => task_abort task (set_localStorage (storage_del x) w)
             | None => set_localStorage (storage_del x) w
             end) in *.
  destruct (MsgStore.messages (storage_get x (localStorage w)))
    as [ms|] eqn:Hms.
  - pose proof (for_of_recDel_frame fuel IH ms w2 w' Hrun) as Hloop.
    intros y. destruct (decide (y = x)) as [->|Hne].
    + right. split; [|constructor].
      destruct (Hloop x) as [->|[Hn _]]; [|done].
      rewrite Hls. apply lookup_delete_eq.
    + destruct (Hloop y) as [->|[Hn (c & Hc & Hreach)]].
      * left. by rewrite Hls, lookup_delete_ne.
      * right. split; [done|]. apply reachable_step with c.
        -- unfold children. by rewrite Hms.
        -- eapply reachable_mono; [|exact Hreach].
           rewrite Hls. apply delete_subseteq.
  - injection Hrun as <-. intros y. destruct (decide (y = x)) as [->|Hne].
    + right. split; [|constructor]. rewrite Hls. apply lookup_delete_eq.
    + left. by rewrite Hls, lookup_delete_ne.
Qed.

End DeleteFrame.

Section Reselect.

Implicit Types (w : World) (ls : Records) (l : list string).





End Reselect.



(* ===================================================================== *)
(** * Selection *)
(* ===================================================================== *)

Section Select.

Implicit Types (m : Message) (w : World).

Lemma select_ok_empty : select_ok MsgStore.empty.
Proof. exact I. Qed.

Lemma newSelected_ok m msgId :
  select_ok (parentMsg m) ->
  select_ok (MsgStore.with_messages (Some (newMsgs m msgId))
               (MsgStore.with_select (newSelected m msgId) (parentMsg m))).
Proof.
  intros Hok. unfold select_ok. simpl. unfold newSelected.
  assert (Hat : forall i s, truthy (at_index (newMsgs m msgId) i) = Some s ->
                            s ∈ newMsgs m msgId).
  { intros i s. unfold at_index. case_decide; [done|].
    destruct (newMsgs m msgId !! Z.to_nat i) as [s'|] eqn:Hs'; [|done].
    simpl. case_decide; [done|]. intros [= <-].
    by eapply list_elem_of_lookup_2. }
  case_decide as Hsel.
  - destruct (truthy (at_index _ (deletedChatIndex m msgId))) as [s|] eqn:H1.
    { by eapply Hat. }
    destruct (truthy (at_index _ 0)) as [s|] eqn:H2; [|done].
    by eapply Hat.
  - unfold select_ok in Hok.
    destruct (MsgStore.select (parentMsg m)) as [[|s]|]; [done| |done].
    unfold newMsgs. apply list_elem_of_In, filter_In.
    split; [by apply list_elem_of_In|].
    rewrite bool_decide_eq_false_2; [done|]. intros ->. by apply Hsel.
Qed.

End Select.

(** C4, the claim as stated fails: deselection ("New Chat") is
    [handleItemClick("")]; on the example it turns a [select] that names a
    child into the empty string, which is present, not [null], and no
    member of the children. *)
Lemma deselectMsg_select_not_member :
  select_ok (storage_get "#0000" (localStorage example_world)) /\
  MsgStore.select
    (storage_get "#0000"
       (localStorage (deselectMsg (mount "#0000" [] example_world)
                                  example_world)))
    = Some (notnull "") /\
  ~ select_ok
      (storage_get "#0000"
         (localStorage (deselectMsg (mount "#0000" [] example_world)
                                    example_world))).
Proof.
  split; [|split].
  - vm_compute. apply list_elem_of_here.
  - reflexivity.
  - vm_compute. intros H.
    apply elem_of_cons in H as [H|H]; [discriminate H|].
    by apply elem_of_nil in H.
Qed.

(** C4, amended.  For a rendered node whose [select] is absent, [null] or
    a member of its children, and a child [child] of it: after branch
    creation, after deletion of any [msgId] (which returns) and after
    selecting [child], the [select] of the node's stored record is again
    absent, [null] or a member of its children.  (Deselection is left
    out: it stores the empty string.) *)
Theorem mutations_keep_select_member
    (m : Message) (nanoid1 nanoid2 : string) (content : option string)
    (fillContent addAnswer : bool) (msgId child : string) (w : World) :
  select_ok (parentMsg m) ->
  child ∈ default [] (MsgStore.messages (parentMsg m)) ->
  select_ok
    (storage_get (id m)
       (localStorage
          (newBranch m nanoid1 nanoid2 content fillContent addAnswer w))) /\
  (exists w', handleItemDelete m msgId w = Some w' /\
              select_ok (storage_get (id m) (localStorage w'))) /\
  select_ok (storage_get (id m) (localStorage (handleItemClick m child w))).
Proof.
  intros Hok Hchild. split; [|split].
  - unfold newBranch.
    repeat match goal with
           | |- context [let '(_, _) := ?e in _] => destruct e
           end.
    simpl. unfold storage_get, storage_set. rewrite lookup_insert_eq.
    unfold select_ok. simpl. apply list_elem_of_here.
  - unfold handleItemDelete.
    set (r' := MsgStore.with_messages _ _).
    set (w1 := set_localStorage (storage_set (id m) r') w).
    destruct (recDel_terminates (S (size (localStorage w1))) msgId w1)
      as (w' & Hrun & _); [lia|].
    exists w'. split; [done|].
    unfold storage_get.
    destruct (recDel_frame _ _ _ _ Hrun (id m)) as [->|[-> _]].
    + simpl. unfold storage_set. rewrite lookup_insert_eq. simpl.
      by apply newSelected_ok.
    + apply select_ok_empty.
  - unfold handleItemClick, storage_get, storage_set. simpl.
    rewrite lookup_insert_eq. unfold select_ok. simpl. done.
Qed.

Lemma mutations_keep_select_member_witness :
  select_ok
    (storage_get "#0000"
       (localStorage
          (newBranch (mount "#0000" [] two_siblings_world) "dddd" "eeee"
                     (Some "three") false true two_siblings_world))) /\
  (exists w',
     handleItemDelete (mount "#0000" [] two_siblings_world) "#cccc"
                      two_siblings_world = Some w' /\
     select_ok (storage_get "#0000" (localStorage w'))) /\
  select_ok
    (storage_get "#0000"
       (localStorage
          (handleItemClick (mount "#0000" [] two_siblings_world) "#aaaa"
                           two_siblings_world))).
Proof.
  apply (mutations_keep_select_member
           (mount "#0000" [] two_siblings_world) "dddd" "eeee" (Some "three")
           false true "#cccc" "#aaaa" two_siblings_world).
  - vm_compute. apply list_elem_of_here.
  - vm_compute. apply list_elem_of_further, list_elem_of_here.
Defined.

(* ===================================================================== *)
(** * Editing the selected child *)
(* ===================================================================== *)

(** C9, the claim as stated fails, in two ways.  [editSelect] writes the
    record of the selected child as the render of the parent read it, so a
    field stored since that render is overwritten.  In the example the
    root was last rendered when the weight of [#aaaa] became 2, with
    [#cccc] selected at [#aaaa]; then [#bbbb] was selected in the component
    of [#aaaa], whose effect wrote nothing, so nothing asked for a render
    of the root.  A save in the component of the root now puts the
    selection of [#aaaa] back to [#cccc].  And what [editSelect] writes is
    [{ ...selectedMsg, content }], which carries the [task] of a child that
    is streaming: the record of [#bbbb] gets a [task] property next to the
    new content. *)
Lemma editSelect_reverts_select :
  MsgStore.weight (storage_get "#aaaa" (localStorage weighed_world))
    = Some 1 /\
  MsgStore.weight (storage_get "#aaaa" (localStorage rolled_world))
    = Some 2 /\
  (MsgStore.id <$> (data <$> selectedMsg root_before_click))
    = Some (Some "#aaaa") /\
  Some (weight (mount "#aaaa" (hi_path []) clicked_world))
    = MsgStore.weight (parentMsg (mount "#aaaa" (hi_path []) clicked_world)) /\
  MsgStore.select (storage_get "#aaaa" (localStorage clicked_world))
    = Some (notnull "#bbbb") /\
  MsgStore.select
    (storage_get "#aaaa"
       (localStorage (editSelect root_before_click "edited" clicked_world)))
    = Some (notnull "#cccc") /\
  MsgStore.task (storage_get "#bbbb" (localStorage example_world)) = None /\
  MsgStore.task
    (storage_get "#bbbb"
       (localStorage (editSelect (mount "#aaaa" (hi_path []) example_world)
                                 "edited" example_world)))
    = Some "#bbbb".
Proof.
  repeat (apply conj; [vm_compute; reflexivity|]). vm_compute. reflexivity.
Qed.

(** C9, amended.  Let [sel] be the selected child of a render [m] of the
    parent, whatever world the render was taken in.  [editSelect] starts no
    task: the registry, the promises, the requests sent, the result atoms
    and the calls made are unchanged.  It writes one record, under the id
    of [sel]: the record as the render read it, with the new [content], and
    with the id of the task the render found for the child as [task].  So
    the [messages] (children), [select], [weight], [meta], [role] and [id]
    stored are those of the render; every other record, the parent's among
    them, stays as it was.  When what the render read is what storage
    holds and the child had no task, the record differs from the stored one
    in [content] only. *)
Theorem editSelect_writes_selected
    (m : Message) (content : string) (sel : ChildMsg) (w : World) :
  selectedMsg m = Some sel ->
  let key := default "undefined" (MsgStore.id (data sel)) in
  let w' := editSelect m content w in
  let c' := storage_get key (localStorage w') in
  c' = MsgStore.with_content (Some content)
         (MsgStore.with_task (CompletionTask.id <$> task sel) (data sel)) /\
  MsgStore.content c' = Some content /\
  MsgStore.task c' = (CompletionTask.id <$> task sel) /\
  MsgStore.messages c' = MsgStore.messages (data sel) /\
  MsgStore.select c' = MsgStore.select (data sel) /\
  MsgStore.weight c' = MsgStore.weight (data sel) /\
  MsgStore.meta c' = MsgStore.meta (data sel) /\
  MsgStore.role c' = MsgStore.role (data sel) /\
  MsgStore.id c' = MsgStore.id (data sel) /\
  (data sel = storage_get key (localStorage w) ->
   task sel = None ->
   MsgStore.task (data sel) = None ->
   c' = MsgStore.with_content (Some content)
          (storage_get key (localStorage w))) /\
  (forall k, k <> key -> localStorage w' !! k = localStorage w !! k) /\
  (key <> id m ->
   storage_get (id m) (localStorage w') = storage_get (id m) (localStorage w)) /\
  atom w' = atom w /\ promises w' = promises w /\
  requests w' = requests w /\ results w' = results w /\ calls w' = calls w.
Proof.
  intros Hsel key w' c'.
  assert (Hc : c' = MsgStore.with_content (Some content)
                      (MsgStore.with_task (CompletionTask.id <$> task sel)
                                          (data sel))).
  { unfold c', w', editSelect. rewrite Hsel. fold key.
    cbn [localStorage set_localStorage].
    unfold storage_get, storage_set. by rewrite lookup_insert_eq. }
  split; [exact Hc|].
  rewrite Hc. cbn [MsgStore.with_content MsgStore.with_task MsgStore.content
                   MsgStore.task MsgStore.messages MsgStore.select
                   MsgStore.weight MsgStore.meta MsgStore.role MsgStore.id].
  do 8 (split; [reflexivity|]).
  split.
  { intros Hd Ht Htask. rewrite <- Hd, Ht. cbn [fmap option_fmap option_map].
    destruct (data sel). cbn in Htask. by rewrite Htask. }
  unfold w', editSelect. rewrite Hsel. fold key.
  cbn [localStorage set_localStorage atom promises requests results calls].
  split; [intros k Hk; unfold storage_set; by rewrite lookup_insert_ne|].
  split; [|done].
  intros Hk. unfold storage_get, storage_set. by rewrite lookup_insert_ne.
Qed.

Lemma editSelect_writes_selected_witness :
  let sel := {| data := storage_get "#aaaa" (localStorage rolled_world);
                task := None |} in
  let w' := editSelect root_before_click "edited" clicked_world in
  selectedMsg root_before_click = Some sel /\
  MsgStore.select (data sel) = Some (notnull "#cccc") /\
  storage_get (default "undefined" (MsgStore.id (data sel))) (localStorage w')
  = MsgStore.with_content (Some "edited")
      (MsgStore.with_task (CompletionTask.id <$> task sel) (data sel)) /\
  atom w' = atom clicked_world /\ requests w' = requests clicked_world.
Proof.
  assert (Hsel : selectedMsg root_before_click
                 = Some {| data := storage_get "#aaaa"
                                     (localStorage rolled_world);
                           task := None |}) by (vm_compute; reflexivity).
  destruct (editSelect_writes_selected root_before_click "edited" _
              clicked_world Hsel)
    as (H1 & _ & _ & _ & _ & _ & _ & _ & _ & _ & _ & _ & H3 & _ & H4 & _).
  cbv zeta. split; [exact Hsel|].
  split; [vm_compute; reflexivity|]. split; [exact H1|].
  split; [exact H3|exact H4].
Defined.

(* ===================================================================== *)
(** * The task registry *)
(* ===================================================================== *)

Section Registry.

Implicit Types (w : World) (props : newTaskProps).

Lemma newTask_atom props w :
  atom (newTask props w)
  = atom w ++ [CompletionTask.mk (nt_id props) (fresh_handle w) (fresh_handle w)].
Proof.
  unfold newTask, chatCompletion.
  destruct (truthy (nt_apiKey props)); reflexivity.
Qed.

Lemma fresh_handle_unused w : promises w !! fresh_handle w = None.
Proof.
  apply not_elem_of_dom. unfold fresh_handle. apply is_fresh.
Qed.

Lemma removeTask_ids id w : id ∉ task_ids (removeTask id w).
Proof.
  unfold task_ids, removeTask. simpl.
  intros (t & Hid & Hin%list_elem_of_In%filter_In)%list_elem_of_fmap.
  destruct Hin as [_ Hin]. by rewrite bool_decide_eq_true_2 in Hin.
Qed.

End Registry.

(** C3, the claim as stated fails: [newTask] has no check of the id.  A
    second call with the id of a registered task is not rejected; the
    registry then holds two tasks under that id. *)
Lemma newTask_twice_same_id :
  task_ids (newTask (example_props (Some "sk-key"))
              (newTask (example_props (Some "sk-key"))
                 (empty_world example_settings)))
  = ["#x"; "#x"].
Proof. reflexivity. Qed.

(** C3, amended.  [newTask] always appends a task under the id it is given,
    with a result atom of its own: an address no registered task has, when
    the registered ones were created by [newTask].  The registry holds at
    most one task per id after the call when it did before and the id was
    not registered. *)
Theorem newTask_unique_when_fresh (props : newTaskProps) (w : World) :
  NoDup (task_ids w) ->
  nt_id props ∉ task_ids w ->
  (forall t, t ∈ atom w -> is_Some (promises w !! CompletionTask.result t)) ->
  task_ids (newTask props w) = task_ids w ++ [nt_id props] /\
  NoDup (task_ids (newTask props w)) /\
  forall t, t ∈ atom w ->
            CompletionTask.result t <> fresh_handle w.
Proof.
  intros Hnd Hfresh Halloc.
  assert (Hids : task_ids (newTask props w) = task_ids w ++ [nt_id props]).
  { unfold task_ids. by rewrite newTask_atom, map_app. }
  split; [done|]. split.
  - rewrite Hids. apply NoDup_app. split; [done|]. split.
    + intros x Hx Hx'. apply list_elem_of_singleton in Hx'. by subst.
    + apply NoDup_singleton.
  - intros t Ht Heq. destruct (Halloc t Ht) as [p Hp].
    rewrite Heq, fresh_handle_unused in Hp. done.
Qed.

Lemma newTask_unique_when_fresh_witness :
  task_ids (newTask (example_props (Some "sk-key")) example_world)
    = ["#bbbb"; "#x"] /\
  NoDup (task_ids (newTask (example_props (Some "sk-key")) example_world)).
Proof.
  destruct (newTask_unique_when_fresh (example_props (Some "sk-key"))
              example_world) as (H1 & H2 & _).
  - vm_compute. apply NoDup_singleton.
  - vm_compute. intros H.
    apply elem_of_cons in H as [H|H]; [discriminate H|].
    by apply elem_of_nil in H.
  - intros t Ht. vm_compute in Ht.
    apply elem_of_cons in Ht as [->|Ht]; [|by apply elem_of_nil in Ht].
    assert (Hid : p_id <$> promises example_world !! 0%nat = Some "#bbbb")
      by (vm_compute; reflexivity).
    simpl. destruct (promises example_world !! 0%nat) as [p|];
      [by exists p|discriminate Hid].
  - split; [exact H1|exact H2].
Defined.

(** C8, the claim as stated fails: without an API key [newTask] still
    registers the task; it is found in the registry when [newTask] returns
    (and nothing was sent). *)
Lemma newTask_without_key_registers :
  find_task "#x" (newTask (example_props None) (empty_world example_settings))
    = Some (CompletionTask.mk "#x" 0 0) /\
  requests (newTask (example_props None) (empty_world example_settings)) = [].
Proof. split; reflexivity. Qed.

(** C8, amended.  Without an API key ([undefined] or empty) [newTask] sends
    no request: the promise is rejected with "API key is required" before
    anything is sent.  The task is registered all the same; the microtask
    of the rejected promise then calls [onError] with that error and
    removes the tasks of that id from the registry, and still no request
    was sent. *)
Theorem newTask_without_key (props : newTaskProps) (w : World) :
  truthy (nt_apiKey props) = None ->
  let h := fresh_handle w in
  let w1 := newTask props w in
  let w2 := step h Microtask w1 in
  requests w1 = requests w /\
  atom w1 = atom w ++ [CompletionTask.mk (nt_id props) h h] /\
  (p_phase <$> promises w1 !! h) = Some (Rejected ApiKeyRequired) /\
  requests w2 = requests w /\
  calls w2 = calls w ++ [CallOnError h ApiKeyRequired] /\
  localStorage w2
    = match nt_onError props with
      | Some onError => onError ApiKeyRequired (localStorage w)
      | None => localStorage w
      end /\
  (nt_id props ∉ task_ids w2).
Proof.
  intros Hkey. simpl.
  unfold newTask, chatCompletion. rewrite Hkey.
  unfold step. simpl. rewrite lookup_insert_eq. simpl.
  repeat split.
  - by destruct (nt_onError props).
  - by destruct (nt_onError props).
  - by destruct (nt_onError props).
  - match goal with |- _ ∉ task_ids (removeTask ?i ?w) =>
      apply (removeTask_ids i w) end.
Qed.

Lemma newTask_without_key_witness :
  requests (newTask (example_props (Some "")) example_world)
    = requests example_world /\
  "#x" ∉ task_ids (step 1 Microtask
                     (newTask (example_props (Some "")) example_world)).
Proof.
  destruct (newTask_without_key (example_props (Some "")) example_world)
    as (H1 & _ & _ & _ & _ & _ & H2).
  - reflexivity.
  - split; [exact H1|exact H2].
Defined.

(* ===================================================================== *)
(** * Streaming, settling and cancelling *)
(* ===================================================================== *)

Section Streaming.

Implicit Types (w : World) (p : Promise) (h : nat) (cs : list (option string)).

Lemma string_app_empty (s1 s2 : string) : s1 +:+ s2 = "" -> s1 = "" /\ s2 = "".
Proof. destruct s1; simpl; [done|discriminate]. Qed.

Lemma or_str_truthy (c : option string) :
  (truthy c = None /\ or_str c "" = "") \/
  (exists s, truthy c = Some s /\ or_str c "" = s /\ s <> "").
Proof.
  unfold or_str. destruct c as [s|]; simpl; [|by left].
  case_decide; [by left|]. right. by exists s.
Qed.

Lemma steps_cons h ev evs w :
  steps h (ev :: evs) w = steps h evs (step h ev w).
Proof. reflexivity. Qed.

Lemma steps_app h evs1 evs2 w :
  steps h (evs1 ++ evs2) w = steps h evs2 (steps h evs1 w).
Proof. apply foldl_app. Qed.

Lemma step_chunk_falsy w h c : truthy c = None -> step h (Chunk c) w = w.
Proof.
  intros Hc. unfold step. destruct (promises w !! h) as [p|]; [|done].
  destruct (p_phase p); try done. by rewrite Hc.
Qed.

Lemma step_chunk_truthy w h p acc c s :
  promises w !! h = Some p -> p_phase p = Streaming acc ->
  truthy c = Some s ->
  step h (Chunk c) w
  = call_opt (p_onText p) (acc +:+ s)
      (add_call (CallOnText h (acc +:+ s))
         (atom_set h (fun _ => acc +:+ s)
            (set_promise h (set_phase (Streaming (acc +:+ s)) p) w))).
Proof. intros Hp Hph Hc. unfold step. by rewrite Hp, Hph, Hc. Qed.

(** A run of chunks for a streaming promise whose [onText] overwrites the
    record of [msgId] with [g text].  With [text] what the chunks add up
    to: nothing changes when [text] is empty; otherwise the accumulated
    text grows by [text], the result atom holds it, [onText] was last
    called with it, and the record of [msgId] is [g] of it. *)
Lemma steps_chunks msgId (g : string -> MsgStore.t) cs :
  forall w h p acc,
    promises w !! h = Some p ->
    p_phase p = Streaming acc ->
    p_onText p = Some (fun text => storage_set msgId (g text)) ->
    let w' := steps h (map Chunk cs) w in
    let text := chunks_text cs in
    (text = "" /\ w' = w) \/
    (text <> "" /\
     promises w' = <[h := set_phase (Streaming (acc +:+ text)) p]> (promises w) /\
     results w' = <[h := acc +:+ text]> (results w) /\
     localStorage w' = <[msgId := g (acc +:+ text)]> (localStorage w) /\
     atom w' = atom w /\ requests w' = requests w /\ settings w' = settings w /\
     exists k, calls w' = calls w ++ k ++ [CallOnText h (acc +:+ text)] /\
               onText_calls h k).
Proof.
  induction cs as [|c cs IH]; intros w h p acc Hp Hph Hon; [by left|].
  cbn [map chunks_text]. rewrite steps_cons.
  destruct (or_str_truthy c) as [[Hc ->]|(s & Hc & -> & Hs)].
  - rewrite (step_chunk_falsy _ _ _ Hc). by apply IH.
  - rewrite (step_chunk_truthy _ _ _ _ _ _ Hp Hph Hc), Hon.
    set (w1 := call_opt _ _ _). right.
    split. { intros [? _]%string_app_empty. done. }
    destruct (IH w1 h (set_phase (Streaming (acc +:+ s)) p) (acc +:+ s))
      as [[Htext ->]|(Htext & Hpr & Hrs & Hls & Hat & Hrq & Hst & k & Hk & Hfa)].
    { apply lookup_insert_eq. }
    { done. }
    { done. }
    + rewrite Htext, string_app_nil_r.
      do 6 (split; [done|]). exists []. split; [done|]. constructor.
    + rewrite <- string_app_assoc.
      rewrite Hpr, Hrs, Hls, Hat, Hrq, Hst, Hk.
      unfold w1. cbn.
      unfold storage_set. rewrite !insert_insert_eq.
      do 6 (split; [done|]).
      exists (CallOnText h (acc +:+ s) :: k).
      split; [by rewrite <- !app_assoc|].
      constructor; [by eexists|done].
Qed.

(** What [newMessageCompletion] starts when the settings hold an API key:
    a streaming promise at the fresh address, with no [onDone], registered
    under [msgId], after one request. *)
Lemma newMessageCompletion_start msgId messages w :
  is_Some (truthy (SettingsStore.apiKey (settings w))) ->
  let h := fresh_handle w in
  let msg := MsgStore.with_meta
               (Some (Meta.mk (SettingsStore.model (settings w)) None))
               (storage_get msgId (localStorage w)) in
  let w1 := newMessageCompletion msgId messages w in
  exists p,
    promises w1 = <[h := p]> (promises w) /\
    p_id p = msgId /\ p_phase p = Streaming "" /\ p_onDone p = None /\
    p_onText p = Some (fun text =>
      storage_set msgId
        (MsgStore.with_content
           (Some (or_str (MsgStore.content msg) "" +:+ text +:+ " ")) msg)) /\
    localStorage w1 = <[msgId := msg]> (localStorage w) /\
    atom w1 = atom w ++ [CompletionTask.mk msgId h h] /\
    results w1 = <[h := ""]> (results w) /\
    calls w1 = calls w /\ settings w1 = settings w /\
    exists body, requests w1 = requests w ++ [(h, body)].
Proof.
  intros [k Hk]. simpl.
  unfold newMessageCompletion, newTask, chatCompletion. simpl. rewrite Hk.
  eexists. repeat split; try reflexivity. by eexists.
Qed.

End Streaming.

(** An event [chatCompletion] resolves on, and the state it leaves. *)
Lemma step_resolves (h : nat) (p : Promise) (acc text : string)
    (reaction : Event) (w : World) :
  promises w !! h = Some p ->
  p_phase p = Streaming acc ->
  resolves_with acc reaction = Some text ->
  step h reaction w = set_promise h (set_phase (Resolved text) p) w.
Proof.
  intros Hp Hph Hr. unfold step. rewrite Hp, Hph.
  destruct reaction as [c| |error|]; simpl in Hr; try discriminate Hr.
  - by inversion Hr.
  - destruct (decide (err_name error = "AbortError")); [|discriminate Hr].
    by inversion Hr.
Qed.

(** C5, the claim as stated fails at the lines it is about: where the
    aborted request raises an error named [AbortError], [chatCompletion]
    resolves with the empty string (lines 49-51), not with the text
    accumulated.  On the example the task had accumulated ["hel"], which its
    result atom held; after that cancellation the done path runs with [""]
    and the atom holds [""].  (Where the aborted stream just ends, line 47,
    the atom keeps ["hel"].) *)
Lemma abort_error_resets_result_atom :
  (p_phase <$> promises streamed_world !! 0%nat) = Some (Streaming "hel") /\
  results streamed_world !! 0%nat = Some "hel" /\
  (let w' := cancel (CompletionTask.mk "#bbbb" 0 0) (Throw AbortError)
               streamed_world in
   results w' !! 0%nat = Some "" /\
   calls w' = calls streamed_world ++ [CallAbort 0; CallOnDone 0 ""]) /\
  results (cancel (CompletionTask.mk "#bbbb" 0 0) End streamed_world)
    !! 0%nat = Some "hel".
Proof. repeat split; reflexivity. Qed.

Lemma cancel_eq (t : CompletionTask.t) (p : Promise) (acc text : string)
    (reaction : Event) (w : World) :
  promises w !! CompletionTask.abort t = Some p ->
  p_phase p = Streaming acc ->
  resolves_with acc reaction = Some text ->
  let h := CompletionTask.abort t in
  cancel t reaction w
  = removeTask (p_id p)
      (call_opt (p_onDone p) text
         (add_call (CallOnDone h text)
            (atom_set h (fun _ => text)
               (set_promise h (set_phase Settled p)
                  (set_promise h (set_phase (Resolved text) p)
                     (add_call (CallAbort h) w)))))).
Proof.
  intros Hp Hph Hr h. unfold cancel, task_abort. fold h. fold h in Hp.
  rewrite (step_resolves h p acc text reaction (add_call (CallAbort h) w))
    by done.
  unfold step. simpl. by rewrite lookup_insert_eq.
Qed.

(** C5, amended.  For every task [t] whose promise is streaming, with
    whatever text [acc] accumulated: [abort()] of [t], then either of the
    two events on which [chatCompletion] resolves, and the microtask of the
    promise, settle the promise through the done path.  When the aborted
    stream ends the text is [acc]; when the request raises an error named
    [AbortError] it is the empty string.  [onDone] is called with that text
    and [onError] is not called; the result atom holds that text; the tasks
    of that id leave the registry.  Storage changes by [onDone] only: for a
    task without [onDone], as [newMessageCompletion] starts them, every
    record is as it was, so the node keeps the content [onText] wrote and
    its [meta.error] stays unset. *)
Theorem cancel_settles_as_done
    (t : CompletionTask.t) (p : Promise) (acc text : string)
    (reaction : Event) (w : World) :
  promises w !! CompletionTask.abort t = Some p ->
  p_phase p = Streaming acc ->
  resolves_with acc reaction = Some text ->
  let h := CompletionTask.abort t in
  let w' := cancel t reaction w in
  (reaction = End -> text = acc) /\
  (forall error, reaction = Throw error ->
     err_name error = "AbortError" /\ text = "") /\
  (p_phase <$> promises w' !! h) = Some Settled /\
  calls w' = calls w ++ [CallAbort h; CallOnDone h text] /\
  results w' !! h = Some text /\
  localStorage w'
    = match p_onDone p with
      | Some onDone => onDone text (localStorage w)
      | None => localStorage w
      end /\
  (p_onDone p = None -> localStorage w' = localStorage w) /\
  (p_id p ∉ task_ids w') /\
  requests w' = requests w.
Proof.
  intros Hp Hph Hr h w'. subst w'.
  split; [intros ->; simpl in Hr; by inversion Hr|].
  split.
  { intros error ->. simpl in Hr.
    destruct (decide (err_name error = "AbortError")); [|discriminate Hr].
    by inversion Hr. }
  rewrite (cancel_eq t p acc text reaction w Hp Hph Hr). fold h.
  destruct (p_onDone p) as [onDone|]; simpl.
  - split; [by rewrite lookup_insert_eq|]. split; [by rewrite <- app_assoc|].
    split; [by rewrite lookup_insert_eq|]. split; [done|]. split; [done|].
    split; [|done].
    match goal with |- _ ∉ task_ids (removeTask ?i ?w) =>
      apply (removeTask_ids i w) end.
  - split; [by rewrite lookup_insert_eq|]. split; [by rewrite <- app_assoc|].
    split; [by rewrite lookup_insert_eq|]. split; [done|]. split; [done|].
    split; [|done].
    match goal with |- _ ∉ task_ids (removeTask ?i ?w) =>
      apply (removeTask_ids i w) end.
Qed.

Lemma cancel_settles_as_done_witness :
  (let w' := cancel (CompletionTask.mk "#bbbb" 0 0) End streamed_world in
   calls w' = calls streamed_world ++ [CallAbort 0; CallOnDone 0 "hel"] /\
   results w' !! 0%nat = Some "hel" /\
   localStorage w' = localStorage streamed_world) /\
  (let w' := cancel (CompletionTask.mk "#bbbb" 0 0) (Throw AbortError)
               streamed_world in
   calls w' = calls streamed_world ++ [CallAbort 0; CallOnDone 0 ""] /\
   results w' !! 0%nat = Some "" /\
   localStorage w' = localStorage streamed_world) /\
  MsgStore.content (storage_get "#bbbb" (localStorage streamed_world))
    = Some "hel ".
Proof.
  split; [|split; [|reflexivity]].
  - destruct (cancel_settles_as_done (CompletionTask.mk "#bbbb" 0 0)
                (default (Build_Promise "" None None None Settled)
                         (promises streamed_world !! 0%nat))
                "hel" "hel" End streamed_world)
      as (_ & _ & _ & H1 & H2 & _ & H3 & _).
    + reflexivity.
    + reflexivity.
    + reflexivity.
    + split; [exact H1|]. split; [exact H2|by apply H3].
  - destruct (cancel_settles_as_done (CompletionTask.mk "#bbbb" 0 0)
                (default (Build_Promise "" None None None Settled)
                         (promises streamed_world !! 0%nat))
                "hel" "" (Throw AbortError) streamed_world)
      as (_ & _ & _ & H1 & H2 & _ & H3 & _).
    + reflexivity.
    + reflexivity.
    + reflexivity.
    + split; [exact H1|]. split; [exact H2|by apply H3].
Defined.

(* ===================================================================== *)
(** * Weight *)
(* ===================================================================== *)

Section Weight.

Implicit Types (w : World) (ls : Records).

Lemma foldl_weight (f : string -> Z) (l : list string) (a : Z) :
  foldl (fun p c => p + 1 + f c) a l
  = a + foldr (fun c acc => (1 + f c) + acc) 0 l.
Proof.
  revert a. induction l as [|c l IH]; intros a; simpl; [lia|].
  rewrite IH. lia.
Qed.

(** The [weight] a render computes is the sum over the stored children. *)
Lemma weight_mount id initialContent w :
  weight (mount id initialContent w) = children_weight (localStorage w) id.
Proof.
  unfold weight, mount, render, children_weight, children. simpl.
  destruct (MsgStore.messages (storage_get id (localStorage w))) as [ms|];
    simpl; [|done].
  rewrite <- (Z.add_0_l (foldr _ _ _)).
  rewrite <- (foldl_weight
    (fun c => default 0 (MsgStore.weight (storage_get c (localStorage w))))).
  generalize 0 at 2 4. induction ms as [|c ms IH]; intros a; simpl; [done|].
  by rewrite IH.
Qed.

Lemma children_weight_insert ls id r :
  MsgStore.messages r = MsgStore.messages (storage_get id ls) ->
  id ∉ children ls id ->
  children_weight (<[id := r]> ls) id = children_weight ls id.
Proof.
  intros Hms Hnot. unfold children_weight.
  assert (Hch : children (<[id := r]> ls) id = children ls id).
  { unfold children at 1, storage_get at 1. rewrite lookup_insert_eq. simpl.
    by rewrite Hms. }
  rewrite Hch. revert Hnot. generalize (children ls id).
  intros l Hl. induction l as [|c l IH]; simpl; [done|].
  apply not_elem_of_cons in Hl as [Hne Hl]. rewrite IH by done.
  unfold storage_get at 1. by rewrite lookup_insert_ne.
Qed.

(** What the layout effect leaves: the weight of [id] is the sum over its
    children, and nothing else changed. *)
Lemma layoutEffect_spec id initialContent w :
  id ∉ children (localStorage w) id ->
  let w' := layoutEffect (mount id initialContent w) w in
  let r := storage_get id (localStorage w) in
  storage_get id (localStorage w')
    = MsgStore.with_weight (Some (children_weight (localStorage w) id)) r /\
  children_weight (localStorage w') id = children_weight (localStorage w) id /\
  children (localStorage w') id = children (localStorage w) id /\
  (forall k, k <> id -> localStorage w' !! k = localStorage w !! k) /\
  same_tasks w w'.
Proof.
  intros Hnot. simpl. unfold layoutEffect.
  rewrite weight_mount. simpl.
  case_decide as Hw.
  - split.
    + destruct (storage_get id (localStorage w)) eqn:Hr. simpl in *.
      by rewrite <- Hw.
    + repeat split; try done.
  - simpl. split.
    + unfold storage_get at 1, storage_set. by rewrite lookup_insert_eq.
    + split; [by apply children_weight_insert|].
      split.
      { unfold children at 1, storage_get at 1, storage_set.
        by rewrite lookup_insert_eq. }
      split; [|by repeat split].
      intros k Hk. unfold storage_set. by rewrite lookup_insert_ne.
Qed.

End Weight.

(* ===================================================================== *)
(** * Scenario: a first message and its streamed answer *)
(* ===================================================================== *)

Section Scenario.

Variables (s : SettingsStore.t) (ic0 : list ChatMessage).
Variables (nanoid1 nanoid2 : string).

Lemma mount_empty id ic :
  mount id ic (empty_world s)
  = {| id := id; initialContent := ic; parentMsg := MsgStore.empty;
       childMsgs := [] |}.
Proof. unfold mount, render, storage_get. simpl. by rewrite lookup_empty. Qed.

(** [newBranch] with ["hi"] and [addAnswer] on the empty root. *)
Lemma newBranch_on_empty_root :
  is_Some (truthy (SettingsStore.apiKey s)) ->
  let U := "#" +:+ nanoid1 in
  let A := "#" +:+ nanoid2 in
  let nodeA := placeholder_with_model (SettingsStore.model s) A in
  let w1 := newBranch (mount "#0000" ic0 (empty_world s))
                      nanoid1 nanoid2 (Some "hi") false true (empty_world s) in
  exists p,
    promises w1 = <[0%nat := p]> ∅ /\
    p_id p = A /\ p_phase p = Streaming "" /\ p_onDone p = None /\
    p_onText p = Some (fun text =>
      storage_set A
        (MsgStore.with_content (Some ("" +:+ text +:+ " ")) nodeA)) /\
    localStorage w1
      = <["#0000" := root_node U]>
          (<[U := user_node U A]> (<[A := nodeA]> ∅)) /\
    atom w1 = [CompletionTask.mk A 0 0] /\
    results w1 = <[0%nat := ""]> ∅ /\
    calls w1 = [] /\ settings w1 = s /\
    exists body, requests w1 = [(0%nat, body)].
Proof.
  intros Hkey U A nodeA. rewrite mount_empty.
  set (wa := set_localStorage (storage_set A (placeholder A)) (empty_world s)).
  destruct (newMessageCompletion_start A (hi_path ic0) wa Hkey)
    as (p & Hpr & Hid & Hph & Hdone & Hon & Hls & Hat & Hrs & Hc & Hst
        & body & Hrq).
  assert (Hh : fresh_handle wa = 0%nat) by reflexivity.
  rewrite Hh in *.
  assert (Hget : storage_get A (localStorage wa) = placeholder A).
  { unfold wa, storage_get, storage_set. simpl. by rewrite lookup_insert_eq. }
  rewrite Hget in *.
  set (wb := newMessageCompletion A _ wa) in *.
  assert (Hw1 : newBranch
            {| id := "#0000"; initialContent := ic0;
               parentMsg := MsgStore.empty; childMsgs := [] |}
            nanoid1 nanoid2 (Some "hi") false true (empty_world s)
          = set_localStorage (storage_set "#0000" (root_node U))
              (set_localStorage (storage_set U (user_node U A)) wb))
    by reflexivity.
  rewrite Hw1. clearbody wb. clear Hw1.
  exists p. simpl. rewrite Hpr, Hls, Hat, Hrs, Hc, Hst, Hrq.
  unfold wa, storage_set. simpl. rewrite insert_insert_eq.
  do 10 (split; [done|]). by exists body.
Qed.

End Scenario.

(** A streaming promise without [onDone], when its stream ends and its
    microtask runs: the result atom holds the accumulated text, [onDone]
    is the only call, storage is untouched, and the tasks of its id leave
    the registry. *)
Lemma steps_end_settle (h : nat) (p : Promise) (acc : string) (w : World) :
  promises w !! h = Some p ->
  p_phase p = Streaming acc ->
  p_onDone p = None ->
  let w' := steps h [End; Microtask] w in
  localStorage w' = localStorage w /\
  results w' = <[h := acc]> (results w) /\
  calls w' = calls w ++ [CallOnDone h acc] /\
  atom w' = List.filter
              (fun task => negb (bool_decide (CompletionTask.id task = p_id p)))
              (atom w) /\
  requests w' = requests w.
Proof.
  intros Hp Hph Hdone. unfold steps. cbn [foldl].
  assert (H1 : step h End w = set_promise h (set_phase (Resolved acc) p) w).
  { unfold step. by rewrite Hp, Hph. }
  rewrite H1. unfold step. cbn [promises set_promise].
  rewrite lookup_insert_eq. cbn. by rewrite Hdone.
Qed.

(** C7, the claim as stated fails: [onText] stores the cumulative text
    followed by a space (line 67 of message.tsx), and nothing rewrites the
    content when the task settles.  On the example, streamed as ["hel"] then
    ["lo"] and settled with the text ["hello"], the content of the
    assistant child is ["hello "]. *)
Lemma settled_content_has_trailing_space :
  results (steps 0 [Chunk (Some "hel"); Chunk (Some "lo"); End; Microtask]
                 example_world) !! 0%nat = Some "hello" /\
  MsgStore.content
    (storage_get "#bbbb"
       (localStorage
          (steps 0 [Chunk (Some "hel"); Chunk (Some "lo"); End; Microtask]
                 example_world)))
  = Some "hello " /\
  MsgStore.content
    (storage_get "#bbbb"
       (localStorage
          (steps 0 [Chunk (Some "hel"); Chunk (Some "lo"); End; Microtask]
                 example_world)))
  <> Some "hello".
Proof. split; [reflexivity|]. split; [reflexivity|]. vm_compute. discriminate. Qed.

(** C7, amended.  From the empty root [#0000], with an API key in the
    settings and two distinct fresh ids: [newBranch] with ["hi"] and
    [addAnswer] gives the root the one child [U], a user node with content
    ["hi"], whose one child [A] is an assistant placeholder without
    content, with a registered task whose request was sent.  After every
    run of chunks that adds up to a non-empty text, the result atom holds
    that cumulative text, [onText] was last called with it, and the
    content of [A] is that text followed by one space.  When the chunks
    add up to ["hello"] and the task has settled, the registry is empty,
    the result atom holds ["hello"] and the content of [A] is ["hello "].
    When the layout effect has then run for [U] and for the root, the
    weight of [U] is 1 and the weight of the root is 2. *)
Theorem newBranch_addAnswer_scenario
    (s : SettingsStore.t) (ic0 : list ChatMessage)
    (nanoid1 nanoid2 : string) (cs : list (option string)) :
  is_Some (truthy (SettingsStore.apiKey s)) ->
  nanoid1 <> nanoid2 -> nanoid1 <> "0000" -> nanoid2 <> "0000" ->
  chunks_text cs = "hello" ->
  let U := "#" +:+ nanoid1 in
  let A := "#" +:+ nanoid2 in
  let w1 := newBranch (mount "#0000" ic0 (empty_world s))
                      nanoid1 nanoid2 (Some "hi") false true (empty_world s) in
  let w2 := steps 0 (map Chunk cs) w1 in
  let w3 := steps 0 [End; Microtask] w2 in
  let w4 := layoutEffect (mount U (hi_path ic0) w3) w3 in
  let w5 := layoutEffect (mount "#0000" ic0 w4) w4 in
  (children (localStorage w1) "#0000" = [U] /\
   MsgStore.role (storage_get U (localStorage w1)) = Some user /\
   MsgStore.content (storage_get U (localStorage w1)) = Some "hi" /\
   children (localStorage w1) U = [A] /\
   MsgStore.role (storage_get A (localStorage w1)) = Some assistant /\
   MsgStore.content (storage_get A (localStorage w1)) = None /\
   children (localStorage w1) A = [] /\
   atom w1 = [CompletionTask.mk A 0 0] /\
   (p_phase <$> promises w1 !! 0%nat) = Some (Streaming "") /\
   exists body, requests w1 = [(0%nat, body)]) /\
  (forall cs1 : list (option string),
     chunks_text cs1 <> "" ->
     let wk := steps 0 (map Chunk cs1) w1 in
     results wk !! 0%nat = Some (chunks_text cs1) /\
     last (calls wk) = Some (CallOnText 0 (chunks_text cs1)) /\
     MsgStore.content (storage_get A (localStorage wk))
       = Some (chunks_text cs1 +:+ " ")) /\
  (atom w3 = [] /\
   results w3 !! 0%nat = Some "hello" /\
   MsgStore.content (storage_get A (localStorage w3)) = Some "hello ") /\
  (MsgStore.weight (storage_get U (localStorage w5)) = Some 1 /\
   MsgStore.weight (storage_get "#0000" (localStorage w5)) = Some 2).
Proof.
  intros Hkey H12 H1 H2 Hhello U A w1 w2 w3 w4 w5.
  assert (HUA : U <> A) by (intros [= ?]; done).
  assert (HU0 : U <> "#0000") by (intros [= ?]; done).
  assert (HA0 : A <> "#0000") by (intros [= ?]; done).
  destruct (newBranch_on_empty_root s ic0 nanoid1 nanoid2 Hkey)
    as (p & Hpr & Hid & Hph & Hdone & Hon & Hls & Hat & Hrs & Hc & Hst & Hrq).
  fold U A w1 in Hpr, Hid, Hon, Hls, Hat, Hrs, Hc, Hst, Hrq.
  set (nodeA := placeholder_with_model (SettingsStore.model s) A) in *.
  set (g := fun text : string =>
              MsgStore.with_content (Some ("" +:+ text +:+ " ")) nodeA) in *.
  assert (Hp0 : promises w1 !! 0%nat = Some p).
  { rewrite Hpr. apply lookup_insert_eq. }
  (* the records after [newBranch] *)
  assert (HgetR : storage_get "#0000" (localStorage w1) = root_node U).
  { unfold storage_get. rewrite Hls. by rewrite lookup_insert_eq. }
  assert (HgetU : storage_get U (localStorage w1) = user_node U A).
  { unfold storage_get. rewrite Hls.
    rewrite lookup_insert_ne by done. by rewrite lookup_insert_eq. }
  assert (HgetA : storage_get A (localStorage w1) = nodeA).
  { unfold storage_get. rewrite Hls.
    rewrite !lookup_insert_ne by done. by rewrite lookup_insert_eq. }
  (* a run of chunks *)
  assert (Hrun : forall cs1, chunks_text cs1 <> "" ->
            let wk := steps 0 (map Chunk cs1) w1 in
            promises wk !! 0%nat
              = Some (set_phase (Streaming (chunks_text cs1)) p) /\
            results wk = <[0%nat := chunks_text cs1]> (results w1) /\
            localStorage wk = <[A := g (chunks_text cs1)]> (localStorage w1) /\
            atom wk = atom w1 /\
            last (calls wk) = Some (CallOnText 0 (chunks_text cs1))).
  { intros cs1 Hne.
    destruct (steps_chunks A g cs1 w1 0%nat p "" Hp0 Hph Hon)
      as [[Hnil _]|(_ & Hpr' & Hrs' & Hls' & Hat' & _ & _ & k & Hk & _)];
      [done|].
    cbn zeta. rewrite Hpr', Hrs', Hls', Hat', Hk.
    split; [apply lookup_insert_eq|]. do 3 (split; [done|]).
    rewrite app_assoc. apply last_snoc. }
  split.
  { rewrite HgetU, HgetA.
    unfold children. rewrite HgetR, HgetU, HgetA, Hat, Hp0.
    simpl. rewrite Hph. by repeat split. }
  split.
  { intros cs1 Hne. destruct (Hrun cs1 Hne) as (_ & Hrs' & Hls' & _ & Hlast).
    cbn zeta. rewrite Hrs', Hls'.
    split; [apply lookup_insert_eq|]. split; [done|].
    unfold storage_get. by rewrite lookup_insert_eq. }
  (* the run that adds up to "hello", and its end *)
  destruct (Hrun cs) as (Hp2 & Hrs2 & Hls2 & Hat2 & _).
  { rewrite Hhello. discriminate. }
  fold w2 in Hp2, Hrs2, Hls2, Hat2. rewrite Hhello in *.
  destruct (steps_end_settle 0%nat _ "hello" w2 Hp2 eq_refl Hdone)
    as (Hls3 & Hrs3 & _ & Hat3 & _).
  fold w3 in Hls3, Hrs3, Hat3.
  assert (HgetA3 : storage_get A (localStorage w3) = g "hello").
  { unfold storage_get. rewrite Hls3, Hls2. by rewrite lookup_insert_eq. }
  assert (HgetU3 : storage_get U (localStorage w3) = user_node U A).
  { unfold storage_get at 1. rewrite Hls3, Hls2.
    rewrite lookup_insert_ne by done. exact HgetU. }
  assert (HgetR3 : storage_get "#0000" (localStorage w3) = root_node U).
  { unfold storage_get at 1. rewrite Hls3, Hls2.
    rewrite lookup_insert_ne by done. exact HgetR. }
  split.
  { rewrite HgetA3, Hrs3, Hat3, Hat2, Hat. simpl.
    rewrite Hid, bool_decide_eq_true_2 by done.
    split; [done|]. split; [apply lookup_insert_eq|done]. }
  (* the layout effects *)
  destruct (layoutEffect_spec U (hi_path ic0) w3) as (HU4 & _ & _ & Hfr4 & _).
  { unfold children. rewrite HgetU3. simpl.
    intros Hin%list_elem_of_singleton. done. }
  fold w4 in HU4, Hfr4.
  assert (HcwU : children_weight (localStorage w3) U = 1).
  { unfold children_weight, children. rewrite HgetU3. simpl.
    by rewrite HgetA3. }
  rewrite HcwU, HgetU3 in HU4.
  assert (HgetR4 : storage_get "#0000" (localStorage w4) = root_node U).
  { unfold storage_get at 1. rewrite Hfr4 by done. exact HgetR3. }
  destruct (layoutEffect_spec "#0000" ic0 w4) as (HR5 & _ & _ & Hfr5 & _).
  { unfold children. rewrite HgetR4. simpl.
    intros Hin%list_elem_of_singleton. done. }
  fold w5 in HR5, Hfr5.
  assert (HcwR : children_weight (localStorage w4) "#0000" = 2).
  { unfold children_weight, children. rewrite HgetR4. simpl.
    by rewrite HU4. }
  split.
  - unfold storage_get. rewrite Hfr5 by done.
    fold (storage_get U (localStorage w4)). by rewrite HU4.
  - by rewrite HR5, HcwR.
Qed.

Lemma newBranch_addAnswer_scenario_witness :
  MsgStore.content
    (storage_get ("#" +:+ "bbbb")
       (localStorage
          (steps 0 [End; Microtask]
             (steps 0 (map Chunk [Some "hel"; None; Some "lo"])
                (newBranch (mount "#0000" [] (empty_world example_settings))
                           "aaaa" "bbbb" (Some "hi") false true
                           (empty_world example_settings))))))
  = Some "hello ".
Proof.
  destruct (newBranch_addAnswer_scenario example_settings [] "aaaa" "bbbb"
              [Some "hel"; None; Some "lo"])
    as (_ & _ & (_ & _ & H) & _).
  - by exists "sk-key".
  - discriminate.
  - discriminate.
  - discriminate.
  - reflexivity.
  - exact H.
Defined.

(* ===================================================================== *)
(** * At most one task per node id *)
(* ===================================================================== *)

Section UniqueTasks.

Implicit Types (w : World) (m : Message).

Lemma newMessageCompletion_task_ids msgId messages w :
  task_ids (newMessageCompletion msgId messages w) = task_ids w ++ [msgId].
Proof.
  unfold newMessageCompletion, task_ids. rewrite newTask_atom.
  by rewrite map_app.
Qed.

Lemma newBranch_task_ids m nanoid1 nanoid2 content fillContent addAnswer w :
  task_ids (newBranch m nanoid1 nanoid2 content fillContent addAnswer w)
    = task_ids w \/
  task_ids (newBranch m nanoid1 nanoid2 content fillContent addAnswer w)
    = task_ids w ++ ["#" +:+ nanoid1] \/
  task_ids (newBranch m nanoid1 nanoid2 content fillContent addAnswer w)
    = task_ids w ++ ["#" +:+ nanoid2].
Proof.
  unfold newBranch.
  destruct addAnswer, fillContent, (truthy content),
    (default (defaultChildRole m)
             (selectedMsg m ≫= fun s => MsgStore.role (data s)));
    cbn [set_localStorage atom task_ids];
    first [ by left
          | right; left;
            match goal with
            | |- context [newMessageCompletion ?i ?ms ?w0] =>
                apply (newMessageCompletion_task_ids i ms w0)
            end
          | right; right;
            match goal with
            | |- context [newMessageCompletion ?i ?ms ?w0] =>
                apply (newMessageCompletion_task_ids i ms w0)
            end ].
Qed.

Lemma step_task_ids h ev w : task_ids (step h ev w) `sublist_of` task_ids w.
Proof.
  assert (Hrm : forall id w0, atom w0 = atom w ->
            task_ids (removeTask id w0) `sublist_of` task_ids w).
  { intros id w0 Hw0. unfold task_ids, removeTask. simpl. rewrite Hw0.
    apply fmap_sublist. clear. induction (atom w) as [|t l IH]; [done|].
    simpl. destruct (negb _); [by apply sublist_skip|by apply sublist_cons]. }
  unfold step. destruct (promises w !! h) as [p|]; [|done].
  destruct (p_phase p), ev; try done.
  - destruct (truthy content) as [c|]; [|done].
    by destruct (p_onText p).
  - by case_decide.
  - apply Hrm. by destruct (p_onDone p).
  - apply Hrm. by destruct (p_onError p).
Qed.

End UniqueTasks.

(** X1.  The registry holds at most one task per id in every world the
    mutations and the events of the tasks lead to from one where it does,
    as long as the ids [newBranch] draws are not registered: [newBranch]
    registers at most one of its two new ids, an event only removes tasks,
    and the other mutations leave the registry as it is. *)
Lemma task_ids_unique_preserved
    (m : Message) (nanoid1 nanoid2 child : string) (content : option string)
    (text : string) (fillContent addAnswer : bool) (h : nat) (ev : Event)
    (w : World) :
  NoDup (task_ids w) ->
  "#" +:+ nanoid1 ∉ task_ids w ->
  "#" +:+ nanoid2 ∉ task_ids w ->
  NoDup (task_ids (newBranch m nanoid1 nanoid2 content fillContent addAnswer w)) /\
  NoDup (task_ids (step h ev w)) /\
  atom (editSelect m text w) = atom w /\
  atom (handleItemClick m child w) = atom w /\
  atom (layoutEffect m w) = atom w /\
  (forall w', handleItemDelete m child w = Some w' -> atom w' = atom w).
Proof.
  intros Hnd H1 H2. split; [|split; [|split; [|split; [|split]]]].
  - destruct (newBranch_task_ids m nanoid1 nanoid2 content fillContent
                addAnswer w) as [-> |[-> | ->]]; [done| |];
      (apply NoDup_app; split; [done|]; split; [|apply NoDup_singleton];
       intros x Hx Hx'; apply list_elem_of_singleton in Hx'; by subst).
  - eapply sublist_NoDup; [exact Hnd|apply step_task_ids].
  - unfold editSelect. by destruct (selectedMsg m).
  - done.
  - unfold layoutEffect. by case_decide.
  - intros w' Hrun. unfold handleItemDelete in Hrun.
    set (w1 := set_localStorage _ w) in Hrun.
    destruct (recDel_terminates (S (size (localStorage w1))) child w1)
      as (w2 & Hrun2 & (_ & (_ & Hatom & _) & _) & _); [lia|].
    rewrite Hrun in Hrun2. injection Hrun2 as <-. exact Hatom.
Qed.

Lemma task_ids_unique_preserved_witness :
  let m := mount "#aaaa" (hi_path []) example_world in
  NoDup (task_ids (newBranch m "cccc" "dddd" None true false example_world)) /\
  task_ids (newBranch m "cccc" "dddd" None true false example_world)
  = ["#bbbb"; "#cccc"].
Proof.
  intros m.
  destruct (task_ids_unique_preserved m "cccc" "dddd" "#bbbb" None "" true
              false 0%nat End example_world) as (H & _).
  - vm_compute. apply NoDup_singleton.
  - vm_compute. intros H.
    apply elem_of_cons in H as [H|H]; [discriminate H|].
    by apply elem_of_nil in H.
  - vm_compute. intros H.
    apply elem_of_cons in H as [H|H]; [discriminate H|].
    by apply elem_of_nil in H.
  - split; [exact H|vm_compute; reflexivity].
Defined.

(* ===================================================================== *)
(** * [storage]: deleted and missing keys, writing back *)
(* ===================================================================== *)

Section StorageFacts.

Import JSON.

Lemma stringify_defined (v : value) : stringify (defined v) = stringify v.
Proof.
  induction v as [| | |b|z|s|l IH|l IH] using value_ind'; try reflexivity.
  - rewrite defined_Arr, !stringify_Arr.
    assert (elements (map defined_element l) = elements l) as ->; [|done].
    induction IH as [|v l Hv _ IHl]; [done|].
    unfold elements in *. simpl. rewrite IHl. f_equal.
    destruct (element_cases v) as [(_ & -> & ->)|(t & Ht & -> & ->)];
      [done|]. by rewrite Hv, Ht.
  - rewrite defined_Obj, !stringify_Obj.
    assert (members (defined_members l) = members l) as ->; [|done].
    induction IH as [|[k v] l Hv _ IHl]; [done|].
    simpl in Hv. cbn [members defined_members].
    destruct (stringify v) as [t|] eqn:Ht.
    + assert (forall rest,
                match v with
                | Undefined | Fun => rest
                | _ => (k, defined v) :: rest
                end = (k, defined v) :: rest) as ->.
      { intros rest. destruct v; try done; discriminate. }
      cbn [members]. by rewrite Hv, IHl.
    + by destruct (stringify_None v Ht) as [-> | ->].
Qed.

End StorageFacts.

(** X2.  After [del()], [get()] does not fail: it gives the empty object
    [{}], as it does for a key that holds the empty text; and [del()] of
    one key leaves what [get()] gives for every other key as it was. *)
Theorem storage_del_get (key : string) (ls : DOMStorage) :
  storage.get key (storage.del key ls) = Some (JSON.Obj []) /\
  storage.get key (<[key := ""]> ls) = Some (JSON.Obj []) /\
  forall key', key' <> key ->
    storage.get key' (storage.del key ls) = storage.get key' ls.
Proof.
  unfold storage.get, storage.del. rewrite lookup_delete_eq, lookup_insert_eq.
  split; [reflexivity|]. split; [reflexivity|].
  intros key' Hne. by rewrite lookup_delete_ne.
Qed.

(** X3.  What [get()] gives for a record that [set] wrote can be written
    back as it is: [set] of it under the same key leaves storage
    unchanged. *)
Theorem storage_write_back (key : string) (data : list (string * JSON.value))
    (ls : DOMStorage) :
  let ls' := storage.set key (JSON.Obj data) ls in
  exists o, storage.get key ls' = Some o /\ storage.set key o ls' = ls'.
Proof.
  intros ls'. exists (JSON.defined (JSON.Obj data)).
  split; [apply storage_get_set_eq|].
  unfold ls', storage.set. rewrite stringify_defined.
  apply insert_insert_eq.
Qed.

(** X4.  A node record written with [set] is read back by [get] field for
    field: absent properties stay absent, a [null] selection stays [null],
    and the empty text and the weight 0 are kept as they are. *)
Theorem storage_record_round_trip (key : string) (r : MsgStore.t)
    (ls : DOMStorage) :
  MsgStore_of <$> storage.get key (storage.set key (MsgStore_object r) ls)
  = Some r.
Proof.
  pose proof (MsgStore_of_object r) as Hr. unfold MsgStore_object in *.
  rewrite storage_get_set_eq. cbn [fmap option_fmap option_map].
  by rewrite Hr.
Qed.

(* ===================================================================== *)
(** * [createAtom]: who is called by [set] *)
(* ===================================================================== *)

Section AtomFacts.

Context {T : Type}.
Implicit Types (a : Atom.t T) (ops : list (Atom.Op T)).

Lemma Atom_run_op_subscribers a op callback :
  NoDup (Atom.subscribers a) ->
  NoDup (Atom.subscribers (Atom.run_op a op)) /\
  (callback ∈ Atom.subscribers (Atom.run_op a op) <->
   Atom.subscribed callback [op]
     (bool_decide (callback ∈ Atom.subscribers a)) = true).
Proof.
  intros Hnd. destruct op as [f|c|c]; simpl.
  - split; [done|]. by rewrite bool_decide_eq_true.
  - unfold Atom.subscribe. destruct (decide (c ∈ Atom.subscribers a)) as [Hc|Hc].
    + split; [done|]. case_decide as Heq; [subst; by split|].
      by rewrite bool_decide_eq_true.
    + simpl. split.
      * apply NoDup_app. split; [done|]. split; [|apply NoDup_singleton].
        intros x Hx Hx'%list_elem_of_singleton. by subst.
      * rewrite elem_of_app, list_elem_of_singleton.
        case_decide as Heq; [subst; split; auto|].
        rewrite bool_decide_eq_true. split; [intros [?|?]; [done|by subst]|auto].
  - split.
    + apply NoDup_ListNoDup, List.NoDup_filter. by apply NoDup_ListNoDup.
    + rewrite list_elem_of_In, List.filter_In, <- list_elem_of_In.
      rewrite negb_true_iff, bool_decide_eq_false.
      case_decide as Heq; [subst; split; [by intros [_ ?]|done]|].
      rewrite bool_decide_eq_true. split; [by intros [? _]|].
      intros H. split; [done|]. by intros ->.
Qed.

Lemma Atom_run_subscribers ops :
  forall a callback,
    NoDup (Atom.subscribers a) ->
    NoDup (Atom.subscribers (Atom.run ops a)) /\
    (callback ∈ Atom.subscribers (Atom.run ops a) <->
     Atom.subscribed callback ops
       (bool_decide (callback ∈ Atom.subscribers a)) = true).
Proof.
  induction ops as [|op ops IH]; intros a callback Hnd.
  - simpl. split; [done|]. by rewrite bool_decide_eq_true.
  - change (Atom.run (op :: ops) a) with (Atom.run ops (Atom.run_op a op)).
    destruct (Atom_run_op_subscribers a op callback Hnd) as [Hnd1 Hop].
    destruct (IH (Atom.run_op a op) callback Hnd1) as [Hnd2 Hin].
    split; [done|]. rewrite Hin.
    assert (bool_decide (callback ∈ Atom.subscribers (Atom.run_op a op))
            = Atom.subscribed callback [op]
                (bool_decide (callback ∈ Atom.subscribers a))) as ->.
    { apply eq_true_iff_eq. rewrite bool_decide_eq_true. exact Hop. }
    by destruct op.
Qed.

End AtomFacts.

(** X5.  An atom that was created and then used through [set], [subscribe]
    and the functions [subscribe] returned: [set(updater)] makes the value
    [updater] of the old value, keeps the subscribers, and calls with the
    new value exactly the callbacks whose latest [subscribe] was not
    followed by an unsubscription, each of them once (also one that was
    subscribed more than once). *)
Theorem Atom_set_notifies {T : Type} (initialValue : T)
    (ops : list (Atom.Op T)) (updater : T -> T) :
  let a := Atom.run ops (Atom.create initialValue) in
  let calls := (Atom.set updater a).2 in
  Atom.get (Atom.set updater a).1 = updater (Atom.get a) /\
  Atom.subscribers (Atom.set updater a).1 = Atom.subscribers a /\
  NoDup calls.*1 /\
  (forall callback,
     callback ∈ calls.*1 <-> Atom.subscribed callback ops false = true) /\
  (forall call, call ∈ calls -> call.2 = updater (Atom.get a)).
Proof.
  intros a calls.
  destruct (Atom_run_subscribers ops (Atom.create initialValue) 0%nat)
    as [Hnd _]; [constructor|].
  assert (Hfst : calls.*1 = Atom.subscribers a).
  { unfold calls, Atom.set. simpl. rewrite <- list_fmap_compose.
    apply list_fmap_id. }
  split; [done|]. split; [done|]. rewrite Hfst. split; [exact Hnd|]. split.
  - intros callback.
    destruct (Atom_run_subscribers ops (Atom.create initialValue) callback)
      as [_ Hin]; [constructor|].
    exact Hin.
  - intros call Hcall. unfold calls, Atom.set in Hcall. simpl in Hcall.
    apply list_elem_of_fmap in Hcall as (c & -> & _). done.
Qed.

(* ===================================================================== *)
(** * The settings across a reload *)
(* ===================================================================== *)

Section SettingsFacts.

Lemma createSettingsStore_set (data : SettingsStore.t) (ls : DOMStorage) :
  createSettingsStore (storage.set "settings" (SettingsStore_object data) ls)
  = Some (SettingsStore.mk
            (Some (default "gpt-4o" (SettingsStore.model data)))
            (SettingsStore.apiKey data)).
Proof.
  unfold createSettingsStore, SettingsStore_object.
  rewrite storage_get_set_eq.
  destruct data as [[m|] [k|]]; vm_compute; reflexivity.
Qed.

End SettingsFacts.

(** X6.  [settingsStore.set(data)] makes [data] the current settings and
    writes it under the key [settings] only.  A store created afterwards
    from the same storage (a reload) starts with the API key of [data] and
    with its model, also when that is the empty text; when [data] has no
    model it starts with [gpt-4o].  With nothing stored under [settings],
    a store starts with the model [gpt-4o] and no API key. *)
Theorem settingsStore_set_reload (data : SettingsStore.t) (ls : DOMStorage) :
  let ls' := (settingsStore_set data ls).1 in
  (settingsStore_set data ls).2 = data /\
  createSettingsStore ls'
  = Some (SettingsStore.mk
            (Some (default "gpt-4o" (SettingsStore.model data)))
            (SettingsStore.apiKey data)) /\
  (forall key, key <> "settings" -> ls' !! key = ls !! key) /\
  createSettingsStore (storage.del "settings" ls)
  = Some (SettingsStore.mk (Some "gpt-4o") None).
Proof.
  simpl. split; [done|]. split; [apply createSettingsStore_set|]. split.
  - intros key Hne. unfold storage.set. by rewrite lookup_insert_ne.
  - unfold createSettingsStore, storage.get, storage.del.
    rewrite lookup_delete_eq. reflexivity.
Qed.

(** X7.  Typing an API key in the header keeps the model, and choosing a
    model keeps the API key: after both, in either order, the settings
    hold the two values, and so does a store created from the same storage
    afterwards. *)
Theorem header_inputs_compose (settings : SettingsStore.t)
    (apiKey model : string) (ls : DOMStorage) :
  let both := SettingsStore.mk (Some model) (Some apiKey) in
  let k := handleApiKeyInput settings apiKey ls in
  let km := handleModelSelect k.2 model k.1 in
  let m := handleModelSelect settings model ls in
  let mk := handleApiKeyInput m.2 apiKey m.1 in
  km.2 = both /\ createSettingsStore km.1 = Some both /\
  mk.2 = both /\ createSettingsStore mk.1 = Some both /\
  SettingsStore.model k.2 = SettingsStore.model settings /\
  SettingsStore.apiKey m.2 = SettingsStore.apiKey settings.
Proof.
  simpl. split; [done|]. split; [apply createSettingsStore_set|].
  split; [done|]. split; [apply createSettingsStore_set|]. done.
Qed.

(* ===================================================================== *)
(** * A generation from its request to its end *)
(* ===================================================================== *)

Section StreamFacts.

Implicit Types (w : World) (p : Promise) (h : nat) (cs : list (option string)).

Lemma set_phase_same p : set_phase (p_phase p) p = p.
Proof. by destruct p. Qed.

Lemma call_opt_frame {X : Type} (cb : option (X -> Records -> Records))
    (x : X) w :
  promises (call_opt cb x w) = promises w /\
  calls (call_opt cb x w) = calls w /\
  results (call_opt cb x w) = results w /\
  atom (call_opt cb x w) = atom w /\
  requests (call_opt cb x w) = requests w /\
  settings (call_opt cb x w) = settings w.
Proof. by destruct cb. Qed.

Lemma last_cumulative cs : forall acc,
  (cumulative acc cs = [] /\ chunks_text cs = "") \/
  last (cumulative acc cs) = Some (acc +:+ chunks_text cs).
Proof.
  induction cs as [|c cs IH]; intros acc; [by left|].
  cbn [cumulative chunks_text].
  destruct (or_str_truthy c) as [[Hc ->]|(s & Hc & -> & Hs)]; rewrite Hc.
  - apply IH.
  - right. destruct (IH (acc +:+ s)) as [[-> ->]|Hlast].
    + by rewrite string_app_nil_r.
    + rewrite string_app_assoc in Hlast. rewrite <- Hlast.
      destruct (cumulative (acc +:+ s) cs); [done|]. reflexivity.
Qed.

(** A run of chunks, whatever the callbacks are: the calls of [onText],
    the accumulated text and the result atom. *)
Lemma steps_chunks_trace cs : forall w h p acc,
  promises w !! h = Some p ->
  p_phase p = Streaming acc ->
  let w' := steps h (map Chunk cs) w in
  promises w'
  = <[h := set_phase (Streaming (acc +:+ chunks_text cs)) p]> (promises w) /\
  calls w' = calls w ++ map (CallOnText h) (cumulative acc cs) /\
  results w' = match last (cumulative acc cs) with
               | Some t => <[h := t]> (results w)
               | None => results w
               end /\
  atom w' = atom w /\ requests w' = requests w /\ settings w' = settings w.
Proof.
  induction cs as [|c cs IH]; intros w h p acc Hp Hph.
  - simpl. rewrite string_app_nil_r, <- Hph, set_phase_same.
    rewrite insert_id by done. by rewrite List.app_nil_r.
  - cbn [map chunks_text cumulative]. rewrite steps_cons.
    destruct (or_str_truthy c) as [[Hc ->]|(s & Hc & -> & Hs)]; rewrite Hc.
    + rewrite (step_chunk_falsy _ _ _ Hc). by apply IH.
    + rewrite (step_chunk_truthy _ _ _ _ _ _ Hp Hph Hc).
      set (w1 := call_opt _ _ _).
      destruct (call_opt_frame (p_onText p) (acc +:+ s)
                  (add_call (CallOnText h (acc +:+ s))
                     (atom_set h (fun _ => acc +:+ s)
                        (set_promise h (set_phase (Streaming (acc +:+ s)) p) w))))
        as (Hpr1 & Hcl1 & Hrs1 & Hat1 & Hrq1 & Hst1).
      fold w1 in Hpr1, Hcl1, Hrs1, Hat1, Hrq1, Hst1.
      cbn in Hpr1, Hcl1, Hrs1, Hat1, Hrq1, Hst1.
      destruct (IH w1 h (set_phase (Streaming (acc +:+ s)) p) (acc +:+ s))
        as (Hpr & Hcl & Hrs & Hat & Hrq & Hst).
      { rewrite Hpr1. apply lookup_insert_eq. }
      { done. }
      rewrite Hpr, Hcl, Hrs, Hat, Hrq, Hst, Hpr1, Hcl1, Hrs1, Hat1, Hrq1, Hst1.
      rewrite insert_insert_eq, string_app_assoc, <- app_assoc.
      split; [done|]. split; [done|]. split; [|done].
      destruct (cumulative (acc +:+ s) cs) as [|t l] eqn:Hcum; [done|].
      change (last ((acc +:+ s) :: t :: l)) with (last (t :: l)).
      destruct (last (t :: l)) eqn:Hl; [by rewrite insert_insert_eq|].
      by apply last_None in Hl.
Qed.

(** The end of a stream, and the microtask of its [then] handler. *)
Lemma steps_end_done h p acc w :
  promises w !! h = Some p ->
  p_phase p = Streaming acc ->
  let w' := steps h [End; Microtask] w in
  promises w' = <[h := set_phase Settled p]> (promises w) /\
  localStorage w' = match p_onDone p with
                    | Some f => f acc (localStorage w)
                    | None => localStorage w
                    end /\
  results w' = <[h := acc]> (results w) /\
  calls w' = calls w ++ [CallOnDone h acc] /\
  atom w' = List.filter
              (fun task => negb (bool_decide (CompletionTask.id task = p_id p)))
              (atom w) /\
  requests w' = requests w /\ settings w' = settings w.
Proof.
  intros Hp Hph. unfold steps. cbn [foldl].
  assert (H1 : step h End w = set_promise h (set_phase (Resolved acc) p) w).
  { unfold step. by rewrite Hp, Hph. }
  rewrite H1. unfold step. cbn [promises set_promise].
  rewrite lookup_insert_eq. cbn.
  destruct (p_onDone p); cbn; by rewrite insert_insert_eq.
Qed.

(** An error other than a cancellation, and the microtask of the [catch]
    handler. *)
Lemma steps_throw_error h p acc error w :
  promises w !! h = Some p ->
  p_phase p = Streaming acc ->
  err_name error <> "AbortError" ->
  let w' := steps h [Throw error; Microtask] w in
  promises w' = <[h := set_phase Settled p]> (promises w) /\
  localStorage w' = match p_onError p with
                    | Some f => f error (localStorage w)
                    | None => localStorage w
                    end /\
  results w' = <[h := default "" (results w !! h)]> (results w) /\
  calls w' = calls w ++ [CallOnError h error] /\
  atom w' = List.filter
              (fun task => negb (bool_decide (CompletionTask.id task = p_id p)))
              (atom w) /\
  requests w' = requests w /\ settings w' = settings w.
Proof.
  intros Hp Hph Hname. unfold steps. cbn [foldl].
  assert (H1 : step h (Throw error) w
               = set_promise h (set_phase (Rejected error) p) w).
  { unfold step. rewrite Hp, Hph. by rewrite decide_False. }
  rewrite H1. unfold step. cbn [promises set_promise].
  rewrite lookup_insert_eq. cbn.
  destruct (p_onError p); cbn; by rewrite insert_insert_eq.
Qed.

(** [newTask] with an API key: the request it sends and the promise it
    leaves. *)
Lemma newTask_with_key props w :
  is_Some (truthy (nt_apiKey props)) ->
  let h := fresh_handle w in
  let p := {| p_id := nt_id props; p_onText := nt_onText props;
              p_onDone := nt_onDone props; p_onError := nt_onError props;
              p_phase := Streaming "" |} in
  let body :=
    {| opt_model := Some (or_str (opt_model (nt_opts props)) "gpt-4o");
       opt_messages := Some (default [] (opt_messages (nt_opts props))) |} in
  let w1 := newTask props w in
  promises w1 = <[h := p]> (promises w) /\
  requests w1 = requests w ++ [(h, body)] /\
  results w1 = <[h := ""]> (results w) /\
  atom w1 = atom w ++ [CompletionTask.mk (nt_id props) h h] /\
  localStorage w1 = localStorage w /\ calls w1 = calls w /\
  settings w1 = settings w.
Proof.
  intros [k Hk]. simpl. unfold newTask, chatCompletion. by rewrite Hk.
Qed.

(** The request [newMessageCompletion] sends when the settings hold an API
    key, and the record it leaves for the node. *)
Lemma newMessageCompletion_sends msgId messages w :
  is_Some (truthy (SettingsStore.apiKey (settings w))) ->
  let w' := newMessageCompletion msgId messages w in
  requests w'
  = requests w ++
    [(fresh_handle w,
      {| opt_model :=
           Some (or_str (SettingsStore.model (settings w)) "gpt-4o");
         opt_messages := Some messages |})] /\
  storage_get msgId (localStorage w')
  = MsgStore.with_meta
      (Some (Meta.mk (SettingsStore.model (settings w)) None))
      (storage_get msgId (localStorage w)).
Proof.
  intros [k Hk]. simpl.
  unfold newMessageCompletion, newTask, chatCompletion. simpl. rewrite Hk.
  simpl. split; [done|].
  unfold storage_get, storage_set. by rewrite lookup_insert_eq.
Qed.

Lemma filter_task_ids id w :
  id ∉ map CompletionTask.id
         (List.filter
            (fun task => negb (bool_decide (CompletionTask.id task = id)))
            (atom w)).
Proof. apply (removeTask_ids id w). Qed.

End StreamFacts.

(** X8.  A task started with an API key, whose stream gives the chunks
    [cs] and ends: [onText] is called once for every chunk that has
    content, each time with all the text received so far, and not for a
    chunk without content; then the [then] handler runs once with the whole
    text, which the result atom holds.  One request was sent, and no task
    of this id is left in the registry, while the other tasks are. *)
Theorem stream_to_done (props : newTaskProps) (cs : list (option string))
    (w : World) :
  is_Some (truthy (nt_apiKey props)) ->
  let h := fresh_handle w in
  let text := chunks_text cs in
  let w' := steps h (map Chunk cs ++ [End; Microtask]) (newTask props w) in
  calls w'
  = calls w ++ map (CallOnText h) (cumulative "" cs) ++ [CallOnDone h text] /\
  results w' !! h = Some text /\
  requests w'
  = requests w ++
    [(h, {| opt_model := Some (or_str (opt_model (nt_opts props)) "gpt-4o");
            opt_messages :=
              Some (default [] (opt_messages (nt_opts props))) |})] /\
  (nt_id props ∉ task_ids w') /\
  (forall t, t ∈ atom w' <->
             t ∈ atom w /\ CompletionTask.id t <> nt_id props).
Proof.
  intros Hkey h text w'.
  destruct (newTask_with_key props w Hkey)
    as (Hpr1 & Hrq1 & Hrs1 & Hat1 & Hls1 & Hcl1 & Hst1).
  set (w1 := newTask props w) in *.
  set (p := Build_Promise _ _ _ _ _) in Hpr1.
  destruct (steps_chunks_trace cs w1 (fresh_handle w) p "")
    as (Hpr2 & Hcl2 & Hrs2 & Hat2 & Hrq2 & Hst2).
  { rewrite Hpr1. apply lookup_insert_eq. }
  { reflexivity. }
  set (w2 := steps (fresh_handle w) (map Chunk cs) w1) in *.
  destruct (steps_end_done (fresh_handle w)
              (set_phase (Streaming ("" +:+ chunks_text cs)) p)
              ("" +:+ chunks_text cs) w2)
    as (Hpr3 & Hls3 & Hrs3 & Hcl3 & Hat3 & Hrq3 & Hst3).
  { rewrite Hpr2. apply lookup_insert_eq. }
  { reflexivity. }
  assert (Hw' : w' = steps (fresh_handle w) [End; Microtask] w2).
  { unfold w', w2, h. by rewrite steps_app. }
  rewrite Hw'. split; [|split; [|split; [|split]]].
  - rewrite Hcl3, Hcl2, Hcl1. by rewrite <- app_assoc.
  - rewrite Hrs3. apply lookup_insert_eq.
  - by rewrite Hrq3, Hrq2, Hrq1.
  - unfold task_ids. rewrite Hat3. apply filter_task_ids.
  - intros t. rewrite Hat3, Hat2, Hat1.
    rewrite list_elem_of_In, List.filter_In, <- list_elem_of_In.
    rewrite negb_true_iff, bool_decide_eq_false, elem_of_app.
    rewrite list_elem_of_singleton. cbn [p p_id set_phase].
    split; [|intros [? ?]; by auto].
    intros [[Hin| ->] Hid]; [done|]. by destruct Hid.
Qed.

Lemma stream_to_done_witness :
  calls (steps 0 (map Chunk [Some "hel"; None; Some ""; Some "lo"]
                    ++ [End; Microtask])
           (newTask (example_props (Some "sk-key"))
                    (empty_world example_settings)))
  = [CallOnText 0 "hel"; CallOnText 0 "hello"; CallOnDone 0 "hello"].
Proof.
  destruct (stream_to_done (example_props (Some "sk-key"))
              [Some "hel"; None; Some ""; Some "lo"]
              (empty_world example_settings)) as (H & _).
  - by eexists.
  - exact H.
Defined.

(** X9.  With an API key in the settings, [newMessageCompletion] sends one
    request, with the messages it was given and with the model of the
    settings, or [gpt-4o] when the settings have none or the empty text:
    the model of a request is never empty.  The record of the node gets
    [meta] with the model exactly as the settings have it and without an
    error; its other properties and all other records are as before. *)
Theorem newMessageCompletion_request (msgId : string)
    (messages : list ChatMessage) (w : World) :
  is_Some (truthy (SettingsStore.apiKey (settings w))) ->
  let model := SettingsStore.model (settings w) in
  let w' := newMessageCompletion msgId messages w in
  requests w'
  = requests w ++
    [(fresh_handle w, {| opt_model := Some (or_str model "gpt-4o");
                         opt_messages := Some messages |})] /\
  or_str model "gpt-4o" <> "" /\
  storage_get msgId (localStorage w')
  = MsgStore.with_meta (Some (Meta.mk model None))
      (storage_get msgId (localStorage w)) /\
  (forall k, k <> msgId -> localStorage w' !! k = localStorage w !! k).
Proof.
  intros [k Hk]. simpl.
  unfold newMessageCompletion, newTask, chatCompletion. simpl. rewrite Hk.
  simpl. split; [done|]. split; [|split].
  - unfold or_str, truthy.
    destruct (SettingsStore.model (settings w)) as [m|]; [|done].
    simpl. by case_decide.
  - unfold storage_get, storage_set. by rewrite lookup_insert_eq.
  - intros k' Hne. unfold storage_set. by rewrite lookup_insert_ne.
Qed.

Lemma newMessageCompletion_request_witness :
  requests (newMessageCompletion "#a" []
              (empty_world (SettingsStore.mk (Some "") (Some "sk-key"))))
  = [(0%nat, {| opt_model := Some "gpt-4o"; opt_messages := Some [] |})] /\
  MsgStore.meta
    (storage_get "#a"
       (localStorage
          (newMessageCompletion "#a" []
             (empty_world (SettingsStore.mk (Some "") (Some "sk-key"))))))
  = Some (Meta.mk (Some "") None).
Proof.
  destruct (newMessageCompletion_request "#a" []
              (empty_world (SettingsStore.mk (Some "") (Some "sk-key"))))
    as (H1 & _ & H2 & _).
  - by eexists.
  - split; [exact H1|]. rewrite H2. reflexivity.
Defined.

(** X10.  Without an API key in the settings, [newMessageCompletion] sends
    nothing, and once the rejection was handled the record of the node
    has [meta.error] set to the JSON text of the error, which is [{}] (an
    [Error] has no enumerable property, so its message is not stored),
    next to the model of the settings; no task of the node is left. *)
Theorem newMessageCompletion_without_key (msgId : string)
    (messages : list ChatMessage) (w : World) :
  truthy (SettingsStore.apiKey (settings w)) = None ->
  let w' := step (fresh_handle w) Microtask
              (newMessageCompletion msgId messages w) in
  requests w' = requests w /\
  storage_get msgId (localStorage w')
  = MsgStore.with_meta
      (Some (Meta.mk (SettingsStore.model (settings w)) (Some "{}")))
      (storage_get msgId (localStorage w)) /\
  (forall k, k <> msgId -> localStorage w' !! k = localStorage w !! k) /\
  (msgId ∉ task_ids w').
Proof.
  intros Hkey. simpl.
  unfold newMessageCompletion, newTask, chatCompletion. simpl. rewrite Hkey.
  unfold step. simpl. rewrite lookup_insert_eq. simpl.
  split; [done|]. split; [|split].
  - unfold storage_get, storage_set. by rewrite !lookup_insert_eq.
  - intros k Hne. unfold storage_get, storage_set.
    by rewrite !lookup_insert_ne.
  - match goal with |- _ ∉ task_ids (removeTask ?i ?w) =>
      apply (removeTask_ids i w) end.
Qed.

Lemma newMessageCompletion_without_key_witness :
  MsgStore.meta
    (storage_get "#a"
       (localStorage
          (step 0 Microtask
             (newMessageCompletion "#a" []
                (empty_world (SettingsStore.mk (Some "gpt-4o") None))))))
  = Some (Meta.mk (Some "gpt-4o") (Some "{}")).
Proof.
  destruct (newMessageCompletion_without_key "#a" []
              (empty_world (SettingsStore.mk (Some "gpt-4o") None)))
    as (_ & H & _).
  - reflexivity.
  - exact (f_equal MsgStore.meta H).
Defined.

Section GenerationFacts.

Implicit Types (w : World) (p : Promise) (h : nat) (cs : list (option string)).

(** The promise [newMessageCompletion] leaves when the settings hold an API
    key, with its two callbacks. *)
Lemma newMessageCompletion_promise msgId messages w :
  is_Some (truthy (SettingsStore.apiKey (settings w))) ->
  let h := fresh_handle w in
  let msg := MsgStore.with_meta
               (Some (Meta.mk (SettingsStore.model (settings w)) None))
               (storage_get msgId (localStorage w)) in
  let p :=
    {| p_id := msgId;
       p_onText := Some (fun text =>
         storage_set msgId
           (MsgStore.with_content
              (Some (or_str (MsgStore.content msg) "" +:+ text +:+ " ")) msg));
       p_onDone := None;
       p_onError := Some (fun error ls =>
         let freshMsg := storage_get msgId ls in
         storage_set msgId
           (MsgStore.with_meta
              (Some (Meta.mk (MsgStore.meta freshMsg ≫= Meta.model)
                             (Some (err_json error))))
              freshMsg)
           ls);
       p_phase := Streaming "" |} in
  let w1 := newMessageCompletion msgId messages w in
  promises w1 = <[h := p]> (promises w) /\
  localStorage w1 = <[msgId := msg]> (localStorage w) /\
  atom w1 = atom w ++ [CompletionTask.mk msgId h h] /\
  results w1 = <[h := ""]> (results w) /\
  calls w1 = calls w.
Proof.
  intros [k Hk]. simpl.
  unfold newMessageCompletion, newTask, chatCompletion. simpl. by rewrite Hk.
Qed.

Lemma find_task_None x w : x ∉ task_ids w -> find_task x w = None.
Proof.
  unfold find_task, task_ids. intros Hx.
  destruct (List.find _ (atom w)) as [t|] eqn:Hfind; [|done].
  apply List.find_some in Hfind as [Hin Hid].
  apply bool_decide_eq_true in Hid. destruct Hx.
  apply list_elem_of_fmap. exists t. split; [done|].
  by apply list_elem_of_In.
Qed.

End GenerationFacts.

(** X11.  A generation that fails in mid-stream with an error other than a
    cancellation keeps what it received: the record of the node has the
    text so far (followed by a space) as its content when there was any,
    [meta.error] set to the JSON text of the error, and [meta.model] as it
    was; the result atom keeps the text, the [catch] handler ran once after
    the calls of [onText], and no task of the node is left. *)
Theorem generation_error_keeps_text (msgId : string)
    (messages : list ChatMessage) (cs : list (option string))
    (error : JsError) (w : World) :
  is_Some (truthy (SettingsStore.apiKey (settings w))) ->
  err_name error <> "AbortError" ->
  let h := fresh_handle w in
  let r := storage_get msgId (localStorage w) in
  let text := chunks_text cs in
  let w' := steps h (map Chunk cs ++ [Throw error; Microtask])
              (newMessageCompletion msgId messages w) in
  storage_get msgId (localStorage w')
  = MsgStore.with_meta
      (Some (Meta.mk (SettingsStore.model (settings w))
                     (Some (err_json error))))
      (if decide (text = "") then r
       else MsgStore.with_content
              (Some (or_str (MsgStore.content r) "" +:+ text +:+ " ")) r) /\
  results w' !! h = Some text /\
  calls w'
  = calls w ++ map (CallOnText h) (cumulative "" cs) ++ [CallOnError h error] /\
  (msgId ∉ task_ids w').
Proof.
  intros Hkey Hname h r text w'.
  destruct (newMessageCompletion_promise msgId messages w Hkey)
    as (Hpr1 & Hls1 & Hat1 & Hrs1 & Hcl1).
  set (w1 := newMessageCompletion msgId messages w) in *.
  set (p := Build_Promise _ _ _ _ _) in Hpr1.
  set (msg := MsgStore.with_meta _ _) in *.
  assert (Hp1 : promises w1 !! fresh_handle w = Some p).
  { rewrite Hpr1. apply lookup_insert_eq. }
  destruct (steps_chunks_trace cs w1 (fresh_handle w) p "" Hp1 eq_refl)
    as (Hpr2 & Hcl2 & Hrs2 & _).
  pose proof (steps_chunks msgId
    (fun text => MsgStore.with_content
       (Some (or_str (MsgStore.content msg) "" +:+ text +:+ " ")) msg)
    cs w1 (fresh_handle w) p "" Hp1 eq_refl eq_refl) as Hchunks.
  cbv zeta in Hchunks.
  set (w2 := steps (fresh_handle w) (map Chunk cs) w1) in *.
  destruct (steps_throw_error (fresh_handle w)
              (set_phase (Streaming ("" +:+ chunks_text cs)) p)
              ("" +:+ chunks_text cs) error w2)
    as (_ & Hls3 & Hrs3 & Hcl3 & Hat3 & _).
  { rewrite Hpr2. apply lookup_insert_eq. }
  { reflexivity. }
  { done. }
  assert (Hw' : w' = steps (fresh_handle w) [Throw error; Microtask] w2).
  { unfold w', w2, h. by rewrite steps_app. }
  rewrite Hw'. cbn [p_onError set_phase p] in Hls3.
  split; [|split; [|split]].
  - rewrite Hls3. unfold storage_get at 1, storage_set.
    rewrite lookup_insert_eq. cbn [default].
    destruct Hchunks as [[Htext Hw2]|(Htext & _ & _ & Hls2 & _)].
    + fold text in Htext. rewrite decide_True by done.
      rewrite Hw2, Hls1. unfold storage_get at 1 2.
      rewrite lookup_insert_eq. cbn [default]. unfold msg, r.
      by destruct (storage_get msgId (localStorage w)).
    + fold text in Htext. rewrite decide_False by done.
      rewrite Hls2. unfold storage_get at 1 2.
      rewrite lookup_insert_eq. cbn [default]. unfold msg, r.
      by destruct (storage_get msgId (localStorage w)).
  - rewrite Hrs3, lookup_insert_eq. f_equal.
    destruct (last_cumulative cs "") as [[Hcum Htext]| Hlast].
    + rewrite Hcum in Hrs2. cbn [last] in Hrs2.
      rewrite Hrs2, Hrs1, lookup_insert_eq. unfold text. by rewrite Htext.
    + rewrite Hlast in Hrs2. by rewrite Hrs2, lookup_insert_eq.
  - rewrite Hcl3, Hcl2, Hcl1. by rewrite <- app_assoc.
  - unfold task_ids. rewrite Hat3. apply filter_task_ids.
Qed.

Lemma generation_error_keeps_text_witness :
  let w' := steps 0 (map Chunk [Some "hel"]
                       ++ [Throw {| err_name := "APIError";
                                    err_json := "{}" |}; Microtask])
              (newMessageCompletion "#a" []
                 (empty_world example_settings)) in
  MsgStore.content (storage_get "#a" (localStorage w')) = Some "hel " /\
  MsgStore.meta (storage_get "#a" (localStorage w'))
  = Some (Meta.mk (Some "gpt-4o") (Some "{}")).
Proof.
  destruct (generation_error_keeps_text "#a" [] [Some "hel"]
              {| err_name := "APIError"; err_json := "{}" |}
              (empty_world example_settings)) as (H & _).
  - by eexists.
  - discriminate.
  - split; [exact (f_equal MsgStore.content H)
           |exact (f_equal MsgStore.meta H)].
Defined.

(** X12.  [removeTask] goes by id, not by task: when two tasks were started
    under one id and the first of them settles, the registry holds no task
    of that id any more, although the second one is still streaming; it
    can no longer be found, and so not be aborted, through the registry. *)
Theorem settling_unregisters_tasks_of_same_id (props1 props2 : newTaskProps)
    (w : World) :
  nt_id props1 = nt_id props2 ->
  is_Some (truthy (nt_apiKey props1)) ->
  is_Some (truthy (nt_apiKey props2)) ->
  let h1 := fresh_handle w in
  let w1 := newTask props1 w in
  let h2 := fresh_handle w1 in
  let w2 := newTask props2 w1 in
  let w' := steps h1 [End; Microtask] w2 in
  h1 <> h2 /\
  CompletionTask.mk (nt_id props2) h2 h2 ∈ atom w2 /\
  find_task (nt_id props2) w' = None /\
  (p_phase <$> promises w' !! h2) = Some (Streaming "").
Proof.
  intros Hid Hkey1 Hkey2 h1 w1 h2 w2 w'.
  destruct (newTask_with_key props1 w Hkey1) as (Hpr1 & _).
  destruct (newTask_with_key props2 w1 Hkey2) as (Hpr2 & _ & _ & Hat2 & _).
  fold w1 in Hpr1. fold w2 h2 in Hpr2, Hat2.
  set (p1 := Build_Promise _ _ _ _ _) in Hpr1.
  set (p2 := Build_Promise _ _ _ _ _) in Hpr2.
  assert (Hne : h1 <> h2).
  { intros Heq. pose proof (fresh_handle_unused w1) as Hfresh.
    fold h2 in Hfresh. rewrite <- Heq, Hpr1 in Hfresh.
    unfold h1 in Hfresh. by rewrite lookup_insert_eq in Hfresh. }
  destruct (steps_end_done h1 p1 "" w2)
    as (Hpr3 & _ & _ & _ & Hat3 & _).
  { rewrite Hpr2, lookup_insert_ne by done. rewrite Hpr1.
    apply lookup_insert_eq. }
  { reflexivity. }
  fold w' in Hpr3, Hat3.
  split; [done|]. split; [|split].
  - rewrite Hat2. apply elem_of_app. right. apply list_elem_of_here.
  - apply find_task_None. unfold task_ids. rewrite Hat3.
    rewrite <- Hid. apply filter_task_ids.
  - rewrite Hpr3, lookup_insert_ne by done.
    by rewrite Hpr2, lookup_insert_eq.
Qed.

Lemma settling_unregisters_tasks_of_same_id_witness :
  let w2 := newTask (example_props (Some "sk-key"))
              (newTask (example_props (Some "sk-key"))
                       (empty_world example_settings)) in
  find_task "#x" (steps 0 [End; Microtask] w2) = None /\
  (p_phase <$> promises (steps 0 [End; Microtask] w2) !! 1%nat)
  = Some (Streaming "").
Proof.
  destruct (settling_unregisters_tasks_of_same_id
              (example_props (Some "sk-key")) (example_props (Some "sk-key"))
              (empty_world example_settings)) as (_ & _ & H1 & H2).
  - reflexivity.
  - by eexists.
  - by eexists.
  - split; [exact H1|exact H2].
Defined.

(** X13.  [onText] does not read storage: a chunk with content writes the
    record of the node as it was when the generation started (with the
    model in [meta]), its content replaced by the old content and all the
    text received so far, followed by a space.  Whatever was stored for the
    node since then (an edit of its content, a weight, an error) is
    overwritten; the other records are not touched. *)
Theorem chunk_overwrites_record (msgId : string)
    (messages : list ChatMessage) (cs : list (option string))
    (f : Records -> Records) (c : string) (w : World) :
  is_Some (truthy (SettingsStore.apiKey (settings w))) ->
  c <> "" ->
  let h := fresh_handle w in
  let r := storage_get msgId (localStorage w) in
  let w1 := steps h (map Chunk cs) (newMessageCompletion msgId messages w) in
  let w2 := step h (Chunk (Some c)) (set_localStorage f w1) in
  storage_get msgId (localStorage w2)
  = MsgStore.with_content
      (Some (or_str (MsgStore.content r) "" +:+ (chunks_text cs +:+ c) +:+ " "))
      (MsgStore.with_meta
         (Some (Meta.mk (SettingsStore.model (settings w)) None)) r) /\
  (forall k, k <> msgId -> localStorage w2 !! k = f (localStorage w1) !! k).
Proof.
  intros Hkey Hc h r w1 w2.
  destruct (newMessageCompletion_promise msgId messages w Hkey)
    as (Hpr1 & _).
  set (w0 := newMessageCompletion msgId messages w) in *.
  set (p := Build_Promise _ _ _ _ _) in Hpr1.
  destruct (steps_chunks_trace cs w0 (fresh_handle w) p "")
    as (Hpr2 & _).
  { rewrite Hpr1. apply lookup_insert_eq. }
  { reflexivity. }
  fold h w1 in Hpr2.
  assert (Hstep : w2 = step h (Chunk (Some c)) (set_localStorage f w1))
    by reflexivity.
  rewrite (step_chunk_truthy (set_localStorage f w1) h
             (set_phase (Streaming ("" +:+ chunks_text cs)) p)
             ("" +:+ chunks_text cs) (Some c) c) in Hstep.
  - rewrite Hstep. cbn. unfold storage_get at 1, storage_set. split.
    + by rewrite lookup_insert_eq.
    + intros k Hne. by rewrite lookup_insert_ne.
  - cbn [promises set_localStorage]. rewrite Hpr2. apply lookup_insert_eq.
  - reflexivity.
  - unfold truthy. by rewrite decide_False.
Qed.

Lemma chunk_overwrites_record_witness :
  let edit :=
    storage_set "#a"
      (MsgStore.mk (Some 3) (Some "edited") None None None (Some assistant)
                   (Some "#a") None) in
  MsgStore.content
    (storage_get "#a"
       (localStorage
          (step 0 (Chunk (Some "lo"))
             (set_localStorage edit
                (steps 0 (map Chunk [Some "hel"])
                   (newMessageCompletion "#a" []
                      (empty_world example_settings)))))))
  = Some "hello " /\
  MsgStore.weight
    (storage_get "#a"
       (localStorage
          (step 0 (Chunk (Some "lo"))
             (set_localStorage edit
                (steps 0 (map Chunk [Some "hel"])
                   (newMessageCompletion "#a" []
                      (empty_world example_settings)))))))
  = None.
Proof.
  intros edit.
  destruct (chunk_overwrites_record "#a" [] [Some "hel"] edit "lo"
              (empty_world example_settings)) as (H & _).
  - by eexists.
  - discriminate.
  - split; [exact (f_equal MsgStore.content H)
           |exact (f_equal MsgStore.weight H)].
Defined.

(* ===================================================================== *)
(** * The weight effect, deletion and branching, once more *)
(* ===================================================================== *)

(** The effect at a render of what storage holds stores the sum over the
    children, and the effect of the render after it writes nothing. *)
Lemma layoutEffect_fixed id initialContent w :
  id ∉ children (localStorage w) id ->
  let w' := layoutEffect (mount id initialContent w) w in
  weight_ok (localStorage w') id /\
  layoutEffect (mount id initialContent w') w' = w'.
Proof.
  intros Hnot w'.
  destruct (layoutEffect_spec id initialContent w Hnot) as (Hr & Hcw & _).
  fold w' in Hr, Hcw. split.
  - unfold weight_ok. by rewrite Hr, Hcw.
  - unfold layoutEffect at 1. rewrite weight_mount.
    change (parentMsg (mount id initialContent w'))
      with (storage_get id (localStorage w')).
    rewrite Hr, Hcw. cbn [MsgStore.weight MsgStore.with_weight].
    by rewrite decide_True.
Qed.

(** An effect at a render that holds the record of the node as stored but
    may have read the children earlier, and then the effect of the render
    that follows: together they leave what one effect at a render of what
    storage holds leaves. *)
Lemma layoutEffect_stale_then_fresh (m0 : Message)
    (initialContent : list ChatMessage) (w : World) :
  id m0 ∉ children (localStorage w) (id m0) ->
  parentMsg m0 = storage_get (id m0) (localStorage w) ->
  let w1 := layoutEffect m0 w in
  layoutEffect (mount (id m0) initialContent w1) w1
  = layoutEffect (mount (id m0) initialContent w) w.
Proof.
  intros Hnot Hcur w1.
  set (w2 := layoutEffect (mount (id m0) initialContent w1) w1).
  set (n := id m0) in *.
  change (w2 = layoutEffect (mount n initialContent w) w).
  set (r := storage_get n (localStorage w)) in *.
  set (s := weight m0) in *.
  set (w1' := set_localStorage
                (storage_set n (MsgStore.with_weight (Some s) (parentMsg m0)))
                w).
  assert (Hcase : w1 = w \/
                  (Some s <> MsgStore.weight (parentMsg m0) /\ w1 = w1')).
  { unfold w1, layoutEffect. fold s n. case_decide; [by left|by right]. }
  destruct Hcase as [Hw1|[Hw Hw1]]; unfold w2; rewrite Hw1; [done|].
  assert (Hc : children_weight (localStorage w1') n
               = children_weight (localStorage w) n).
  { unfold w1'. cbn [localStorage set_localStorage]. unfold storage_set.
    apply children_weight_insert; [|done]. by rewrite Hcur. }
  unfold layoutEffect. rewrite !weight_mount, Hc.
  change (parentMsg (mount n initialContent w1'))
    with (storage_get n (localStorage w1')).
  change (parentMsg (mount n initialContent w))
    with (storage_get n (localStorage w)).
  change (id (mount n initialContent w1')) with n.
  change (id (mount n initialContent w)) with n.
  fold r.
  assert (Hr1 : storage_get n (localStorage w1')
                = MsgStore.with_weight (Some s) (parentMsg m0)).
  { unfold w1'. cbn [localStorage set_localStorage].
    unfold storage_get, storage_set. by rewrite lookup_insert_eq. }
  rewrite Hr1, Hcur. fold r. cbn [MsgStore.weight MsgStore.with_weight].
  rewrite Hcur in Hw. fold r in Hw.
  set (c := children_weight (localStorage w) n) in *.
  destruct (decide (Some c = Some s)) as [Hcs|Hcs].
  + inversion Hcs as [Hcs']. rewrite decide_False by (by rewrite Hcs').
    unfold w1'. by rewrite Hcs', Hcur.
  + destruct (decide (Some c = MsgStore.weight r)) as [Hcr|Hcr].
    * unfold w1'. destruct w as [ls st ar rs rq pr cl].
      unfold set_localStorage.
      cbn [localStorage settings atom results requests promises calls] in *.
      f_equal. unfold storage_set. rewrite insert_insert_eq.
      apply insert_id.
      assert (Hsome : is_Some (ls !! n)).
      { destruct (ls !! n) eqn:E; [by eexists|].
        unfold r, storage_get in Hcr. rewrite E in Hcr. discriminate Hcr. }
      destruct Hsome as [x Hx]. rewrite Hx.
      unfold r, storage_get in Hcr |- *. rewrite Hx in Hcr |- *.
      cbn [default] in *.
      destruct x. cbn in *. by rewrite <- Hcr.
    * unfold w1'. destruct w as [ls st ar rs rq pr cl].
      unfold set_localStorage.
      cbn [localStorage settings atom results requests promises calls] in *.
      f_equal. unfold storage_set. by rewrite insert_insert_eq.
Qed.

(** X14.  The layout effect has no dependency list, so it runs after every
    render, and it asks for a render when it writes.  Let the first effect
    run at any render [m0] of a node that is not its own child (also one
    that read the children before their own effects wrote, as happens when
    the effects of a commit run children first).  The effect of the render
    that follows stores the sum over the stored children, and the effect
    after that finds this weight stored and writes nothing: the chain ends
    after at most two writes.  When [m0] had read the node's own record as
    stored, the state reached is that of one effect at a render of what
    storage holds; and when [m0] was such a render, the second effect
    already writes nothing. *)
Theorem layoutEffect_settles (m0 : Message)
    (initialContent : list ChatMessage) (w : World) :
  id m0 ∉ children (localStorage w) (id m0) ->
  id m0 ∉ default [] (MsgStore.messages (parentMsg m0)) ->
  let w1 := layoutEffect m0 w in
  let w2 := layoutEffect (mount (id m0) initialContent w1) w1 in
  weight_ok (localStorage w2) (id m0) /\
  layoutEffect (mount (id m0) initialContent w2) w2 = w2 /\
  (parentMsg m0 = storage_get (id m0) (localStorage w) ->
   w2 = layoutEffect (mount (id m0) initialContent w) w) /\
  (m0 = mount (id m0) initialContent w -> w2 = w1).
Proof.
  intros Hnot Hnot0 w1 w2.
  set (n := id m0) in *.
  assert (Hnot1 : n ∉ children (localStorage w1) n).
  { unfold w1, layoutEffect. case_decide; [exact Hnot|].
    cbn [localStorage set_localStorage].
    unfold children, storage_get, storage_set.
    fold n. by rewrite lookup_insert_eq. }
  destruct (layoutEffect_fixed n initialContent w1 Hnot1) as [Hok Hfix].
  fold w2 in Hok, Hfix.
  split; [exact Hok|]. split; [exact Hfix|]. split.
  - intros Hcur. by apply layoutEffect_stale_then_fresh.
  - intros Hm. unfold w2.
    assert (Hw1 : w1 = layoutEffect (mount n initialContent w) w).
    { unfold w1. by rewrite <- Hm. }
    rewrite Hw1.
    by destruct (layoutEffect_fixed n initialContent w Hnot) as [_ ->].
Qed.

(** The root of the example, rendered before the effect of [#aaaa] has
    written: the effect of that render stores 1, the effect of the render
    that follows stores 2, and the one after that writes nothing. *)
Lemma layoutEffect_settles_witness :
  let w := layoutEffect (mount "#aaaa" (hi_path []) example_world)
                        example_world in
  let w1 := layoutEffect (mount "#0000" [] example_world) w in
  let w2 := layoutEffect (mount "#0000" [] w1) w1 in
  MsgStore.weight (storage_get "#0000" (localStorage w1)) = Some 1 /\
  MsgStore.weight (storage_get "#0000" (localStorage w2)) = Some 2 /\
  weight_ok (localStorage w2) "#0000" /\
  layoutEffect (mount "#0000" [] w2) w2 = w2.
Proof.
  destruct (layoutEffect_settles (mount "#0000" [] example_world) []
              (layoutEffect (mount "#aaaa" (hi_path []) example_world)
                            example_world))
    as (H1 & H2 & _).
  - vm_compute. intros H.
    apply elem_of_cons in H as [H|H]; [discriminate H|].
    by apply elem_of_nil in H.
  - vm_compute. intros H.
    apply elem_of_cons in H as [H|H]; [discriminate H|].
    by apply elem_of_nil in H.
  - cbv zeta. split; [reflexivity|]. split; [reflexivity|].
    split; [exact H1|exact H2].
Defined.

Section MoreDelete.

Implicit Types (w : World) (ls : Records).

Lemma reachable_incl ls ls' a x :
  (forall n c, c ∈ children ls' n -> c ∈ children ls n) ->
  reachable ls' a x -> reachable ls a x.
Proof.
  intros Hsub Hreach. induction Hreach as [a|a y z Hy _ IH]; [constructor|].
  apply reachable_step with y; [by apply Hsub|done].
Qed.

Lemma newMessageCompletion_requests_length msgId messages w :
  length (requests (newMessageCompletion msgId messages w))
  = (length (requests w)
     + (if bool_decide (is_Some (truthy (SettingsStore.apiKey (settings w))))
        then 1 else 0))%nat.
Proof.
  unfold newMessageCompletion, newTask, chatCompletion.
  cbn [settings set_localStorage nt_apiKey].
  destruct (truthy (SettingsStore.apiKey (settings w))) as [k|].
  - rewrite bool_decide_eq_true_2 by (by eexists).
    cbn. by rewrite length_app.
  - rewrite bool_decide_eq_false_2 by (by intros [? ?]).
    cbn. lia.
Qed.

End MoreDelete.

(** X15.  Deleting a child touches the subtree of that child and the record
    of the parent, nothing else: every record that is not the parent's and
    not of a node at or below the deleted child is as before, and so are
    the registry, the promises, the result atoms, the requests and the
    settings (a task of a deleted node is asked to abort; it leaves the
    registry when it settles). *)
Theorem handleItemDelete_frame (id : string)
    (initialContent : list ChatMessage) (msgId : string) (w : World) :
  exists w',
    handleItemDelete (mount id initialContent w) msgId w = Some w' /\
    (forall y, y <> id -> ~ reachable (localStorage w) msgId y ->
               localStorage w' !! y = localStorage w !! y) /\
    atom w' = atom w /\ promises w' = promises w /\
    results w' = results w /\ requests w' = requests w /\
    settings w' = settings w /\ calls w `prefix_of` calls w'.
Proof.
  unfold handleItemDelete.
  set (m := mount id initialContent w).
  set (w1 := set_localStorage _ w).
  destruct (recDel_terminates (S (size (localStorage w1))) msgId w1)
    as (w' & Hrun & (_ & (Hst & Hat & Hrs & Hrq & Hpr & Hcl) & _) & _);
    [lia|].
  exists w'. split; [exact Hrun|]. split; [|done].
  intros y Hne Hnot.
  assert (Hy1 : localStorage w1 !! y = localStorage w !! y).
  { unfold w1. cbn [localStorage set_localStorage]. unfold storage_set.
    by rewrite lookup_insert_ne. }
  destruct (recDel_frame _ _ _ _ Hrun y) as [Heq|[_ Hreach]];
    [by rewrite Heq|].
  destruct Hnot. eapply reachable_incl; [|exact Hreach].
  intros n c. unfold w1. cbn [localStorage set_localStorage].
  unfold storage_set, children, storage_get.
  destruct (decide (n = id)) as [->|Hn].
  - rewrite lookup_insert_eq. cbn.
    unfold newMsgs. rewrite list_elem_of_In, List.filter_In.
    intros [Hin _]. by apply list_elem_of_In.
  - by rewrite lookup_insert_ne.
Qed.

(** X16.  [newBranch] starts at most one generation: for the answer node
    [#nanoid2] when an answer is asked for, the content is not empty and
    the new node is a user node; for the new node [#nanoid1] itself when it
    is to be filled, no answer is asked for and it is an assistant node;
    and none otherwise, so none for a text sent into a list of assistant
    nodes, which becomes one more assistant node.  A request is sent only
    with a generation, and none when the settings have no API key. *)
Theorem newBranch_starts_at_most_one (m : Message) (nanoid1 nanoid2 : string)
    (content : option string) (fillContent addAnswer : bool) (w : World) :
  let w' := newBranch m nanoid1 nanoid2 content fillContent addAnswer w in
  let answer :=
    addAnswer && bool_decide (is_Some (truthy content))
    && bool_decide (newBranch_role m = user) in
  let fill :=
    fillContent && negb addAnswer
    && bool_decide (newBranch_role m = assistant) in
  task_ids w'
  = task_ids w ++ (if answer then ["#" +:+ nanoid2]
                   else if fill then ["#" +:+ nanoid1] else []) /\
  (answer && fill = false) /\
  length (requests w')
  = (length (requests w)
     + (if (answer || fill)
           && bool_decide (is_Some (truthy (SettingsStore.apiKey (settings w))))
        then 1 else 0))%nat.
Proof.
  unfold newBranch, newBranch_role.
  destruct addAnswer, fillContent, (truthy content) as [c|],
    (default (defaultChildRole m)
             (selectedMsg m ≫= fun s => MsgStore.role (data s)));
    cbn [set_localStorage atom task_ids requests andb orb negb length];
    (split; [|split; [done|]]);
    rewrite ?bool_decide_eq_true_2 by (try done; by eexists);
    rewrite ?bool_decide_eq_false_2 by (try done; by intros [? ?]);
    cbn [andb orb negb];
    try (rewrite List.app_nil_r; reflexivity);
    try (rewrite Nat.add_0_r; reflexivity);
    try match goal with
        | |- context [newMessageCompletion ?i ?ms ?w0] =>
            apply (newMessageCompletion_task_ids i ms w0)
        end.
  all: match goal with
       | |- context [newMessageCompletion ?i ?ms ?w0] =>
           rewrite (newMessageCompletion_requests_length i ms w0)
       end; reflexivity.
Qed.

(* ===================================================================== *)
(** * Sending a message, and what the next renders show *)
(* ===================================================================== *)

Section SendFacts.

Implicit Types (w : World) (ls : Records).

Lemma hash_inj (a b : string) : "#" +:+ a = "#" +:+ b -> a = b.
Proof. intros H. by injection H. Qed.

(** A text sent where the new node is a user node: the four writes and the
    generation, in the order of [newBranch]. *)
Lemma onSubmit_send_user id ic nanoid1 nanoid2 content w :
  content <> "" ->
  newBranch_role (mount id ic w) = user ->
  let U := "#" +:+ nanoid1 in
  let A := "#" +:+ nanoid2 in
  let path := ic ++ [{| chat_role := node_role user;
                        chat_content := content |}] in
  let parent := storage_get id (localStorage w) in
  onSubmit (mount id ic w) nanoid1 nanoid2 content send w
  = set_localStorage
      (storage_set id
         (MsgStore.with_select (Some (notnull U))
            (MsgStore.with_messages
               (Some (U :: default [] (MsgStore.messages parent))) parent)))
      (set_localStorage
         (storage_set U
            (MsgStore.mk None (Some content) (Some [A]) (Some (notnull A))
                         None (Some user) (Some U) None))
         (newMessageCompletion A path
            (set_localStorage (storage_set A (placeholder A)) w))).
Proof.
  intros Hc Hrole. unfold onSubmit, newBranch.
  unfold newBranch_role in Hrole. rewrite Hrole.
  unfold truthy. rewrite decide_False by done. reflexivity.
Qed.

Lemma selectedMsg_first id ic w c l r :
  MsgStore.messages (storage_get id (localStorage w)) = Some (c :: l) ->
  MsgStore.select (storage_get id (localStorage w)) = Some (notnull r) ->
  MsgStore.id (storage_get c (localStorage w)) = Some r ->
  selectedMsg (mount id ic w)
  = Some {| data := storage_get c (localStorage w); task := find_task c w |}.
Proof.
  intros Hms Hsel Hid. unfold selectedMsg, mount, render.
  cbn [childMsgs parentMsg]. rewrite Hms, Hsel. cbn [map List.find data].
  rewrite Hid. cbn [strict_eq]. by rewrite bool_decide_eq_true_2.
Qed.

End SendFacts.

(** X17.  A text sent where the new node is a user node: the request for
    the answer carries the messages of the path, that is the
    [initialContent] of the component followed by the text as a user
    message.  At the next render the new node is the selected one, and the
    component rendered for it gets just these messages as its
    [initialContent]: what is asked below the new node continues the
    context the answer was asked with. *)
Theorem send_then_child_component (id : string) (ic : list ChatMessage)
    (nanoid1 nanoid2 content : string) (w : World) :
  is_Some (truthy (SettingsStore.apiKey (settings w))) ->
  content <> "" ->
  newBranch_role (mount id ic w) = user ->
  "#" +:+ nanoid1 <> id ->
  nanoid1 <> nanoid2 ->
  "#" +:+ nanoid1 ∉ task_ids w ->
  let U := "#" +:+ nanoid1 in
  let path := ic ++ [{| chat_role := node_role user;
                        chat_content := content |}] in
  let w' := onSubmit (mount id ic w) nanoid1 nanoid2 content send w in
  requests w'
  = requests w ++
    [(fresh_handle w,
      {| opt_model :=
           Some (or_str (SettingsStore.model (settings w)) "gpt-4o");
         opt_messages := Some path |})] /\
  selectedMemoProps (mount id ic w')
  = Some {| mp_id := U; mp_role := Some user; mp_content := Some content;
            mp_initialContent := path |} /\
  childMessage (mount id ic w') w' = Some (mount U path w') /\
  children (localStorage w') id = U :: children (localStorage w) id.
Proof.
  intros Hkey Hc Hrole HU Hn Htask U path w'.
  pose proof (onSubmit_send_user id ic nanoid1 nanoid2 content w Hc Hrole)
    as Hw'. cbv zeta in Hw'. fold U path w' in Hw'.
  set (A := "#" +:+ nanoid2) in *.
  set (w0 := set_localStorage (storage_set A (placeholder A)) w) in *.
  destruct (newMessageCompletion_sends A path w0 Hkey) as (Hrq & _).
  assert (HUA : U <> A) by (intros H; by apply hash_inj in H).
  assert (Hsel : selectedMsg (mount id ic w')
                 = Some {| data := MsgStore.mk None (Some content) (Some [A])
                                     (Some (notnull A)) None (Some user)
                                     (Some U) None;
                           task := None |}).
  { assert (HlsU : storage_get U (localStorage w')
                   = MsgStore.mk None (Some content) (Some [A])
                       (Some (notnull A)) None (Some user) (Some U) None).
    { rewrite Hw'. cbn [localStorage set_localStorage].
      unfold storage_get, storage_set.
      rewrite lookup_insert_ne by done. by rewrite lookup_insert_eq. }
    assert (Hlsid : storage_get id (localStorage w')
                    = MsgStore.with_select (Some (notnull U))
                        (MsgStore.with_messages
                           (Some (U :: default []
                                    (MsgStore.messages
                                       (storage_get id (localStorage w)))))
                           (storage_get id (localStorage w)))).
    { rewrite Hw'. cbn [localStorage set_localStorage].
      unfold storage_get at 1, storage_set. by rewrite lookup_insert_eq. }
    rewrite (selectedMsg_first id ic w' U
               (default [] (MsgStore.messages (storage_get id (localStorage w))))
               U).
    - rewrite HlsU. do 2 f_equal. apply find_task_None.
      rewrite Hw'. cbn [task_ids atom set_localStorage].
      change (U ∉ task_ids (newMessageCompletion A path w0)).
      rewrite newMessageCompletion_task_ids.
      intros [H|H%list_elem_of_singleton]%elem_of_app; [|done].
      by apply Htask.
    - by rewrite Hlsid.
    - by rewrite Hlsid.
    - by rewrite HlsU. }
  split; [|split; [|split]].
  - rewrite Hw'. cbn [requests set_localStorage]. exact Hrq.
  - unfold selectedMemoProps. rewrite Hsel. cbn [data MsgStore.id].
    unfold truthy at 1. rewrite decide_False by done.
    cbn [MsgStore.role MsgStore.content]. unfold truthy.
    by rewrite decide_False.
  - unfold childMessage, selectedMemoProps. rewrite Hsel.
    cbn [data MsgStore.id].
    unfold truthy at 1. rewrite decide_False by done.
    cbn [MsgStore.role MsgStore.content mbind option_bind task].
    unfold truthy. by rewrite decide_False.
  - rewrite Hw'. cbn [localStorage set_localStorage].
    unfold children at 1, storage_get at 1, storage_set.
    by rewrite lookup_insert_eq.
Qed.

Lemma send_then_child_component_witness :
  let w' := onSubmit (mount "#0000" [] (empty_world example_settings))
              "aaaa" "bbbb" "hi" send (empty_world example_settings) in
  requests w'
  = [(0%nat, {| opt_model := Some "gpt-4o";
                opt_messages := Some (hi_path []) |})] /\
  mp_initialContent <$> selectedMemoProps (mount "#0000" [] w')
  = Some (hi_path []).
Proof.
  destruct (send_then_child_component "#0000" [] "aaaa" "bbbb" "hi"
              (empty_world example_settings)) as (H1 & H2 & _).
  - by eexists.
  - discriminate.
  - reflexivity.
  - discriminate.
  - discriminate.
  - apply not_elem_of_nil.
  - split; [exact H1|]. cbv zeta. rewrite H2. reflexivity.
Defined.

(** X18.  "Roll another response" asks with the same context as the answer
    it is rolled for.  After a text was sent (the new node a user node
    with an answer node below it), in the component of the new node the
    selected child is the answer node, an assistant node, so the button
    is there; it sends a second request with the model and the messages of
    the first one, and puts a new node in front of the answer node as the
    selected child. *)
Theorem roll_another_same_context (id : string) (ic : list ChatMessage)
    (nanoid1 nanoid2 nanoid3 nanoid4 content : string) (w : World) :
  is_Some (truthy (SettingsStore.apiKey (settings w))) ->
  content <> "" ->
  newBranch_role (mount id ic w) = user ->
  "#" +:+ nanoid1 <> id ->
  "#" +:+ nanoid2 <> id ->
  nanoid1 <> nanoid2 ->
  let U := "#" +:+ nanoid1 in
  let A := "#" +:+ nanoid2 in
  let N := "#" +:+ nanoid3 in
  let path := ic ++ [{| chat_role := node_role user;
                        chat_content := content |}] in
  let body := {| opt_model :=
                   Some (or_str (SettingsStore.model (settings w)) "gpt-4o");
                 opt_messages := Some path |} in
  let w' := onSubmit (mount id ic w) nanoid1 nanoid2 content send w in
  let w'' := rollAnother (mount U path w') nanoid3 nanoid4 w' in
  (selectedMsg (mount U path w') ≫= fun s => MsgStore.role (data s))
  = Some assistant /\
  requests w''
  = requests w ++ [(fresh_handle w, body); (fresh_handle w', body)] /\
  children (localStorage w'') U = [N; A] /\
  MsgStore.select (storage_get U (localStorage w'')) = Some (notnull N).
Proof.
  intros Hkey Hc Hrole HU HA Hn U A N path body w' w''.
  pose proof (onSubmit_send_user id ic nanoid1 nanoid2 content w Hc Hrole)
    as Hw'. cbv zeta in Hw'. fold U A path w' in Hw'.
  set (w0 := set_localStorage (storage_set A (placeholder A)) w) in *.
  destruct (newMessageCompletion_sends A path w0 Hkey) as (Hrq & HlsA0).
  assert (HUA : U <> A) by (intros H; by apply hash_inj in H).
  assert (Hst : settings w' = settings w).
  { rewrite Hw'. cbn [settings set_localStorage].
    destruct (newMessageCompletion_start A path w0 Hkey)
      as (p & _ & _ & _ & _ & _ & _ & _ & _ & _ & H & _). exact H. }
  assert (HlsU : storage_get U (localStorage w')
                 = MsgStore.mk None (Some content) (Some [A])
                     (Some (notnull A)) None (Some user) (Some U) None).
  { rewrite Hw'. cbn [localStorage set_localStorage].
    unfold storage_get, storage_set.
    rewrite lookup_insert_ne by done. by rewrite lookup_insert_eq. }
  assert (HlsA : storage_get A (localStorage w')
                 = placeholder_with_model (SettingsStore.model (settings w)) A).
  { rewrite Hw'. cbn [localStorage set_localStorage].
    unfold storage_get at 1, storage_set at 1 2.
    rewrite !lookup_insert_ne by done.
    change (storage_get A (localStorage (newMessageCompletion A path w0))
            = placeholder_with_model (SettingsStore.model (settings w)) A).
    rewrite HlsA0. unfold w0. cbn [localStorage set_localStorage settings].
    unfold storage_get, storage_set. by rewrite lookup_insert_eq. }
  assert (Hsel : selectedMsg (mount U path w')
                 = Some {| data := placeholder_with_model
                                     (SettingsStore.model (settings w)) A;
                           task := find_task A w' |}).
  { rewrite (selectedMsg_first U path w' A [] A).
    - by rewrite HlsA.
    - by rewrite HlsU.
    - by rewrite HlsU.
    - by rewrite HlsA. }
  assert (Hrole' : newBranch_role (mount U path w') = assistant).
  { unfold newBranch_role. by rewrite Hsel. }
  assert (Hw'' : w''
    = set_localStorage
        (storage_set U
           (MsgStore.with_select (Some (notnull N))
              (MsgStore.with_messages
                 (Some (N :: default []
                          (MsgStore.messages (storage_get U (localStorage w')))))
                 (storage_get U (localStorage w')))))
        (newMessageCompletion N path
           (set_localStorage
              (storage_set N
                 (MsgStore.mk None None None None None (Some assistant)
                              (Some N) None))
              w'))).
  { unfold w'', rollAnother, newBranch.
    unfold newBranch_role in Hrole'. rewrite Hrole'. reflexivity. }
  split; [by rewrite Hsel|]. split; [|split].
  - rewrite Hw''. cbn [requests set_localStorage].
    set (w1 := set_localStorage _ w').
    destruct (newMessageCompletion_sends N path w1) as (Hrq2 & _).
    { unfold w1. cbn [settings set_localStorage]. by rewrite Hst. }
    rewrite Hrq2. unfold w1 at 1 2 3.
    cbn [requests set_localStorage settings]. rewrite Hst.
    rewrite Hw' at 1. cbn [requests set_localStorage]. rewrite Hrq.
    unfold w0 at 1 2 3. cbn [requests set_localStorage settings].
    by rewrite <- app_assoc.
  - rewrite Hw''. cbn [localStorage set_localStorage].
    unfold children, storage_get at 1, storage_set at 1.
    rewrite lookup_insert_eq. by rewrite HlsU.
  - rewrite Hw''. cbn [localStorage set_localStorage].
    unfold storage_get at 1, storage_set at 1.
    by rewrite lookup_insert_eq.
Qed.

Lemma roll_another_same_context_witness :
  let w' := onSubmit (mount "#0000" [] (empty_world example_settings))
              "aaaa" "bbbb" "hi" send (empty_world example_settings) in
  map snd (requests (rollAnother (mount "#aaaa" (hi_path []) w')
                       "cccc" "dddd" w'))
  = [{| opt_model := Some "gpt-4o"; opt_messages := Some (hi_path []) |};
     {| opt_model := Some "gpt-4o"; opt_messages := Some (hi_path []) |}].
Proof.
  destruct (roll_another_same_context "#0000" [] "aaaa" "bbbb" "cccc" "dddd"
              "hi" (empty_world example_settings)) as (_ & H & _).
  - by eexists.
  - discriminate.
  - reflexivity.
  - discriminate.
  - discriminate.
  - discriminate.
  - cbv zeta. exact (f_equal (map snd) H).
Defined.

Section NewChatFacts.

Implicit Types (w : World) (ls : Records).

Lemma find_none_map {A B : Type} (f : A -> B) (P : B -> bool) (l : list A) :
  (forall a, a ∈ l -> P (f a) = false) -> List.find P (map f l) = None.
Proof.
  induction l as [|a l IH]; intros H; [done|]. simpl.
  rewrite (H a) by apply list_elem_of_here.
  apply IH. intros b Hb. apply H. by apply list_elem_of_further.
Qed.

End NewChatFacts.

(** X19.  "New Chat" followed by a text, at a node that is no user node
    (as the root) and whose children have non-empty ids: after "New Chat"
    no child is selected and no child component is rendered, while the
    children are all kept; the text then becomes a new first child, which
    is selected, and the request for its answer carries the
    [initialContent] of the node and the text alone, nothing of the
    conversations that are its siblings. *)
Theorem new_chat_then_send (id : string) (ic : list ChatMessage)
    (nanoid1 nanoid2 content : string) (w : World) :
  is_Some (truthy (SettingsStore.apiKey (settings w))) ->
  content <> "" ->
  MsgStore.role (storage_get id (localStorage w)) <> Some user ->
  (forall c, c ∈ children (localStorage w) id ->
             MsgStore.id (storage_get c (localStorage w)) <> Some "") ->
  let U := "#" +:+ nanoid1 in
  let w1 := deselectMsg (mount id ic w) w in
  let m1 := mount id ic w1 in
  let w2 := onSubmit m1 nanoid1 nanoid2 content send w1 in
  selectedMsg m1 = None /\
  childMessage m1 w1 = None /\
  children (localStorage w1) id = children (localStorage w) id /\
  requests w2
  = requests w ++
    [(fresh_handle w,
      {| opt_model :=
           Some (or_str (SettingsStore.model (settings w)) "gpt-4o");
         opt_messages :=
           Some (ic ++ [{| chat_role := node_role user;
                           chat_content := content |}]) |})] /\
  children (localStorage w2) id = U :: children (localStorage w) id /\
  MsgStore.select (storage_get id (localStorage w2)) = Some (notnull U).
Proof.
  intros Hkey Hc Hrole Hids U w1 m1 w2.
  assert (Hls1 : storage_get id (localStorage w1)
                 = MsgStore.with_select (Some (notnull ""))
                     (storage_get id (localStorage w))).
  { unfold w1, deselectMsg, handleItemClick.
    cbn [localStorage set_localStorage]. unfold storage_get at 1, storage_set.
    by rewrite lookup_insert_eq. }
  assert (Hid1 : forall c, MsgStore.id (storage_get c (localStorage w1))
                           = MsgStore.id (storage_get c (localStorage w))).
  { intros c. destruct (decide (c = id)) as [->|Hne].
    - by rewrite Hls1.
    - unfold w1, deselectMsg, handleItemClick.
      cbn [localStorage set_localStorage]. unfold storage_get, storage_set.
      by rewrite lookup_insert_ne. }
  assert (Hch1 : children (localStorage w1) id = children (localStorage w) id).
  { unfold children. by rewrite Hls1. }
  assert (Hsel : selectedMsg m1 = None).
  { unfold selectedMsg, m1, mount, render. cbn [childMsgs parentMsg].
    rewrite Hls1. cbn [MsgStore.messages MsgStore.select MsgStore.with_select].
    destruct (MsgStore.messages (storage_get id (localStorage w)))
      as [l|] eqn:Hl; [|done].
    apply find_none_map. intros c Hc'. cbn [data]. rewrite Hid1.
    assert (Hne : MsgStore.id (storage_get c (localStorage w)) <> Some "").
    { apply Hids. unfold children. by rewrite Hl. }
    destruct (MsgStore.id (storage_get c (localStorage w))) as [i|]; [|done].
    cbn [strict_eq]. apply bool_decide_eq_false_2. congruence. }
  assert (Hrole1 : newBranch_role m1 = user).
  { unfold newBranch_role. rewrite Hsel. cbn [mbind option_bind default].
    unfold defaultChildRole, m1, mount, render. cbn [parentMsg].
    rewrite Hls1. cbn [MsgStore.role MsgStore.with_select].
    by rewrite decide_False. }
  pose proof (onSubmit_send_user id ic nanoid1 nanoid2 content w1 Hc Hrole1)
    as Hw2. cbv zeta in Hw2. fold m1 w2 U in Hw2.
  set (A := "#" +:+ nanoid2) in *.
  set (w0 := set_localStorage (storage_set A (placeholder A)) w1) in *.
  destruct (newMessageCompletion_sends A
              (ic ++ [{| chat_role := node_role user;
                         chat_content := content |}]) w0 Hkey)
    as (Hrq & _).
  split; [done|]. split; [|split; [done|split; [|split]]].
  - unfold childMessage, selectedMemoProps. by rewrite Hsel.
  - rewrite Hw2. cbn [requests set_localStorage]. exact Hrq.
  - rewrite Hw2. cbn [localStorage set_localStorage].
    unfold children at 1, storage_get at 1, storage_set at 1.
    rewrite lookup_insert_eq, Hls1. reflexivity.
  - rewrite Hw2. cbn [localStorage set_localStorage].
    unfold storage_get at 1, storage_set at 1.
    by rewrite lookup_insert_eq.
Qed.

Lemma new_chat_then_send_witness :
  let w1 := deselectMsg (mount "#0000" [] two_siblings_world)
              two_siblings_world in
  let w2 := onSubmit (mount "#0000" [] w1) "eeee" "ffff" "three" send w1 in
  selectedMsg (mount "#0000" [] w1) = None /\
  children (localStorage w2) "#0000" = ["#eeee"; "#cccc"; "#aaaa"].
Proof.
  destruct (new_chat_then_send "#0000" [] "eeee" "ffff" "three"
              two_siblings_world) as (H1 & _ & _ & _ & H2 & _).
  - by eexists.
  - discriminate.
  - discriminate.
  - intros c Hc. vm_compute in Hc.
    apply elem_of_cons in Hc as [->|Hc]; [discriminate|].
    apply elem_of_cons in Hc as [->|Hc]; [discriminate|].
    by apply elem_of_nil in Hc.
  - split; [exact H1|exact H2].
Defined.

(* ===================================================================== *)
(** * What the weight counts *)
(* ===================================================================== *)

(** X20.  The number shown in front of a branch is the number of nodes
    below it: when the weight equation holds at [n] and at every node
    below [n] (as the layout effects leave it), and the nodes below [n] are
    finitely deep, the weight of [n] is the number of its descendants. *)
Theorem weight_counts_descendants (depth : nat) (ls : Records) (n : string) :
  shallow depth ls n ->
  (forall y, reachable ls n y -> weight_ok ls y) ->
  default 0 (MsgStore.weight (storage_get n ls))
  = Z.of_nat (length (descendants (S depth) ls n)).
Proof.
  revert n. induction depth as [|depth IH]; intros n Hsh Hok.
  - simpl in Hsh. rewrite (Hok n (reachable_refl _ _)).
    unfold children_weight. cbn [descendants]. by rewrite Hsh.
  - rewrite (Hok n (reachable_refl _ _)).
    change (descendants (S (S depth)) ls n)
      with (flat_map (fun c => c :: descendants (S depth) ls c)
                     (children ls n)).
    unfold children_weight.
    assert (Hch : forall c, c ∈ children ls n ->
              shallow depth ls c /\
              forall y, reachable ls c y -> weight_ok ls y).
    { intros c Hc. split.
      - cbn [shallow] in Hsh. rewrite Forall_forall in Hsh. by apply Hsh.
      - intros y Hy. apply Hok. by apply reachable_step with c. }
    clear Hsh Hok. induction (children ls n) as [|c l IHl]; [done|].
    cbn [foldr flat_map]. rewrite length_app. cbn [length].
    rewrite IHl by (intros c' Hc'; apply Hch; by apply list_elem_of_further).
    destruct (Hch c (list_elem_of_here _ _)) as [Hsh Hok].
    rewrite (IH c Hsh Hok). lia.
Qed.

Lemma weight_counts_descendants_witness :
  let w1 := layoutEffect (mount "#aaaa" [] example_world) example_world in
  let w2 := layoutEffect (mount "#0000" [] w1) w1 in
  default 0 (MsgStore.weight (storage_get "#0000" (localStorage w2))) = 2 /\
  descendants 3 (localStorage w2) "#0000" = ["#aaaa"; "#bbbb"].
Proof.
  intros w1 w2.
  assert (Hch0 : children (localStorage w2) "#0000" = ["#aaaa"])
    by (vm_compute; reflexivity).
  assert (Hch1 : children (localStorage w2) "#aaaa" = ["#bbbb"])
    by (vm_compute; reflexivity).
  assert (Hch2 : children (localStorage w2) "#bbbb" = [])
    by (vm_compute; reflexivity).
  split; [|vm_compute; reflexivity].
  rewrite (weight_counts_descendants 2 (localStorage w2) "#0000").
  - vm_compute. reflexivity.
  - cbn [shallow]. rewrite Hch0. constructor; [|constructor].
    rewrite Hch1. constructor; [|constructor]. exact Hch2.
  - intros y Hy.
    inversion Hy as [|? c0 ? Hc0 Hy0]; subst; [vm_compute; reflexivity|].
    rewrite Hch0 in Hc0. apply list_elem_of_singleton in Hc0. subst c0.
    inversion Hy0 as [|? c1 ? Hc1 Hy1]; subst; [vm_compute; reflexivity|].
    rewrite Hch1 in Hc1. apply list_elem_of_singleton in Hc1. subst c1.
    inversion Hy1 as [|? c2 ? Hc2 Hy2]; subst; [vm_compute; reflexivity|].
    rewrite Hch2 in Hc2. by apply elem_of_nil in Hc2.
Defined.

Section ChildComponent.

Implicit Types (w : World) (ls : Records).

(** The component rendered for the first child [c], when it is the
    selected one and its record carries its id. *)
Lemma childMessage_first id ic w c l :
  MsgStore.messages (storage_get id (localStorage w)) = Some (c :: l) ->
  MsgStore.select (storage_get id (localStorage w)) = Some (notnull c) ->
  MsgStore.id (storage_get c (localStorage w)) = Some c ->
  c <> "" ->
  childMessage (mount id ic w) w
  = match find_task c w with
    | Some _ => None
    | None =>
        Some (mount c
                (ic ++
                 match MsgStore.role (storage_get c (localStorage w)),
                       truthy (MsgStore.content (storage_get c (localStorage w)))
                 with
                 | Some role, Some content =>
                     [{| chat_role := node_role role;
                         chat_content := content |}]
                 | _, _ => []
                 end)
                w)
    end.
Proof.
  intros Hms Hsel Hid Hc. unfold childMessage, selectedMemoProps.
  rewrite (selectedMsg_first id ic w c l c Hms Hsel Hid).
  cbn [data task mbind option_bind]. rewrite Hid.
  unfold truthy at 1. rewrite decide_False by done.
  by destruct (find_task c w).
Qed.

Lemma find_task_is_Some x w : x ∈ task_ids w -> is_Some (find_task x w).
Proof.
  unfold task_ids, find_task.
  intros (t & Hid & Hin)%list_elem_of_fmap.
  destruct (List.find _ (atom w)) as [t'|] eqn:Hfind; [by eexists|].
  apply list_elem_of_In in Hin.
  pose proof (List.find_none _ _ Hfind t Hin) as Hf. simpl in Hf.
  by rewrite bool_decide_eq_true_2 in Hf.
Qed.

Lemma hash_nonempty (a : string) : "#" +:+ a <> "".
Proof. discriminate. Qed.

Lemma app_space_nonempty (s : string) : s +:+ " " <> "".
Proof. destruct s; discriminate. Qed.

End ChildComponent.

(** X21.  The component of an answer node.  After a text was sent, no
    component is rendered for the answer node while its task is in the
    registry, so nothing can be sent below an answer that is streaming.
    When the stream has ended and the task is settled, the component is
    rendered, and its [initialContent] is the path followed by the answer
    as an assistant message whose content is the text received with a
    space after it; an answer without text adds no message. *)
Theorem answer_component_after_stream (id : string) (ic : list ChatMessage)
    (nanoid1 nanoid2 content : string) (cs : list (option string))
    (w : World) :
  is_Some (truthy (SettingsStore.apiKey (settings w))) ->
  content <> "" ->
  newBranch_role (mount id ic w) = user ->
  "#" +:+ nanoid1 <> id ->
  "#" +:+ nanoid2 <> id ->
  nanoid1 <> nanoid2 ->
  let U := "#" +:+ nanoid1 in
  let A := "#" +:+ nanoid2 in
  let h := fresh_handle w in
  let path := ic ++ [{| chat_role := node_role user;
                        chat_content := content |}] in
  let text := chunks_text cs in
  let w' := onSubmit (mount id ic w) nanoid1 nanoid2 content send w in
  let ws := steps h (map Chunk cs) w' in
  let wd := steps h [End; Microtask] ws in
  childMessage (mount U path ws) ws = None /\
  childMessage (mount U path wd) wd
  = Some (mount A
            (path ++ if decide (text = "") then []
                     else [{| chat_role := node_role assistant;
                              chat_content := text +:+ " " |}])
            wd).
Proof.
  intros Hkey Hc Hrole HU HA Hn U A h path text w' ws wd.
  pose proof (onSubmit_send_user id ic nanoid1 nanoid2 content w Hc Hrole)
    as Hw'. cbv zeta in Hw'. fold U A path w' in Hw'.
  set (w0 := set_localStorage (storage_set A (placeholder A)) w) in *.
  assert (HUA : U <> A) by (intros H; by apply hash_inj in H).
  destruct (newMessageCompletion_promise A path w0 Hkey)
    as (Hpr0 & Hls0 & Hat0 & _).
  set (p := Build_Promise _ _ _ _ _) in Hpr0.
  set (msg := MsgStore.with_meta _ _) in *.
  assert (Hmsg : msg = placeholder_with_model
                         (SettingsStore.model (settings w)) A).
  { unfold msg, w0. cbn [settings localStorage set_localStorage].
    unfold storage_get, storage_set. by rewrite lookup_insert_eq. }
  assert (Hp' : promises w' !! h = Some p).
  { rewrite Hw'. cbn [promises set_localStorage].
    change (promises (newMessageCompletion A path w0) !! fresh_handle w0
            = Some p).
    rewrite Hpr0. apply lookup_insert_eq. }
  assert (Hat' : A ∈ task_ids w').
  { rewrite Hw'. cbn [task_ids atom set_localStorage].
    change (A ∈ task_ids (newMessageCompletion A path w0)).
    rewrite newMessageCompletion_task_ids. apply elem_of_app. right.
    apply list_elem_of_here. }
  assert (HlsU : storage_get U (localStorage w')
                 = MsgStore.mk None (Some content) (Some [A])
                     (Some (notnull A)) None (Some user) (Some U) None).
  { rewrite Hw'. cbn [localStorage set_localStorage].
    unfold storage_get, storage_set.
    rewrite lookup_insert_ne by done. by rewrite lookup_insert_eq. }
  assert (HlsA : storage_get A (localStorage w') = msg).
  { rewrite Hw'. cbn [localStorage set_localStorage].
    unfold storage_get at 1, storage_set at 1 2.
    rewrite !lookup_insert_ne by done.
    change (storage_get A (localStorage (newMessageCompletion A path w0))
            = msg).
    rewrite Hls0. unfold storage_get. by rewrite lookup_insert_eq. }
  set (rA := if decide (text = "") then msg
             else MsgStore.with_content (Some (text +:+ " ")) msg).
  assert (Hs : storage_get U (localStorage ws)
               = MsgStore.mk None (Some content) (Some [A])
                   (Some (notnull A)) None (Some user) (Some U) None /\
               storage_get A (localStorage ws) = rA /\
               atom ws = atom w' /\
               exists p', promises ws !! h = Some p' /\ p_id p' = A /\
                          p_onDone p' = None /\
                          exists acc, p_phase p' = Streaming acc).
  { pose proof (steps_chunks A
      (fun text => MsgStore.with_content
         (Some (or_str (MsgStore.content msg) "" +:+ text +:+ " ")) msg)
      cs w' h p "" Hp' eq_refl eq_refl) as Hchunks.
    cbv zeta in Hchunks. fold ws text in Hchunks.
    destruct Hchunks as [[Htext Hws]|(Htext & Hpr & _ & Hls & Hat & _)].
    - rewrite Hws. unfold rA. rewrite decide_True by done.
      split; [done|]. split; [done|]. split; [done|].
      exists p. split; [done|]. split; [done|]. split; [done|]. by eexists.
    - unfold rA. rewrite decide_False by done. rewrite Hls.
      split; [|split; [|split]].
      + unfold storage_get. rewrite lookup_insert_ne by done. exact HlsU.
      + unfold storage_get. rewrite lookup_insert_eq. cbn [default].
        rewrite Hmsg. reflexivity.
      + done.
      + eexists. split; [rewrite Hpr; apply lookup_insert_eq|].
        split; [done|]. split; [done|]. by eexists. }
  destruct Hs as (HsU & HsA & Hats & p' & Hps & Hidp & Hdone & acc & Hph).
  assert (HidA : MsgStore.id rA = Some A).
  { unfold rA. rewrite Hmsg. by case_decide. }
  split.
  - rewrite (childMessage_first U path ws A []);
      [|by rewrite HsU|by rewrite HsU|by rewrite HsA|apply hash_nonempty].
    destruct (find_task_is_Some A ws) as [t ->]; [|done].
    unfold task_ids. rewrite Hats. exact Hat'.
  - destruct (steps_end_settle h p' acc ws Hps Hph Hdone)
      as (Hlsd & _ & _ & Hatd & _).
    fold wd in Hlsd, Hatd.
    rewrite (childMessage_first U path wd A []);
      [|by rewrite Hlsd, HsU|by rewrite Hlsd, HsU|by rewrite Hlsd, HsA
       |apply hash_nonempty].
    rewrite find_task_None.
    + rewrite Hlsd, HsA. do 3 f_equal. unfold rA. rewrite Hmsg.
      case_decide; [reflexivity|].
      cbn [MsgStore.role MsgStore.content MsgStore.with_content
           placeholder_with_model placeholder MsgStore.with_meta].
      unfold truthy. by rewrite decide_False by apply app_space_nonempty.
    + unfold task_ids. rewrite Hatd, Hidp. apply filter_task_ids.
Qed.

Lemma answer_component_after_stream_witness :
  let w' := onSubmit (mount "#0000" [] (empty_world example_settings))
              "aaaa" "bbbb" "hi" send (empty_world example_settings) in
  let ws := steps 0 (map Chunk [Some "hel"; Some "lo"]) w' in
  let wd := steps 0 [End; Microtask] ws in
  childMessage (mount "#aaaa" (hi_path []) ws) ws = None /\
  initialContent <$> childMessage (mount "#aaaa" (hi_path []) wd) wd
  = Some (hi_path [] ++ [{| chat_role := node_role assistant;
                            chat_content := "hello " |}]).
Proof.
  destruct (answer_component_after_stream "#0000" [] "aaaa" "bbbb" "hi"
              [Some "hel"; Some "lo"] (empty_world example_settings))
    as (H1 & H2).
  - by eexists.
  - discriminate.
  - reflexivity.
  - discriminate.
  - discriminate.
  - discriminate.
  - split; [exact H1|]. cbv zeta.
    exact (f_equal (fmap initialContent) H2).
Defined.

Section ClickFacts.

Lemma find_map_first {A B : Type} `{EqDecision A} (f : A -> B)
    (P : B -> bool) (l : list A) (c : A) :
  c ∈ l ->
  (forall a, a ∈ l -> P (f a) = bool_decide (a = c)) ->
  List.find P (map f l) = Some (f c).
Proof.
  induction l as [|a l IH]; intros Hc HP; [by apply elem_of_nil in Hc|].
  simpl. rewrite (HP a) by apply list_elem_of_here.
  case_bool_decide as Ha; [by subst|].
  apply IH.
  - apply elem_of_cons in Hc as [->|Hc]; [done|done].
  - intros b Hb. apply HP. by apply list_elem_of_further.
Qed.

End ClickFacts.

(** X22.  Clicking a branch selects it.  When the record of every child of
    a node carries the child's id, after [handleItemClick] for a child the
    next render has that child as [selectedMsg], with the record storage
    holds for it and the task the registry finds for it; the children, the
    other properties of the node and all other records are as before. *)
Theorem handleItemClick_selects (id : string) (ic : list ChatMessage)
    (c : string) (w : World) :
  c ∈ children (localStorage w) id ->
  (forall c', c' ∈ children (localStorage w) id ->
              MsgStore.id (storage_get c' (localStorage w)) = Some c') ->
  let w' := handleItemClick (mount id ic w) c w in
  selectedMsg (mount id ic w')
  = Some {| data := storage_get c (localStorage w');
            task := find_task c w |} /\
  storage_get id (localStorage w')
  = MsgStore.with_select (Some (notnull c)) (storage_get id (localStorage w)) /\
  (forall k, k <> id -> localStorage w' !! k = localStorage w !! k).
Proof.
  intros Hc Hids w'.
  assert (Hls : storage_get id (localStorage w')
                = MsgStore.with_select (Some (notnull c))
                    (storage_get id (localStorage w))).
  { unfold w', handleItemClick. cbn [localStorage set_localStorage].
    unfold storage_get at 1, storage_set. by rewrite lookup_insert_eq. }
  assert (Hframe : forall k, k <> id ->
            localStorage w' !! k = localStorage w !! k).
  { intros k Hne. unfold w', handleItemClick.
    cbn [localStorage set_localStorage]. unfold storage_set.
    by rewrite lookup_insert_ne. }
  assert (Hid : forall k, MsgStore.id (storage_get k (localStorage w'))
                          = MsgStore.id (storage_get k (localStorage w))).
  { intros k. destruct (decide (k = id)) as [->|Hne]; [by rewrite Hls|].
    unfold storage_get. by rewrite Hframe. }
  split; [|done].
  unfold selectedMsg, mount, render. cbn [childMsgs parentMsg].
  rewrite Hls. cbn [MsgStore.messages MsgStore.select MsgStore.with_select].
  unfold children in Hc, Hids.
  destruct (MsgStore.messages (storage_get id (localStorage w))) as [l|];
    [|by apply elem_of_nil in Hc].
  cbn [default] in Hc, Hids.
  apply (find_map_first
           (fun _id => {| data := storage_get _id (localStorage w');
                          task := find_task _id w' |})
           (fun msg => strict_eq (MsgStore.id (data msg)) (Some (notnull c)))
           l c Hc).
  intros a Ha. cbn [data]. rewrite Hid, (Hids a Ha). reflexivity.
Qed.

Lemma handleItemClick_selects_witness :
  let w' := handleItemClick (mount "#0000" [] two_siblings_world) "#aaaa"
              two_siblings_world in
  (MsgStore.content ∘ data) <$> selectedMsg (mount "#0000" [] w')
  = Some (Some "one").
Proof.
  destruct (handleItemClick_selects "#0000" [] "#aaaa" two_siblings_world)
    as (H & _).
  - vm_compute. apply list_elem_of_further, list_elem_of_here.
  - intros c Hc. vm_compute in Hc.
    apply elem_of_cons in Hc as [->|Hc]; [reflexivity|].
    apply elem_of_cons in Hc as [->|Hc]; [reflexivity|].
    by apply elem_of_nil in Hc.
  - cbv zeta. rewrite H. reflexivity.
Defined.

(* ===================================================================== *)
(** * The registry lists tasks in progress *)
(* ===================================================================== *)

Section InProgress.

Implicit Types (w : World) (t : CompletionTask.t) (h : nat).

Lemma in_progress_same w w' :
  atom w' = atom w -> promises w' = promises w -> results w' = results w ->
  in_progress w -> in_progress w'.
Proof.
  intros Hat Hpr Hrs H t Ht. rewrite Hat in Ht. rewrite Hpr, Hrs.
  by apply H.
Qed.

Lemma in_progress_newTask props w :
  in_progress w -> in_progress (newTask props w).
Proof.
  intros H t Ht. rewrite newTask_atom in Ht.
  pose proof (fresh_handle_unused w) as Hfresh.
  apply elem_of_app in Ht as [Ht|Ht%list_elem_of_singleton].
  - destruct (H t Ht) as (Hra & p & Hp & Hid & Hph & Hacc).
    assert (Hne : fresh_handle w <> CompletionTask.abort t).
    { intros Heq. rewrite Heq in Hfresh. congruence. }
    split; [done|]. exists p.
    unfold newTask, chatCompletion.
    destruct (truthy (nt_apiKey props)); cbn;
      (rewrite lookup_insert_ne by done);
      (split; [done|]); (split; [done|]); (split; [done|]);
      intros acc Hs; rewrite lookup_insert_ne by congruence;
      by apply Hacc.
  - subst t. split; [done|]. cbn [CompletionTask.abort CompletionTask.id
                                   CompletionTask.result].
    unfold newTask, chatCompletion.
    destruct (truthy (nt_apiKey props)); cbn; rewrite lookup_insert_eq;
      eexists; (split; [reflexivity|]); cbn;
      (split; [done|]); (split; [done|]); intros acc Hs;
      [injection Hs as <-; apply lookup_insert_eq|discriminate Hs].
Qed.

Lemma elem_of_removeTask t id w :
  t ∈ atom (removeTask id w) -> t ∈ atom w /\ CompletionTask.id t <> id.
Proof.
  unfold removeTask. cbn [atom set_atom].
  rewrite list_elem_of_In, List.filter_In, <- list_elem_of_In.
  rewrite negb_true_iff, bool_decide_eq_false. done.
Qed.

Lemma in_progress_step h ev w :
  in_progress w -> in_progress (step h ev w).
Proof.
  intros H. unfold step.
  destruct (promises w !! h) as [p|] eqn:Hp; [|done].
  destruct (p_phase p) as [acc|text|error|] eqn:Hph, ev as [c| |e|];
    try done.
  - (* a chunk *)
    destruct (truthy c) as [s|]; [|done].
    intros t Ht.
    assert (Ht' : t ∈ atom w) by (by destruct (p_onText p)).
    destruct (H t Ht') as (Hra & p0 & Hp0 & Hid & Hph0 & Hacc).
    split; [done|].
    destruct (decide (CompletionTask.abort t = h)) as [Heq|Hne].
    + exists (set_phase (Streaming (acc +:+ s)) p).
      rewrite Heq, Hp in Hp0. injection Hp0 as <-.
      destruct (p_onText p); cbn; rewrite Heq, lookup_insert_eq;
        (split; [done|]); (split; [done|]); (split; [done|]);
        intros acc' Hs; injection Hs as <-; rewrite Hra, Heq;
        apply lookup_insert_eq.
    + exists p0.
      destruct (p_onText p); cbn; rewrite lookup_insert_ne by done;
        (split; [done|]); (split; [done|]); (split; [done|]);
        intros acc' Hs; rewrite lookup_insert_ne by congruence;
        by apply Hacc.
  - (* the end of the stream *)
    intros t Ht. cbn [atom set_promise] in Ht.
    destruct (H t Ht) as (Hra & p0 & Hp0 & Hid & Hph0 & Hacc).
    split; [done|]. cbn [promises results set_promise].
    destruct (decide (CompletionTask.abort t = h)) as [Heq|Hne].
    + exists (set_phase (Resolved acc) p).
      rewrite Heq, Hp in Hp0. injection Hp0 as <-.
      rewrite Heq, lookup_insert_eq. by repeat split.
    + exists p0. rewrite lookup_insert_ne by done. by repeat split.
  - (* an error *)
    assert (Hgen : forall ph, ph <> Settled ->
              (forall a, ph <> Streaming a) ->
              in_progress (set_promise h (set_phase ph p) w)).
    { intros ph Hns Hnst t Ht. cbn [atom set_promise] in Ht.
      destruct (H t Ht) as (Hra & p0 & Hp0 & Hid & Hph0 & Hacc).
      split; [done|]. cbn [promises results set_promise].
      destruct (decide (CompletionTask.abort t = h)) as [Heq|Hne].
      + exists (set_phase ph p).
        rewrite Heq, Hp in Hp0. injection Hp0 as <-.
        rewrite Heq, lookup_insert_eq. split; [done|]. split; [done|].
        split; [done|]. intros a Ha. by destruct (Hnst a).
      + exists p0. rewrite lookup_insert_ne by done. by repeat split. }
    case_decide; by apply Hgen.
  - (* the [then] handler *)
    intros t Ht. apply elem_of_removeTask in Ht as [Ht Hidt].
    assert (Ht' : t ∈ atom w) by (by destruct (p_onDone p)).
    destruct (H t Ht') as (Hra & p0 & Hp0 & Hid & Hph0 & Hacc).
    assert (Hne : CompletionTask.abort t <> h).
    { intros Heq. rewrite Heq, Hp in Hp0. injection Hp0 as <-. congruence. }
    split; [done|]. exists p0.
    destruct (p_onDone p); cbn; rewrite lookup_insert_ne by done;
      (split; [done|]); (split; [done|]); (split; [done|]);
      intros acc' Hs; rewrite lookup_insert_ne by congruence;
      by apply Hacc.
  - (* the [catch] handler *)
    intros t Ht. apply elem_of_removeTask in Ht as [Ht Hidt].
    assert (Ht' : t ∈ atom w) by (by destruct (p_onError p)).
    destruct (H t Ht') as (Hra & p0 & Hp0 & Hid & Hph0 & Hacc).
    assert (Hne : CompletionTask.abort t <> h).
    { intros Heq. rewrite Heq, Hp in Hp0. injection Hp0 as <-. congruence. }
    split; [done|]. exists p0.
    destruct (p_onError p); cbn; rewrite lookup_insert_ne by done;
      (split; [done|]); (split; [done|]); (split; [done|]);
      intros acc' Hs; rewrite lookup_insert_ne by congruence;
      by apply Hacc.
Qed.

Lemma in_progress_newBranch m nanoid1 nanoid2 content fillContent addAnswer w :
  in_progress w ->
  in_progress (newBranch m nanoid1 nanoid2 content fillContent addAnswer w).
Proof.
  intros H. unfold newBranch.
  assert (Hnmc : forall i ms f, in_progress
            (newMessageCompletion i ms (set_localStorage f w))).
  { intros i ms f. unfold newMessageCompletion.
    apply in_progress_newTask. by apply (in_progress_same w _). }
  destruct addAnswer, fillContent, (truthy content) as [c|],
    (default (defaultChildRole m)
             (selectedMsg m ≫= fun s => MsgStore.role (data s)));
    first [ by apply (in_progress_same w _)
          | match goal with
            | |- context [newMessageCompletion ?i ?ms (set_localStorage ?f w)] =>
                apply (in_progress_same
                         (newMessageCompletion i ms (set_localStorage f w)) _);
                [done..|apply Hnmc]
            end ].
Qed.

End InProgress.

(** X23.  The registry lists only tasks in progress.  If every registered
    task has a promise of its id that was not handled yet, and the result
    atom of a streaming one holds the text accumulated so far, then this
    is so again after [newTask], after every event of a task, after
    [newBranch], and after the mutations that start nothing: a settled
    task is never left in the registry, and the result atom never lags
    behind the stream. *)
Theorem registry_tasks_in_progress (m : Message) (props : newTaskProps)
    (nanoid1 nanoid2 child text : string) (content : option string)
    (fillContent addAnswer : bool) (h : nat) (ev : Event) (w : World) :
  in_progress w ->
  in_progress (newTask props w) /\
  in_progress (step h ev w) /\
  in_progress (newBranch m nanoid1 nanoid2 content fillContent addAnswer w) /\
  in_progress (editSelect m text w) /\
  in_progress (handleItemClick m child w) /\
  in_progress (layoutEffect m w) /\
  (forall w', handleItemDelete m child w = Some w' -> in_progress w').
Proof.
  intros H. split; [by apply in_progress_newTask|].
  split; [by apply in_progress_step|].
  split; [by apply in_progress_newBranch|].
  split; [|split; [|split]].
  - unfold editSelect. destruct (selectedMsg m); [|done].
    by apply (in_progress_same w _).
  - by apply (in_progress_same w _).
  - unfold layoutEffect. case_decide; [done|].
    by apply (in_progress_same w _).
  - intros w' Hrun. unfold handleItemDelete in Hrun.
    set (w1 := set_localStorage _ w) in Hrun.
    destruct (recDel_terminates (S (size (localStorage w1))) child w1)
      as (w2 & Hrun2 & (_ & (_ & Hat & Hrs & _ & Hpr & _) & _) & _); [lia|].
    rewrite Hrun in Hrun2. injection Hrun2 as <-.
    by apply (in_progress_same w _).
Qed.

Lemma registry_tasks_in_progress_witness :
  in_progress example_world /\
  in_progress (step 0 (Chunk (Some "hel")) example_world).
Proof.
  assert (H0 : in_progress (empty_world example_settings)).
  { intros t Ht. by apply elem_of_nil in Ht. }
  destruct (registry_tasks_in_progress
              (mount "#0000" [] (empty_world example_settings))
              (example_props None) "aaaa" "bbbb" "" "" (Some "hi") false true
              0%nat End (empty_world example_settings) H0)
    as (_ & _ & H1 & _).
  split; [exact H1|].
  destruct (registry_tasks_in_progress
              (mount "#0000" [] example_world)
              (example_props None) "" "" "" "" None false false
              0%nat (Chunk (Some "hel")) example_world H1)
    as (_ & H2 & _).
  exact H2.
Defined.

(* ===================================================================== *)
(** * Stopping, deleting and editing around a generation *)
(* ===================================================================== *)

Section AroundGeneration.

Implicit Types (w : World) (ls : Records) (cs : list (option string)).

(** The state after a text was sent (the new node a user node) and the
    stream of its answer gave the chunks [cs]. *)
Lemma send_then_chunks id ic nanoid1 nanoid2 content cs w :
  is_Some (truthy (SettingsStore.apiKey (settings w))) ->
  content <> "" ->
  newBranch_role (mount id ic w) = user ->
  "#" +:+ nanoid1 <> id ->
  "#" +:+ nanoid2 <> id ->
  nanoid1 <> nanoid2 ->
  let U := "#" +:+ nanoid1 in
  let A := "#" +:+ nanoid2 in
  let h := fresh_handle w in
  let text := chunks_text cs in
  let w' := onSubmit (mount id ic w) nanoid1 nanoid2 content send w in
  let ws := steps h (map Chunk cs) w' in
  let rA := if decide (text = "")
            then placeholder_with_model (SettingsStore.model (settings w)) A
            else MsgStore.with_content (Some (text +:+ " "))
                   (placeholder_with_model
                      (SettingsStore.model (settings w)) A) in
  storage_get U (localStorage ws)
  = MsgStore.mk None (Some content) (Some [A]) (Some (notnull A)) None
                (Some user) (Some U) None /\
  storage_get A (localStorage ws) = rA /\
  atom ws = atom w ++ [CompletionTask.mk A h h] /\
  results ws !! h = Some text /\
  exists p, promises ws !! h = Some p /\ p_id p = A /\
            p_onDone p = None /\ p_phase p = Streaming text /\
            p_onError p = Some (fun error ls =>
              let freshMsg := storage_get A ls in
              storage_set A
                (MsgStore.with_meta
                   (Some (Meta.mk (MsgStore.meta freshMsg ≫= Meta.model)
                                  (Some (err_json error))))
                   freshMsg)
                ls).
Proof.
  intros Hkey Hc Hrole HU HA Hn U A h text w' ws rA.
  pose proof (onSubmit_send_user id ic nanoid1 nanoid2 content w Hc Hrole)
    as Hw'. cbv zeta in Hw'. fold U A w' in Hw'.
  set (path := ic ++ _) in Hw'.
  set (w0 := set_localStorage (storage_set A (placeholder A)) w) in *.
  assert (HUA : U <> A) by (intros H; by apply hash_inj in H).
  destruct (newMessageCompletion_promise A path w0 Hkey)
    as (Hpr0 & Hls0 & Hat0 & Hrs0 & _).
  set (p := Build_Promise _ _ _ _ _) in Hpr0.
  set (msg := MsgStore.with_meta _ _) in *.
  assert (Hmsg : msg = placeholder_with_model
                         (SettingsStore.model (settings w)) A).
  { unfold msg, w0. cbn [settings localStorage set_localStorage].
    unfold storage_get, storage_set. by rewrite lookup_insert_eq. }
  assert (Hp' : promises w' !! h = Some p).
  { rewrite Hw'. cbn [promises set_localStorage].
    change (promises (newMessageCompletion A path w0) !! fresh_handle w0
            = Some p).
    rewrite Hpr0. apply lookup_insert_eq. }
  assert (Hat' : atom w' = atom w ++ [CompletionTask.mk A h h]).
  { rewrite Hw'. cbn [atom set_localStorage]. exact Hat0. }
  assert (Hrs' : results w' !! h = Some "").
  { rewrite Hw'. cbn [results set_localStorage].
    change (results (newMessageCompletion A path w0) !! fresh_handle w0
            = Some "").
    rewrite Hrs0. apply lookup_insert_eq. }
  assert (HlsU : storage_get U (localStorage w')
                 = MsgStore.mk None (Some content) (Some [A])
                     (Some (notnull A)) None (Some user) (Some U) None).
  { rewrite Hw'. cbn [localStorage set_localStorage].
    unfold storage_get, storage_set.
    rewrite lookup_insert_ne by done. by rewrite lookup_insert_eq. }
  assert (HlsA : storage_get A (localStorage w') = msg).
  { rewrite Hw'. cbn [localStorage set_localStorage].
    unfold storage_get at 1, storage_set at 1 2.
    rewrite !lookup_insert_ne by done.
    change (storage_get A (localStorage (newMessageCompletion A path w0))
            = msg).
    rewrite Hls0. unfold storage_get. by rewrite lookup_insert_eq. }
  pose proof (steps_chunks A
    (fun text => MsgStore.with_content
       (Some (or_str (MsgStore.content msg) "" +:+ text +:+ " ")) msg)
    cs w' h p "" Hp' eq_refl eq_refl) as Hchunks.
  cbv zeta in Hchunks. fold ws text in Hchunks.
  destruct Hchunks as [[Htext Hws]|(Htext & Hpr & Hrs & Hls & Hat & _)].
  - rewrite Hws. unfold rA. rewrite decide_True by done. rewrite Htext.
    split; [done|]. split; [by rewrite <- Hmsg|]. split; [done|].
    split; [done|]. by exists p.
  - unfold rA. rewrite decide_False by done. rewrite Hls, Hat, Hrs, Hpr.
    split; [|split; [|split; [done|split]]].
    + unfold storage_get. rewrite lookup_insert_ne by done. exact HlsU.
    + unfold storage_get. rewrite lookup_insert_eq. cbn [default].
      rewrite Hmsg. reflexivity.
    + apply lookup_insert_eq.
    + eexists. split; [apply lookup_insert_eq|]. done.
Qed.

(** The component of the answer node [A] below the user node [U], from
    the records of the two. *)
Lemma answer_component U A path text model w :
  MsgStore.messages (storage_get U (localStorage w)) = Some [A] ->
  MsgStore.select (storage_get U (localStorage w)) = Some (notnull A) ->
  storage_get A (localStorage w)
  = (if decide (text = "") then placeholder_with_model model A
     else MsgStore.with_content (Some (text +:+ " "))
            (placeholder_with_model model A)) ->
  A <> "" ->
  find_task A w = None ->
  childMessage (mount U path w) w
  = Some (mount A
            (path ++ if decide (text = "") then []
                     else [{| chat_role := node_role assistant;
                              chat_content := text +:+ " " |}])
            w).
Proof.
  intros Hms Hsel HA Hne Htask.
  rewrite (childMessage_first U path w A [] Hms Hsel); [|by rewrite HA; case_decide|done].
  rewrite Htask, HA. do 3 f_equal.
  case_decide; [reflexivity|].
  cbn [MsgStore.role MsgStore.content MsgStore.with_content
       placeholder_with_model placeholder MsgStore.with_meta].
  unfold truthy. by rewrite decide_False by apply app_space_nonempty.
Qed.

Lemma find_task_new x t w l :
  atom w = l ++ [t] -> CompletionTask.id t = x ->
  x ∉ map CompletionTask.id l ->
  find_task x w = Some t.
Proof.
  intros Hat Hid Hx. unfold find_task. rewrite Hat. clear Hat.
  induction l as [|t' l IH]; simpl.
  - by rewrite bool_decide_eq_true_2.
  - simpl in Hx. apply not_elem_of_cons in Hx as [Hne Hx].
    rewrite bool_decide_eq_false_2 by done. by apply IH.
Qed.

(** An event [chatCompletion] resolves on (the stream ends, or an error
    named [AbortError] is caught), and the microtask of the [then]
    handler. *)
Lemma steps_resolve h p acc text reaction w :
  promises w !! h = Some p ->
  p_phase p = Streaming acc ->
  resolves_with acc reaction = Some text ->
  let w' := steps h [reaction; Microtask] w in
  localStorage w' = match p_onDone p with
                    | Some f => f text (localStorage w)
                    | None => localStorage w
                    end /\
  results w' = <[h := text]> (results w) /\
  calls w' = calls w ++ [CallOnDone h text] /\
  atom w' = List.filter
              (fun task => negb (bool_decide (CompletionTask.id task = p_id p)))
              (atom w) /\
  requests w' = requests w.
Proof.
  intros Hp Hph Hr. unfold steps. cbn [foldl].
  rewrite (step_resolves h p acc text reaction w Hp Hph Hr).
  unfold step. cbn [promises set_promise].
  rewrite lookup_insert_eq. cbn.
  by destruct (p_onDone p).
Qed.

(** The selected child, when the records of the children carry their
    ids. *)
Lemma selectedMsg_of_select id ic w c :
  c ∈ children (localStorage w) id ->
  (forall c', c' ∈ children (localStorage w) id ->
              MsgStore.id (storage_get c' (localStorage w)) = Some c') ->
  MsgStore.select (storage_get id (localStorage w)) = Some (notnull c) ->
  selectedMsg (mount id ic w)
  = Some {| data := storage_get c (localStorage w); task := find_task c w |}.
Proof.
  intros Hc Hids Hsel. unfold selectedMsg, mount, render.
  cbn [childMsgs parentMsg]. rewrite Hsel.
  unfold children in Hc, Hids.
  destruct (MsgStore.messages (storage_get id (localStorage w))) as [l|];
    [|by apply elem_of_nil in Hc].
  cbn [default] in Hc, Hids.
  apply (find_map_first
           (fun _id => {| data := storage_get _id (localStorage w);
                          task := find_task _id w |})
           (fun msg => strict_eq (MsgStore.id (data msg)) (Some (notnull c)))
           l c Hc).
  intros a Ha. cbn [data]. by rewrite (Hids a Ha).
Qed.

End AroundGeneration.

(** X24.  "Stop response" while an answer streams.  The task the button
    aborts is the one registered for the answer node.  The aborted request
    then settles in either of the two ways [chatCompletion] resolves: the
    stream ends, and the result atom holds the text received; or an error
    named [AbortError] is caught, and the result atom holds the empty text.
    Either way the task is gone from the registry and the record of the
    node keeps the text received so far: the component of the answer node
    is rendered, with the path followed by that text (and a space) as the
    assistant message, so the conversation goes on from the partial
    answer. *)
Theorem stop_then_continue (id : string) (ic : list ChatMessage)
    (nanoid1 nanoid2 content : string) (cs : list (option string))
    (reaction : Event) (final : string) (w : World) :
  is_Some (truthy (SettingsStore.apiKey (settings w))) ->
  resolves_with (chunks_text cs) reaction = Some final ->
  content <> "" ->
  newBranch_role (mount id ic w) = user ->
  "#" +:+ nanoid1 <> id ->
  "#" +:+ nanoid2 <> id ->
  nanoid1 <> nanoid2 ->
  "#" +:+ nanoid2 ∉ task_ids w ->
  let U := "#" +:+ nanoid1 in
  let A := "#" +:+ nanoid2 in
  let h := fresh_handle w in
  let path := ic ++ [{| chat_role := node_role user;
                        chat_content := content |}] in
  let text := chunks_text cs in
  let w' := onSubmit (mount id ic w) nanoid1 nanoid2 content send w in
  let ws := steps h (map Chunk cs) w' in
  let t := CompletionTask.mk A h h in
  let wc := cancel t reaction ws in
  (reaction = End -> final = text) /\
  (forall error, reaction = Throw error -> final = "") /\
  (selectedMsg (mount U path ws) ≫= task) = Some t /\
  childMessage (mount U path wc) wc
  = Some (mount A
            (path ++ if decide (text = "") then []
                     else [{| chat_role := node_role assistant;
                              chat_content := text +:+ " " |}])
            wc) /\
  results wc !! h = Some final /\
  find_task A wc = None /\
  localStorage wc = localStorage ws /\
  requests wc = requests ws.
Proof.
  intros Hkey Hres Hc Hrole HU HA Hn Htask U A h path text w' ws t wc.
  destruct (send_then_chunks id ic nanoid1 nanoid2 content cs w
              Hkey Hc Hrole HU HA Hn)
    as (HsU & HsA & Hat & Hrs & p & Hp & Hid & Hdone & Hph & Herr).
  fold U A h text w' ws in HsU, HsA, Hat, Hrs, Hp.
  assert (Hfind : find_task A ws = Some t).
  { by apply (find_task_new A t ws (atom w)). }
  assert (Hwc : wc = removeTask A
            (add_call (CallOnDone h final)
               (atom_set h (fun _ => final)
                  (set_promise h (set_phase Settled p)
                     (set_promise h (set_phase (Resolved final) p)
                        (add_call (CallAbort h) ws)))))).
  { unfold wc. rewrite (cancel_eq t p text final reaction ws Hp Hph Hres).
    rewrite Hdone, Hid. reflexivity. }
  assert (Hlsc : localStorage wc = localStorage ws) by (by rewrite Hwc).
  assert (Hnone : find_task A wc = None).
  { apply find_task_None. rewrite Hwc.
    match goal with |- _ ∉ task_ids (removeTask ?i ?w0) =>
      apply (removeTask_ids i w0) end. }
  split; [intros ->; simpl in Hres; by inversion Hres|].
  split.
  { intros error ->. simpl in Hres.
    destruct (decide (err_name error = "AbortError")); [|discriminate Hres].
    by inversion Hres. }
  split; [|split; [|split; [|split; [|split]]]].
  - rewrite (selectedMsg_first U path ws A [] A);
      [|by rewrite HsU|by rewrite HsU|rewrite HsA; by case_decide].
    cbn [mbind option_bind task]. exact Hfind.
  - apply (answer_component U A path text
             (SettingsStore.model (settings w)) wc).
    + by rewrite Hlsc, HsU.
    + by rewrite Hlsc, HsU.
    + by rewrite Hlsc.
    + apply hash_nonempty.
    + exact Hnone.
  - rewrite Hwc. cbn. apply lookup_insert_eq.
  - exact Hnone.
  - exact Hlsc.
  - by rewrite Hwc.
Qed.

Lemma stop_then_continue_witness :
  let w' := onSubmit (mount "#0000" [] (empty_world example_settings))
              "aaaa" "bbbb" "hi" send (empty_world example_settings) in
  let ws := steps 0 (map Chunk [Some "hel"]) w' in
  let wc := cancel (CompletionTask.mk "#bbbb" 0 0) End ws in
  initialContent <$> childMessage (mount "#aaaa" (hi_path []) wc) wc
  = Some (hi_path [] ++ [{| chat_role := node_role assistant;
                            chat_content := "hel " |}]) /\
  results wc !! 0%nat = Some "hel".
Proof.
  destruct (stop_then_continue "#0000" [] "aaaa" "bbbb" "hi" [Some "hel"]
              End "hel" (empty_world example_settings))
    as (_ & _ & _ & H1 & H2 & _).
  - by eexists.
  - reflexivity.
  - discriminate.
  - reflexivity.
  - discriminate.
  - discriminate.
  - discriminate.
  - apply not_elem_of_nil.
  - cbv zeta. split; [exact (f_equal (fmap initialContent) H1)|exact H2].
Defined.

(** X25.  Deleting an answer while it streams.  The delete removes the
    record of the answer node, leaves the user node above it without
    children and with the selection [null], and calls [abort()] on the task
    of the answer.  The aborted request then settles in either of the two
    ways [chatCompletion] resolves: the stream ends, and the result atom
    holds the text received; or an error named [AbortError] is caught, and
    the result atom holds the empty text.  Either way the task is gone from
    the registry and nothing was written back: the record of the answer
    node stays deleted. *)
Theorem delete_streaming_answer (id : string) (ic : list ChatMessage)
    (nanoid1 nanoid2 content : string) (cs : list (option string))
    (reaction : Event) (final : string) (w : World) :
  is_Some (truthy (SettingsStore.apiKey (settings w))) ->
  resolves_with (chunks_text cs) reaction = Some final ->
  content <> "" ->
  newBranch_role (mount id ic w) = user ->
  "#" +:+ nanoid1 <> id ->
  "#" +:+ nanoid2 <> id ->
  nanoid1 <> nanoid2 ->
  "#" +:+ nanoid2 ∉ task_ids w ->
  let U := "#" +:+ nanoid1 in
  let A := "#" +:+ nanoid2 in
  let h := fresh_handle w in
  let path := ic ++ [{| chat_role := node_role user;
                        chat_content := content |}] in
  let w' := onSubmit (mount id ic w) nanoid1 nanoid2 content send w in
  let ws := steps h (map Chunk cs) w' in
  (reaction = End -> final = chunks_text cs) /\
  (forall error, reaction = Throw error -> final = "") /\
  exists wdel,
    handleItemDelete (mount U path ws) A ws = Some wdel /\
    CallAbort h ∈ calls wdel /\
    localStorage wdel !! A = None /\
    children (localStorage wdel) U = [] /\
    MsgStore.select (storage_get U (localStorage wdel)) = Some null /\
    let wfin := steps h [reaction; Microtask] wdel in
    localStorage wfin = localStorage wdel /\
    find_task A wfin = None /\
    results wfin !! h = Some final.
Proof.
  intros Hkey Hres Hc Hrole HU HA Hn Htask U A h path w' ws.
  split; [intros ->; simpl in Hres; by inversion Hres|].
  split.
  { intros error ->. simpl in Hres.
    destruct (decide (err_name error = "AbortError")); [|discriminate Hres].
    by inversion Hres. }
  destruct (send_then_chunks id ic nanoid1 nanoid2 content cs w
              Hkey Hc Hrole HU HA Hn)
    as (HsU & HsA & Hat & Hrs & p & Hp & Hid & Hdone & Hph & Herr).
  fold U A h w' ws in HsU, HsA, Hat, Hrs, Hp.
  assert (HUA : U <> A) by (intros H; by apply hash_inj in H).
  assert (Hfind : find_task A ws
                  = Some (CompletionTask.mk A h h)).
  { by apply (find_task_new A _ ws (atom w)). }
  set (parent' := MsgStore.with_messages (Some [])
                    (MsgStore.with_select (Some null)
                       (storage_get U (localStorage ws)))).
  assert (Hdel : handleItemDelete (mount U path ws) A ws
                 = recDel (S (size (<[U := parent']> (localStorage ws)))) A
                     (set_localStorage (storage_set U parent') ws)).
  { unfold handleItemDelete.
    assert (Hms : newMsgs (mount U path ws) A = []).
    { unfold newMsgs, mount, render. cbn [parentMsg]. rewrite HsU.
      cbn. by rewrite bool_decide_eq_true_2. }
    assert (Hsel : newSelected (mount U path ws) A = Some null).
    { unfold newSelected. rewrite Hms.
      unfold mount, render. cbn [parentMsg]. rewrite HsU.
      cbn [MsgStore.select]. rewrite decide_True by done.
      unfold at_index. by repeat case_decide. }
    rewrite Hms, Hsel. reflexivity. }
  set (w1 := set_localStorage (storage_set U parent') ws) in *.
  destruct (recDel_terminates (S (size (localStorage w1))) A w1)
    as (wdel & Hrun & (_ & (Hst & Hatd & Hrsd & Hrqd & Hprd & _) & _)
        & HlsA & Habort); [lia|].
  exists wdel. split; [by rewrite Hdel|].
  assert (HlsU : localStorage wdel !! U = Some parent').
  { destruct (recDel_frame _ _ _ _ Hrun U) as [Heq|[_ Hreach]].
    - rewrite Heq. unfold w1. cbn [localStorage set_localStorage].
      unfold storage_set. apply lookup_insert_eq.
    - exfalso. inversion Hreach as [|? c ? Hc' _]; subst; [done|].
      unfold children, w1 in Hc'. cbn [localStorage set_localStorage] in Hc'.
      unfold storage_get, storage_set in Hc'.
      rewrite lookup_insert_ne in Hc' by done.
      fold (storage_get A (localStorage ws)) in Hc'. rewrite HsA in Hc'.
      case_decide; by apply elem_of_nil in Hc'. }
  split; [|split; [done|split; [|split]]].
  - apply (Habort (CompletionTask.mk A h h)).
    unfold find_task. rewrite Hatd. exact Hfind.
  - unfold children, storage_get. by rewrite HlsU.
  - unfold storage_get. by rewrite HlsU.
  - destruct (steps_resolve h p (chunks_text cs) final reaction wdel)
      as (Hlsf & Hrsf & _ & Hatf & _).
    { rewrite Hprd. exact Hp. }
    { exact Hph. }
    { exact Hres. }
    cbv zeta. rewrite Hdone in Hlsf. split; [done|]. split.
    + apply find_task_None. unfold task_ids. rewrite Hatf, Hid.
      apply filter_task_ids.
    + rewrite Hrsf. apply lookup_insert_eq.
Qed.

Lemma delete_streaming_answer_witness :
  let w' := onSubmit (mount "#0000" [] (empty_world example_settings))
              "aaaa" "bbbb" "hi" send (empty_world example_settings) in
  let ws := steps 0 (map Chunk [Some "hel"]) w' in
  exists wdel,
    handleItemDelete (mount "#aaaa" (hi_path []) ws) "#bbbb" ws = Some wdel /\
    CallAbort 0 ∈ calls wdel /\
    localStorage (steps 0 [Throw AbortError; Microtask] wdel) !! "#bbbb"
    = None.
Proof.
  destruct (delete_streaming_answer "#0000" [] "aaaa" "bbbb" "hi"
              [Some "hel"] (Throw AbortError) ""
              (empty_world example_settings))
    as (_ & _ & wdel & H1 & H2 & H3 & _ & _ & H4 & _).
  - by eexists.
  - reflexivity.
  - discriminate.
  - reflexivity.
  - discriminate.
  - discriminate.
  - discriminate.
  - apply not_elem_of_nil.
  - cbv zeta. exists wdel. split; [exact H1|]. split; [exact H2|].
    exact (eq_trans (f_equal (fun ls : Records => ls !! "#bbbb") H4) H3).
Defined.

(** X26.  Saving an edit of the selected child (when the records of the
    children carry their ids): the content of the child is replaced, no
    request is sent and no task started, and the children of the edited
    node are kept, so answers given to the old text stay below it.  At the
    next render the component of the child gets the path with the new
    text as its [initialContent]: what is asked below from then on is
    asked with the edited text. *)
Theorem save_changes_context (id : string) (ic : list ChatMessage)
    (nanoid1 nanoid2 c content : string) (w : World) :
  c ∈ children (localStorage w) id ->
  (forall c', c' ∈ children (localStorage w) id ->
              MsgStore.id (storage_get c' (localStorage w)) = Some c') ->
  MsgStore.select (storage_get id (localStorage w)) = Some (notnull c) ->
  c <> id -> c <> "" -> content <> "" ->
  let r := storage_get c (localStorage w) in
  let w' := onSubmit (mount id ic w) nanoid1 nanoid2 content save w in
  requests w' = requests w /\
  atom w' = atom w /\
  MsgStore.content (storage_get c (localStorage w')) = Some content /\
  children (localStorage w') c = children (localStorage w) c /\
  selectedMemoProps (mount id ic w')
  = Some {| mp_id := c; mp_role := MsgStore.role r;
            mp_content := Some content;
            mp_initialContent :=
              ic ++ match MsgStore.role r with
                    | Some role => [{| chat_role := node_role role;
                                       chat_content := content |}]
                    | None => []
                    end |}.
Proof.
  intros Hc Hids Hsel Hne Hc0 Hcontent r w'.
  pose proof (selectedMsg_of_select id ic w c Hc Hids Hsel) as Hm.
  set (r' := MsgStore.with_content (Some content)
               (MsgStore.with_task (CompletionTask.id <$> find_task c w) r)).
  assert (Hw' : w' = set_localStorage (storage_set c r') w).
  { unfold w', onSubmit, editSelect. rewrite Hm. cbn [data task].
    rewrite (Hids c Hc). reflexivity. }
  assert (Hlsc : storage_get c (localStorage w') = r').
  { rewrite Hw'. cbn [localStorage set_localStorage].
    unfold storage_get, storage_set. by rewrite lookup_insert_eq. }
  assert (Hlso : forall k, k <> c ->
            storage_get k (localStorage w') = storage_get k (localStorage w)).
  { intros k Hk. rewrite Hw'. cbn [localStorage set_localStorage].
    unfold storage_get, storage_set. by rewrite lookup_insert_ne. }
  assert (Hid' : forall k, MsgStore.id (storage_get k (localStorage w'))
                           = MsgStore.id (storage_get k (localStorage w))).
  { intros k. destruct (decide (k = c)) as [->|Hk]; [by rewrite Hlsc|].
    by rewrite Hlso. }
  assert (Hch' : children (localStorage w') id = children (localStorage w) id).
  { unfold children. by rewrite Hlso. }
  split; [by rewrite Hw'|]. split; [by rewrite Hw'|].
  split; [by rewrite Hlsc|]. split; [unfold children; by rewrite Hlsc|].
  unfold selectedMemoProps.
  rewrite (selectedMsg_of_select id ic w' c).
  - cbn [data]. rewrite Hlsc.
    cbn [MsgStore.id MsgStore.role MsgStore.content r'
         MsgStore.with_content MsgStore.with_task].
    fold r. change (MsgStore.id r) with (MsgStore.id (storage_get c (localStorage w))).
    rewrite (Hids c Hc). unfold truthy. rewrite !decide_False by done.
    by destruct (MsgStore.role r).
  - by rewrite Hch'.
  - intros c' Hc'. rewrite Hid'. apply Hids. by rewrite <- Hch'.
  - by rewrite Hlso.
Qed.

Lemma save_changes_context_witness :
  let w' := onSubmit (mount "#0000" [] example_world) "" "" "hello" save
              example_world in
  mp_initialContent <$> selectedMemoProps (mount "#0000" [] w')
  = Some [{| chat_role := node_role user; chat_content := "hello" |}] /\
  children (localStorage w') "#aaaa" = ["#bbbb"].
Proof.
  destruct (save_changes_context "#0000" [] "" "" "#aaaa" "hello"
              example_world) as (_ & _ & _ & H1 & H2).
  - vm_compute. apply list_elem_of_here.
  - intros c Hc. vm_compute in Hc.
    apply elem_of_cons in Hc as [->|Hc]; [reflexivity|].
    by apply elem_of_nil in Hc.
  - reflexivity.
  - discriminate.
  - discriminate.
  - discriminate.
  - cbv zeta. split.
    + rewrite H2. reflexivity.
    + rewrite H1. reflexivity.
Defined.

Section BranchFrame.

Implicit Types (w : World) (ls : Records).

Lemma newMessageCompletion_frame msgId messages w :
  let w' := newMessageCompletion msgId messages w in
  (forall k, k <> msgId -> localStorage w' !! k = localStorage w !! k) /\
  atom w `prefix_of` atom w' /\ calls w' = calls w /\
  settings w' = settings w /\
  (forall h p, promises w !! h = Some p -> promises w' !! h = Some p) /\
  (forall h, is_Some (promises w !! h) -> results w' !! h = results w !! h).
Proof.
  pose proof (fresh_handle_unused w) as Hfresh.
  assert (Hne : forall h, is_Some (promises w !! h) -> fresh_handle w <> h).
  { intros h [p Hp] Heq. rewrite Heq in Hfresh. congruence. }
  unfold newMessageCompletion, newTask, chatCompletion. cbn.
  destruct (truthy (SettingsStore.apiKey (settings w))); cbn;
    (split; [intros k Hk; unfold storage_set; by rewrite lookup_insert_ne|]);
    (split; [by apply prefix_app_r|]); (split; [done|]); (split; [done|]);
    (split; [intros h p Hp; rewrite lookup_insert_ne; [done|];
             apply Hne; by eexists
            |intros h Hh; rewrite lookup_insert_ne; [done|by apply Hne]]).
Qed.

End BranchFrame.

(** X27.  [newBranch] touches three records at most: the record of the
    node it is called at, of the new node and of the answer node.  Every
    other record is as before; the children the node had follow the new
    node in their old order, and the new node is selected; the tasks that
    were registered stay registered in their order, their promises and
    result atoms are as before, and no callback is called. *)
Theorem newBranch_frame (m : Message) (nanoid1 nanoid2 : string)
    (content : option string) (fillContent addAnswer : bool) (w : World) :
  let w' := newBranch m nanoid1 nanoid2 content fillContent addAnswer w in
  let U := "#" +:+ nanoid1 in
  (forall k, k <> id m -> k <> U -> k <> "#" +:+ nanoid2 ->
             localStorage w' !! k = localStorage w !! k) /\
  children (localStorage w') (id m)
  = U :: default [] (MsgStore.messages (parentMsg m)) /\
  MsgStore.select (storage_get (id m) (localStorage w')) = Some (notnull U) /\
  atom w `prefix_of` atom w' /\
  calls w' = calls w /\
  settings w' = settings w /\
  (forall h p, promises w !! h = Some p -> promises w' !! h = Some p) /\
  (forall h, is_Some (promises w !! h) -> results w' !! h = results w !! h).
Proof.
  intros w' U.
  split; [|split; [|split]].
  - intros k Hid HU HA. unfold w', newBranch.
    destruct addAnswer, fillContent, (truthy content) as [c|],
      (default (defaultChildRole m)
               (selectedMsg m ≫= fun s => MsgStore.role (data s)));
      cbn [localStorage set_localStorage]; unfold storage_set;
      rewrite ?lookup_insert_ne by done;
      try reflexivity;
      match goal with
      | |- context [newMessageCompletion ?i ?ms ?w0] =>
          destruct (newMessageCompletion_frame i ms w0) as (Hf & _);
          rewrite Hf by done
      end;
      cbn [localStorage set_localStorage]; unfold storage_set;
      by rewrite ?lookup_insert_ne by done.
  - unfold w', newBranch.
    destruct addAnswer, fillContent, (truthy content) as [c|],
      (default (defaultChildRole m)
               (selectedMsg m ≫= fun s => MsgStore.role (data s)));
      cbn [localStorage set_localStorage];
      unfold children, storage_get, storage_set;
      by rewrite lookup_insert_eq.
  - unfold w', newBranch.
    destruct addAnswer, fillContent, (truthy content) as [c|],
      (default (defaultChildRole m)
               (selectedMsg m ≫= fun s => MsgStore.role (data s)));
      cbn [localStorage set_localStorage];
      unfold storage_get, storage_set;
      by rewrite lookup_insert_eq.
  - unfold w', newBranch.
    destruct addAnswer, fillContent, (truthy content) as [c|],
      (default (defaultChildRole m)
               (selectedMsg m ≫= fun s => MsgStore.role (data s)));
      cbn [atom calls settings promises results set_localStorage];
      first [ by repeat split
            | match goal with
              | |- context [newMessageCompletion ?i ?ms ?w0] =>
                  destruct (newMessageCompletion_frame i ms w0)
                    as (_ & H1 & H2 & H3 & H4 & H5);
                  repeat split; assumption
              end ].
Qed.

(** X28.  [storage<MsgStore>] behaves as a map from keys to records.  When
    every text in [localStorage] is the JSON text of an object and [rs]
    holds the record each of them reads as, then [get()] parses and gives
    the record [rs] has for the key (the empty record for a missing key),
    and after [set()] of a record, and after [del()], [rs] with that key
    set, or removed, is again what [localStorage] reads as. *)
Theorem storage_simulates_records (ls : DOMStorage) (rs : Records)
    (key : string) (r : MsgStore.t) :
  represents ls rs ->
  (exists o, storage.get key ls = Some o /\
             MsgStore_of o = storage_get key rs) /\
  represents (storage.set key (MsgStore_object r) ls) (storage_set key r rs) /\
  represents (storage.del key ls) (storage_del key rs).
Proof.
  intros H. split; [by apply represents_get|]. split.
  - unfold MsgStore_object. apply represents_set; [done|].
    apply (MsgStore_of_object r).
  - by apply represents_del.
Qed.

Lemma storage_simulates_records_witness :
  represents (storage.set "#a" (MsgStore_object (placeholder "#a")) ∅)
             (storage_set "#a" (placeholder "#a") ∅) /\
  exists o,
    storage.get "#a" (storage.set "#a" (MsgStore_object (placeholder "#a")) ∅)
    = Some o /\
    MsgStore_of o = placeholder "#a".
Proof.
  assert (H0 : represents ∅ ∅).
  { intros k. by rewrite !lookup_empty. }
  destruct (storage_simulates_records ∅ ∅ "#a" (placeholder "#a") H0)
    as (_ & H1 & _).
  split; [exact H1|].
  destruct (storage_simulates_records _ _ "#a" (placeholder "#a") H1)
    as ((o & Ho & Hr) & _).
  exists o. split; [exact Ho|]. rewrite Hr. reflexivity.
Defined.

(** X29.  An error that arrives after the node was deleted brings a record
    back.  When an answer was deleted while it streamed and its request
    then fails with an error that is not named [AbortError], the [catch]
    handler writes [meta.error] for the node: storage has a record under
    the id of the answer again, holding nothing but [meta] with the JSON
    text of the error, although the user node above it has no child. *)
Theorem error_after_delete_restores_record (id : string)
    (ic : list ChatMessage) (nanoid1 nanoid2 content : string)
    (cs : list (option string)) (error : JsError) (w : World) :
  is_Some (truthy (SettingsStore.apiKey (settings w))) ->
  content <> "" ->
  newBranch_role (mount id ic w) = user ->
  "#" +:+ nanoid1 <> id ->
  "#" +:+ nanoid2 <> id ->
  nanoid1 <> nanoid2 ->
  err_name error <> "AbortError" ->
  let U := "#" +:+ nanoid1 in
  let A := "#" +:+ nanoid2 in
  let h := fresh_handle w in
  let path := ic ++ [{| chat_role := node_role user;
                        chat_content := content |}] in
  let w' := onSubmit (mount id ic w) nanoid1 nanoid2 content send w in
  let ws := steps h (map Chunk cs) w' in
  exists wdel,
    handleItemDelete (mount U path ws) A ws = Some wdel /\
    localStorage wdel !! A = None /\
    let wfin := steps h [Throw error; Microtask] wdel in
    localStorage wfin !! A
    = Some (MsgStore.with_meta
              (Some (Meta.mk None (Some (err_json error)))) MsgStore.empty) /\
    children (localStorage wfin) U = [] /\
    find_task A wfin = None.
Proof.
  intros Hkey Hc Hrole HU HA Hn Hname U A h path w' ws.
  destruct (send_then_chunks id ic nanoid1 nanoid2 content cs w
              Hkey Hc Hrole HU HA Hn)
    as (HsU & HsA & Hat & Hrs & p & Hp & Hid & Hdone & Hph & Herr).
  fold U A h w' ws in HsU, HsA, Hat, Hrs, Hp, Herr.
  assert (HUA : U <> A) by (intros H; by apply hash_inj in H).
  set (parent' := MsgStore.with_messages (Some [])
                    (MsgStore.with_select (Some null)
                       (storage_get U (localStorage ws)))).
  assert (Hdel : handleItemDelete (mount U path ws) A ws
                 = recDel (S (size (<[U := parent']> (localStorage ws)))) A
                     (set_localStorage (storage_set U parent') ws)).
  { unfold handleItemDelete.
    assert (Hms : newMsgs (mount U path ws) A = []).
    { unfold newMsgs, mount, render. cbn [parentMsg]. rewrite HsU.
      cbn. by rewrite bool_decide_eq_true_2. }
    assert (Hsel : newSelected (mount U path ws) A = Some null).
    { unfold newSelected. rewrite Hms.
      unfold mount, render. cbn [parentMsg]. rewrite HsU.
      cbn [MsgStore.select]. rewrite decide_True by done.
      unfold at_index. by repeat case_decide. }
    rewrite Hms, Hsel. reflexivity. }
  set (w1 := set_localStorage (storage_set U parent') ws) in *.
  destruct (recDel_terminates (S (size (localStorage w1))) A w1)
    as (wdel & Hrun & (_ & (_ & _ & _ & _ & Hprd & _) & _) & HlsA & _);
    [lia|].
  exists wdel. split; [by rewrite Hdel|]. split; [done|].
  assert (HlsU : localStorage wdel !! U = Some parent').
  { destruct (recDel_frame _ _ _ _ Hrun U) as [Heq|[_ Hreach]].
    - rewrite Heq. unfold w1. cbn [localStorage set_localStorage].
      unfold storage_set. apply lookup_insert_eq.
    - exfalso. inversion Hreach as [|? c ? Hc' _]; subst; [done|].
      unfold children, w1 in Hc'. cbn [localStorage set_localStorage] in Hc'.
      unfold storage_get, storage_set in Hc'.
      rewrite lookup_insert_ne in Hc' by done.
      fold (storage_get A (localStorage ws)) in Hc'. rewrite HsA in Hc'.
      case_decide; by apply elem_of_nil in Hc'. }
  destruct (steps_throw_error h p (chunks_text cs) error wdel)
    as (_ & Hlsf & _ & _ & Hatf & _).
  { rewrite Hprd. exact Hp. }
  { exact Hph. }
  { exact Hname. }
  cbv zeta. rewrite Herr in Hlsf. rewrite Hlsf.
  split; [|split].
  - unfold storage_set, storage_get. rewrite lookup_insert_eq, HlsA.
    reflexivity.
  - unfold children, storage_get, storage_set.
    rewrite lookup_insert_ne by done. by rewrite HlsU.
  - apply find_task_None. unfold task_ids. rewrite Hatf, Hid.
    apply filter_task_ids.
Qed.

Lemma error_after_delete_restores_record_witness :
  let w' := onSubmit (mount "#0000" [] (empty_world example_settings))
              "aaaa" "bbbb" "hi" send (empty_world example_settings) in
  let ws := steps 0 (map Chunk [Some "hel"]) w' in
  exists wdel,
    handleItemDelete (mount "#aaaa" (hi_path []) ws) "#bbbb" ws = Some wdel /\
    localStorage wdel !! "#bbbb" = None /\
    localStorage
      (steps 0 [Throw {| err_name := "Error"; err_json := "{}" |}; Microtask]
         wdel) !! "#bbbb"
    = Some (MsgStore.with_meta (Some (Meta.mk None (Some "{}")))
              MsgStore.empty).
Proof.
  destruct (error_after_delete_restores_record "#0000" [] "aaaa" "bbbb" "hi"
              [Some "hel"] {| err_name := "Error"; err_json := "{}" |}
              (empty_world example_settings))
    as (wdel & H1 & H2 & H3 & _).
  - by eexists.
  - discriminate.
  - reflexivity.
  - discriminate.
  - discriminate.
  - discriminate.
  - discriminate.
  - cbv zeta. exists wdel. split; [exact H1|]. split; [exact H2|exact H3].
Defined.

(* ===================================================================== *)
(** * The weights along a path to the root *)
(* ===================================================================== *)

Section WeightPath.

Implicit Types (w : World) (ls : Records).

Lemma children_weight_frame ls ls' m :
  children ls' m = children ls m ->
  (forall c, c ∈ children ls m ->
             MsgStore.weight (storage_get c ls')
             = MsgStore.weight (storage_get c ls)) ->
  children_weight ls' m = children_weight ls m.
Proof.
  intros Hch Hw. unfold children_weight. rewrite Hch.
  revert Hw. generalize (children ls m). intros l.
  induction l as [|c l IH]; intros Hw; [done|].
  cbn [foldr]. rewrite (Hw c) by apply list_elem_of_here.
  rewrite IH; [done|]. intros c' Hc'. apply Hw. by apply list_elem_of_further.
Qed.

(** One effect, at [n]: the weight equation holds at [n] afterwards, it
    still holds where it did at the nodes that are not [n] and have not
    [n] as a child, and no list of children changed. *)
Lemma layoutEffect_step n w :
  n ∉ children (localStorage w) n ->
  let w' := layoutEffect (mount n [] w) w in
  weight_ok (localStorage w') n /\
  (forall m, children (localStorage w') m = children (localStorage w) m) /\
  (forall m, m <> n -> n ∉ children (localStorage w) m ->
             weight_ok (localStorage w) m -> weight_ok (localStorage w') m).
Proof.
  intros Hn w'.
  destruct (layoutEffect_spec n [] w Hn) as (Hr & Hcw & Hch & Hframe & _).
  fold w' in Hr, Hcw, Hch, Hframe.
  assert (Hchm : forall m, children (localStorage w') m
                           = children (localStorage w) m).
  { intros m. destruct (decide (m = n)) as [->|Hne]; [done|].
    unfold children, storage_get. by rewrite Hframe. }
  split; [|split; [done|]].
  - unfold weight_ok. by rewrite Hr, Hcw.
  - intros m Hne Hnm Hok. unfold weight_ok in *.
    assert (Hm : storage_get m (localStorage w')
                 = storage_get m (localStorage w)).
    { unfold storage_get. by rewrite Hframe. }
    rewrite Hm, Hok. symmetry. apply children_weight_frame; [done|].
    intros c Hc. destruct (decide (c = n)) as [->|Hcn]; [done|].
    unfold storage_get. by rewrite Hframe.
Qed.

Lemma upwards_ext ls ls' path :
  (forall m, children ls' m = children ls m) ->
  upwards ls path -> upwards ls' path.
Proof.
  intros Hch. induction path as [|n path IH]; [done|].
  cbn [upwards]. rewrite Hch. intros (Hn & Hrest & Hup).
  split; [done|]. split; [done|]. by apply IH.
Qed.

Lemma layoutEffects_invariant path :
  forall w,
    upwards (localStorage w) path ->
    let w' := layoutEffects path w in
    (forall m, children (localStorage w') m = children (localStorage w) m) /\
    Forall (weight_ok (localStorage w')) path /\
    (forall m, weight_ok (localStorage w) m ->
       Forall (fun x => x <> m /\ (x ∉ children (localStorage w) m)) path ->
       weight_ok (localStorage w') m).
Proof.
  induction path as [|n path IH]; intros w Hup.
  - simpl. split; [done|]. split; [constructor|]. by intros m Hm _.
  - destruct Hup as (Hn & Hrest & Hup).
    destruct (layoutEffect_step n w Hn) as (Hok1 & Hch1 & Hkeep1).
    set (w1 := layoutEffect (mount n [] w) w) in *.
    destruct (IH w1) as (Hch & Hoks & Hkeep).
    { by apply (upwards_ext (localStorage w)). }
    change (layoutEffects (n :: path) w) with (layoutEffects path w1).
    cbv zeta in *.
    assert (Hcond : forall m,
              Forall (fun x => x <> m /\ (x ∉ children (localStorage w) m)) path ->
              Forall (fun x => x <> m /\ (x ∉ children (localStorage w1) m)) path).
    { intros m Hall. eapply Forall_impl; [exact Hall|].
      intros x [H1 H2]. split; [done|]. by rewrite Hch1. }
    split; [|split].
    + intros m. by rewrite Hch, Hch1.
    + constructor; [|done]. apply Hkeep; [done|]. by apply Hcond.
    + intros m Hm Hall. apply Forall_cons in Hall as [[Hne Hnc] Hall].
      apply Hkeep; [|by apply Hcond].
      apply Hkeep1; [by intros ->|done|done].
Qed.

End WeightPath.

(** X30.  The layout effects that run from a node up its ancestors
    (each asks its parent for a render when it writes) put the weights of
    the whole path right: when no node of the path is its own child and no
    node is a child of one that comes before it, after the effects every
    node of the path has the sum over its children of [1 + weight] as its
    weight, and no list of children changed. *)
Theorem layoutEffects_upwards (path : list string) (w : World) :
  upwards (localStorage w) path ->
  let w' := layoutEffects path w in
  Forall (weight_ok (localStorage w')) path /\
  (forall m, children (localStorage w') m = children (localStorage w) m).
Proof.
  intros Hup w'.
  destruct (layoutEffects_invariant path w Hup) as (Hch & Hoks & _).
  by split.
Qed.

Lemma layoutEffects_upwards_witness :
  let w' := layoutEffects ["#aaaa"; "#0000"] example_world in
  Forall (weight_ok (localStorage w')) ["#aaaa"; "#0000"] /\
  MsgStore.weight (storage_get "#0000" (localStorage w')) = Some 2.
Proof.
  destruct (layoutEffects_upwards ["#aaaa"; "#0000"] example_world)
    as (H & _).
  - assert (Hch0 : children (localStorage example_world) "#0000" = ["#aaaa"])
      by (vm_compute; reflexivity).
    assert (Hch1 : children (localStorage example_world) "#aaaa" = ["#bbbb"])
      by (vm_compute; reflexivity).
    cbn [upwards]. rewrite Hch0, Hch1.
    assert (Hne : forall a b : string, a <> b -> a ∉ [b]).
    { intros a b Hab Hin. apply list_elem_of_singleton in Hin. done. }
    split; [by apply Hne|]. split.
    + constructor; [|constructor]. split; [done|by apply Hne].
    + split; [by apply Hne|]. split; [constructor|done].
  - cbv zeta. split; [exact H|]. vm_compute. reflexivity.
Defined.

(* ===================================================================== *)
(** * Weight, after every mutation *)
(* ===================================================================== *)

Section AfterMutation.

(** The effects along a path that leads upwards leave every node with the
    weight of its children, when the nodes off the path had it before and
    have no child on the path. *)
Lemma layoutEffects_restore path w :
  upwards (localStorage w) path ->
  (forall n, n ∉ path ->
     weight_ok (localStorage w) n /\
     forall x, x ∈ path -> x ∉ children (localStorage w) n) ->
  forall n, weight_ok (localStorage (layoutEffects path w)) n.
Proof.
  intros Hup Hoff n.
  destruct (layoutEffects_invariant path w Hup) as (_ & Hon & Hkeep).
  destruct (decide (n ∈ path)) as [Hin|Hout].
  - by apply (proj1 (Forall_forall _ _) Hon).
  - destruct (Hoff n Hout) as [Hok Hch].
    apply Hkeep; [exact Hok|].
    apply Forall_forall. intros x Hx.
    split; [by intros ->|by apply Hch].
Qed.

(** The effects leave a weight stored at each node they visit, and where
    one was stored. *)
Lemma layoutEffects_keeps_stored path :
  forall w m,
    upwards (localStorage w) path ->
    is_Some (MsgStore.weight (storage_get m (localStorage w))) ->
    is_Some (MsgStore.weight
               (storage_get m (localStorage (layoutEffects path w)))).
Proof.
  induction path as [|n path IH]; intros w m Hup Hm; [done|].
  destruct Hup as (Hn & _ & Hup).
  destruct (layoutEffect_step n w Hn) as (_ & Hch1 & _).
  destruct (layoutEffect_spec n [] w Hn) as (Hr & _ & _ & Hframe & _).
  change (layoutEffects (n :: path) w)
    with (layoutEffects path (layoutEffect (mount n [] w) w)).
  apply IH; [by apply (upwards_ext (localStorage w))|].
  destruct (decide (m = n)) as [->|Hne].
  - rewrite Hr. by eexists.
  - unfold storage_get. rewrite Hframe by done. exact Hm.
Qed.

Lemma layoutEffects_stored path :
  forall w n,
    upwards (localStorage w) path -> n ∈ path ->
    is_Some (MsgStore.weight
               (storage_get n (localStorage (layoutEffects path w)))).
Proof.
  induction path as [|x path IH]; intros w n Hup Hin;
    [by apply elem_of_nil in Hin|].
  destruct Hup as (Hx & _ & Hup).
  destruct (layoutEffect_step x w Hx) as (_ & Hch1 & _).
  destruct (layoutEffect_spec x [] w Hx) as (Hr & _).
  assert (Hup1 : upwards (localStorage (layoutEffect (mount x [] w) w)) path)
    by (by apply (upwards_ext (localStorage w))).
  change (layoutEffects (x :: path) w)
    with (layoutEffects path (layoutEffect (mount x [] w) w)).
  apply elem_of_cons in Hin as [->|Hin]; [|by apply IH].
  apply layoutEffects_keeps_stored; [done|]. rewrite Hr. by eexists.
Qed.

Lemma children_weight_read ls ls' m :
  children ls' m = children ls m ->
  (forall c, c ∈ children ls m ->
             default 0 (MsgStore.weight (storage_get c ls'))
             = default 0 (MsgStore.weight (storage_get c ls))) ->
  children_weight ls' m = children_weight ls m.
Proof.
  intros Hch Hw. unfold children_weight. rewrite Hch.
  revert Hw. generalize (children ls m). intros l.
  induction l as [|c l IH]; intros Hw; [done|].
  cbn [foldr]. rewrite (Hw c) by apply list_elem_of_here.
  rewrite IH; [done|]. intros c' Hc'. apply Hw. by apply list_elem_of_further.
Qed.

(** Where every node has the weight of its children, an effect keeps it
    so: what it writes reads as what was stored. *)
Lemma layoutEffect_keeps_all x w :
  x ∉ children (localStorage w) x ->
  (forall n, weight_ok (localStorage w) n) ->
  forall n, weight_ok (localStorage (layoutEffect (mount x [] w) w)) n.
Proof.
  intros Hx Hok n.
  destruct (layoutEffect_step x w Hx) as (Hokx & Hch & _).
  destruct (layoutEffect_spec x [] w Hx) as (Hr & _ & _ & Hframe & _).
  set (w' := layoutEffect (mount x [] w) w) in *.
  destruct (decide (n = x)) as [->|Hne]; [done|].
  unfold weight_ok.
  assert (Hn : storage_get n (localStorage w')
               = storage_get n (localStorage w)).
  { unfold storage_get. by rewrite Hframe. }
  rewrite Hn, (Hok n). symmetry.
  apply children_weight_read; [done|].
  intros c _. destruct (decide (c = x)) as [->|Hcx].
  - rewrite Hr. cbn. symmetry. apply Hok.
  - unfold storage_get. by rewrite Hframe.
Qed.

Lemma layoutEffects_keep_all further :
  forall w,
    Forall (fun x => x ∉ children (localStorage w) x) further ->
    (forall n, weight_ok (localStorage w) n) ->
    forall n, weight_ok (localStorage (layoutEffects further w)) n.
Proof.
  induction further as [|x further IH]; intros w Hall Hok; [done|].
  apply Forall_cons in Hall as [Hx Hall].
  destruct (layoutEffect_step x w Hx) as (_ & Hch & _).
  change (layoutEffects (x :: further) w)
    with (layoutEffects further (layoutEffect (mount x [] w) w)).
  apply IH; [|by apply layoutEffect_keeps_all].
  eapply Forall_impl; [exact Hall|]. intros y Hy. by rewrite Hch.
Qed.

Lemma upwards_ext_in ls ls' path :
  (forall m, m ∈ path -> children ls' m = children ls m) ->
  upwards ls path -> upwards ls' path.
Proof.
  induction path as [|n path IH]; [done|].
  intros Hch (H1 & H2 & H3). cbn.
  rewrite (Hch n) by apply list_elem_of_here.
  split; [done|]. split; [done|].
  apply IH; [|done]. intros m Hm. apply Hch. by apply list_elem_of_further.
Qed.

Lemma weight_ok_frame ls ls' n :
  MsgStore.weight (storage_get n ls') = MsgStore.weight (storage_get n ls) ->
  children ls' n = children ls n ->
  (forall c, c ∈ children ls n ->
             MsgStore.weight (storage_get c ls')
             = MsgStore.weight (storage_get c ls)) ->
  weight_ok ls n -> weight_ok ls' n.
Proof.
  intros Hw Hc Hcs Hok. unfold weight_ok.
  by rewrite Hw, (children_weight_frame ls ls' n Hc Hcs).
Qed.

Lemma weight_ok_missing ls n : ls !! n = None -> weight_ok ls n.
Proof.
  intros Hn. unfold weight_ok, children_weight, children, storage_get.
  by rewrite Hn.
Qed.

Lemma children_missing ls n : ls !! n = None -> children ls n = [].
Proof. intros Hn. unfold children, storage_get. by rewrite Hn. Qed.

(** A record written with the weight and the children it had. *)
Lemma insert_same_shape ls k r :
  MsgStore.weight r = MsgStore.weight (storage_get k ls) ->
  MsgStore.messages r = MsgStore.messages (storage_get k ls) ->
  forall j,
    MsgStore.weight (storage_get j (<[k := r]> ls))
    = MsgStore.weight (storage_get j ls) /\
    children (<[k := r]> ls) j = children ls j.
Proof.
  intros Hw Hm j. unfold children, storage_get.
  destruct (decide (j = k)) as [->|Hne].
  - rewrite lookup_insert_eq. cbn [default Datatypes.id].
    unfold storage_get in Hw, Hm. by rewrite Hw, Hm.
  - by rewrite lookup_insert_ne.
Qed.

Lemma same_shape_premises ls ls' path :
  (forall j, MsgStore.weight (storage_get j ls')
             = MsgStore.weight (storage_get j ls) /\
             children ls' j = children ls j) ->
  (forall n, weight_ok ls n) ->
  upwards ls path ->
  (forall n x, x ∈ path -> x ∈ children ls n -> n ∈ path) ->
  upwards ls' path /\
  forall n, n ∉ path ->
    weight_ok ls' n /\ forall x, x ∈ path -> x ∉ children ls' n.
Proof.
  intros Hsame Hok Hup Hclosed. split.
  - apply (upwards_ext ls); [|done]. intros j. apply Hsame.
  - intros n Hn. split.
    + apply (weight_ok_frame ls); [apply Hsame|apply Hsame| |apply Hok].
      intros c _. apply Hsame.
    + intros x Hx Hc. destruct (Hsame n) as [_ Hch]. rewrite Hch in Hc.
      apply Hn. by apply (Hclosed n x).
Qed.

(** [z] is reached from [a] by a last step. *)
Lemma reachable_last ls a z :
  reachable ls a z ->
  z = a \/ exists y, reachable ls a y /\ z ∈ children ls y.
Proof.
  induction 1 as [x|x y z Hy Hyz IH]; [by left|].
  right. destruct IH as [->|(y' & Hy' & Hz)].
  - exists x. split; [constructor|done].
  - exists y'. split; [|done]. by apply reachable_step with y.
Qed.

(** Rewriting a record that is not reached keeps what is reached. *)
Lemma reachable_insert_other ls k r a z :
  (forall y, reachable ls a y -> y <> k) ->
  reachable ls a z -> reachable (<[k := r]> ls) a z.
Proof.
  intros Hk Hreach. induction Hreach as [x|x y z Hy Hyz IH]; [constructor|].
  apply reachable_step with y.
  - unfold children, storage_get. rewrite lookup_insert_ne; [done|].
    intros <-. by apply (Hk k); [constructor|].
  - apply IH. intros y' Hy'. apply Hk. by apply reachable_step with y.
Qed.

(** What [newMessageCompletion] leaves in storage, whether or not there is
    an API key. *)
Lemma newMessageCompletion_storage msgId messages w :
  localStorage (newMessageCompletion msgId messages w)
  = <[msgId := MsgStore.with_meta
                 (Some (Meta.mk (SettingsStore.model (settings w)) None))
                 (storage_get msgId (localStorage w))]> (localStorage w).
Proof.
  unfold newMessageCompletion, newTask, chatCompletion. cbn.
  by destruct (truthy (SettingsStore.apiKey (settings w))).
Qed.

(** The records [newBranch] leaves, as far as weights and children go. *)
Lemma newBranch_records m nanoid1 nanoid2 content fillContent addAnswer w :
  let U := "#" +:+ nanoid1 in
  let A := "#" +:+ nanoid2 in
  let w' := newBranch m nanoid1 nanoid2 content fillContent addAnswer w in
  let ls' := localStorage w' in
  U <> A -> U <> id m -> A <> id m ->
  localStorage w !! A = None ->
  storage_get (id m) ls'
  = MsgStore.with_select (Some (notnull U))
      (MsgStore.with_messages
         (Some (U :: default [] (MsgStore.messages (parentMsg m))))
         (parentMsg m)) /\
  (forall k, k <> id m -> k <> U -> k <> A ->
             ls' !! k = localStorage w !! k) /\
  MsgStore.weight (storage_get U ls') = None /\
  MsgStore.weight (storage_get A ls') = None /\
  children ls' A = [] /\
  ((children ls' U = [A] /\ task_ids w' = task_ids w ++ [A]) \/
   children ls' U = []).
Proof.
  intros U A w' ls' HUA HU HA HAnone.
  unfold ls', w', newBranch. fold U A.
  destruct addAnswer, fillContent, (truthy content) as [c|],
    (default (defaultChildRole m)
             (selectedMsg m ≫= fun s => MsgStore.role (data s)));
    cbn [localStorage set_localStorage];
    rewrite ?newMessageCompletion_storage;
    cbn [localStorage set_localStorage];
    unfold children, storage_get, storage_set;
    (split; [by rewrite lookup_insert_eq|]);
    (split; [intros k Hk1 Hk2 Hk3; by rewrite ?lookup_insert_ne by done|]);
    rewrite (lookup_insert_ne _ (id m) U) by done;
    rewrite (lookup_insert_ne _ (id m) A) by done;
    rewrite ?lookup_insert_eq;
    rewrite ?(lookup_insert_ne _ U A) by done;
    rewrite ?lookup_insert_eq;
    rewrite ?HAnone;
    cbn [default Datatypes.id MsgStore.weight MsgStore.messages MsgStore.with_meta
         MsgStore.with_select MsgStore.with_messages MsgStore.empty];
    (split; [reflexivity|]); (split; [reflexivity|]);
    (split; [reflexivity|]);
    first [ by right
          | left; split; [reflexivity|];
            unfold task_ids; cbn [atom set_localStorage];
            apply newMessageCompletion_task_ids ].
Qed.

(** After [newBranch] with new ids: the effects that follow go upwards, and
    the nodes they do not visit have the weight of their children and no
    child among the nodes visited. *)
Lemma newBranch_premises m nanoid1 nanoid2 content fillContent addAnswer
    ancestors w :
  (forall n, weight_ok (localStorage w) n) ->
  parentMsg m = storage_get (id m) (localStorage w) ->
  upwards (localStorage w) (id m :: ancestors) ->
  (forall n x, x ∈ id m :: ancestors -> x ∈ children (localStorage w) n ->
               n ∈ id m :: ancestors) ->
  admissible m (NewBranch nanoid1 nanoid2 content fillContent addAnswer)
             ancestors w ->
  let mu := NewBranch nanoid1 nanoid2 content fillContent addAnswer in
  let w' := newBranch m nanoid1 nanoid2 content fillContent addAnswer w in
  let path := effects_after m mu ancestors w' in
  upwards (localStorage w') path /\
  forall n, n ∉ path ->
    weight_ok (localStorage w') n /\
    forall x, x ∈ path -> x ∉ children (localStorage w') n.
Proof.
  intros Hok Hcur Hup Hclosed (Hn12 & Hfresh & Htask) mu w' path.
  set (ls := localStorage w) in *.
  set (U := "#" +:+ nanoid1) in *. set (A := "#" +:+ nanoid2) in *.
  set (P := id m) in *.
  apply Forall_cons in Hfresh as [(HUnone & HUpath & HUchild) Hfresh].
  apply Forall_cons in Hfresh as [(HAnone & HApath & HAchild) _].
  assert (HUA : U <> A) by (intros H; by apply hash_inj in H).
  assert (HUP : U <> P).
  { intros H. apply HUpath. rewrite H. apply list_elem_of_here. }
  assert (HAP : A <> P).
  { intros H. apply HApath. rewrite H. apply list_elem_of_here. }
  destruct (newBranch_records m nanoid1 nanoid2 content fillContent
              addAnswer w HUA HUP HAP HAnone)
    as (HP & Hframe & HwU & HwA & HcA & HcU).
  fold U A P w' in HP, Hframe, HwU, HwA, HcA, HcU.
  set (ls' := localStorage w') in *.
  destruct Hup as (HPP & HPanc & Hupanc).
  assert (F1 : children ls' P = U :: children ls P).
  { unfold children at 1. rewrite HP. unfold children. by rewrite <- Hcur. }
  assert (F2 : MsgStore.weight (storage_get P ls')
               = MsgStore.weight (storage_get P ls)).
  { rewrite HP. by rewrite <- Hcur. }
  assert (F5 : forall k, k <> P -> k <> U -> k <> A ->
                         storage_get k ls' = storage_get k ls).
  { intros k H1 H2 H3. unfold storage_get. by rewrite Hframe. }
  assert (Hanc : forall x, x ∈ ancestors -> x <> P /\ x <> U /\ x <> A).
  { intros x Hx. split; [|split].
    - by apply (proj1 (Forall_forall _ _) HPanc x Hx).
    - intros ->. apply HUpath. by apply list_elem_of_further.
    - intros ->. apply HApath. by apply list_elem_of_further. }
  assert (Hup0 : upwards ls' (P :: ancestors)).
  { cbn. split; [|split].
    - rewrite F1. apply not_elem_of_cons. by split.
    - apply Forall_forall. intros x Hx.
      destruct (Hanc x Hx) as (H1 & H2 & H3).
      split; [done|]. rewrite F1. apply not_elem_of_cons. split; [done|].
      by apply (proj1 (Forall_forall _ _) HPanc x Hx).
    - apply (upwards_ext_in ls); [|done]. intros x Hx.
      destruct (Hanc x Hx) as (H1 & H2 & H3).
      unfold children. by rewrite F5. }
  assert (HcU' : forall x, x ∈ children ls' U -> x = A).
  { intros x Hx. destruct HcU as [[HcU _]|HcU]; rewrite HcU in Hx.
    - by apply list_elem_of_singleton in Hx.
    - by apply elem_of_nil in Hx. }
  assert (Hpath : path = P :: ancestors /\ children ls' U = [] \/
                  path = U :: P :: ancestors).
  { unfold path, effects_after, mu. fold U P.
    destruct (find_task U w') as [t|] eqn:Hfind; [left|by right].
    split; [done|].
    destruct HcU as [[_ Hids]|HcU]; [|done].
    rewrite find_task_None in Hfind; [done|].
    rewrite Hids. intros Hin. apply elem_of_app in Hin as [Hin|Hin]; [done|].
    apply list_elem_of_singleton in Hin. done. }
  assert (HupU : upwards ls' (U :: P :: ancestors)).
  { split; [|split; [|exact Hup0]].
    - intros Hin. by apply HcU' in Hin.
    - apply Forall_forall. intros x Hx. split.
      + intros ->. done.
      + intros Hin. apply HcU' in Hin. by subst x. }
  assert (Hrest : forall n, n <> U -> n ∉ P :: ancestors ->
            weight_ok ls' n /\
            forall x, x ∈ U :: P :: ancestors -> x ∉ children ls' n).
  { intros n HnU Hn.
    assert (HnP : n <> P) by (intros ->; apply Hn, list_elem_of_here).
    destruct (decide (n = A)) as [->|HnA].
    { split.
      - unfold weight_ok, children_weight. by rewrite HwA, HcA.
      - intros x _. rewrite HcA. apply not_elem_of_nil. }
    assert (Hch : children ls' n = children ls n).
    { unfold children. by rewrite F5. }
    split.
    - apply (weight_ok_frame ls); [by rewrite F5|done| |apply Hok].
      intros c Hc. rewrite F5; [done| | |].
      + intros ->. apply Hn. apply (Hclosed n P); [apply list_elem_of_here|done].
      + intros ->. by apply (HUchild n).
      + intros ->. by apply (HAchild n).
    - intros x Hx. rewrite Hch. intros Hc.
      apply elem_of_cons in Hx as [->|Hx]; [by apply (HUchild n)|].
      apply Hn. by apply (Hclosed n x). }
  destruct Hpath as [[-> HUleaf]| ->].
  - split; [exact Hup0|]. intros n Hn.
    destruct (decide (n = U)) as [->|HnU].
    + split.
      * unfold weight_ok, children_weight. by rewrite HwU, HUleaf.
      * intros x _. rewrite HUleaf. apply not_elem_of_nil.
    + destruct (Hrest n HnU Hn) as [H1 H2]. split; [done|].
      intros x Hx. apply H2. by apply list_elem_of_further.
  - split; [exact HupU|]. intros n Hn.
    apply not_elem_of_cons in Hn as [HnU Hn]. by apply Hrest.
Qed.

(** After [handleItemDelete] of a child, in a tree. *)
Lemma handleItemDelete_premises m msgId ancestors w :
  (forall n, weight_ok (localStorage w) n) ->
  parentMsg m = storage_get (id m) (localStorage w) ->
  upwards (localStorage w) (id m :: ancestors) ->
  (forall n x, x ∈ id m :: ancestors -> x ∈ children (localStorage w) n ->
               n ∈ id m :: ancestors) ->
  admissible m (ItemDelete msgId) ancestors w ->
  exists w',
    handleItemDelete m msgId w = Some w' /\
    upwards (localStorage w') (id m :: ancestors) /\
    forall n, n ∉ id m :: ancestors ->
      weight_ok (localStorage w') n /\
      forall x, x ∈ id m :: ancestors -> x ∉ children (localStorage w') n.
Proof.
  intros Hok Hcur Hup Hclosed (Hchild & Hbelow & Hsingle).
  set (ls := localStorage w) in *. set (P := id m) in *.
  unfold handleItemDelete. fold P.
  set (parent' := MsgStore.with_messages (Some (newMsgs m msgId))
                    (MsgStore.with_select (newSelected m msgId)
                                          (parentMsg m))).
  set (w1 := set_localStorage (storage_set P parent') w).
  destruct (recDel_terminates (S (size (localStorage w1))) msgId w1)
    as (w' & Hrun & Hcl & Hnone & Habort); [lia|].
  pose proof (recDel_frame _ _ _ _ Hrun) as Hrem.
  exists w'. split; [exact Hrun|].
  set (ls' := localStorage w') in *.
  assert (Hls1 : localStorage w1 = <[P := parent']> ls) by reflexivity.
  rewrite Hls1 in Hrem.
  assert (Hch1P : children (<[P := parent']> ls) P = newMsgs m msgId).
  { unfold children, storage_get. by rewrite lookup_insert_eq. }
  assert (HsubP : forall c, c ∈ newMsgs m msgId -> c ∈ children ls P).
  { intros c Hc. unfold newMsgs in Hc.
    apply list_elem_of_In, filter_In in Hc as [Hc _].
    apply list_elem_of_In in Hc. unfold children. by rewrite <- Hcur. }
  assert (Hother : forall k, k <> P -> <[P := parent']> ls !! k = ls !! k).
  { intros k Hk. by rewrite lookup_insert_ne. }
  assert (Hsub : forall n c, c ∈ children (<[P := parent']> ls) n ->
                             c ∈ children ls n).
  { intros n c Hc. destruct (decide (n = P)) as [->|Hne].
    - rewrite Hch1P in Hc. by apply HsubP.
    - unfold children, storage_get in Hc |- *. by rewrite Hother in Hc. }
  assert (R1 : forall x, reachable (<[P := parent']> ls) msgId x ->
                         reachable ls msgId x).
  { intros x. by apply reachable_incl. }
  assert (HnotP : forall y, reachable ls msgId y -> y <> P).
  { intros y Hy ->. by apply (Hbelow P); [apply list_elem_of_here|]. }
  assert (R2 : forall x, reachable ls msgId x ->
                         reachable (<[P := parent']> ls) msgId x).
  { intros x. by apply reachable_insert_other. }
  assert (Hgone : forall x, reachable ls msgId x -> ls' !! x = None).
  { intros x Hx.
    by destruct (closed_removal_reachable w1 w' msgId x Hcl Hnone Habort
                   (R2 x Hx)). }
  assert (Hkept : forall x, x ∈ P :: ancestors ->
                            ls' !! x = <[P := parent']> ls !! x).
  { intros x Hx. destruct (Hrem x) as [H|[_ H]]; [done|].
    exfalso. by apply (Hbelow x Hx), R1. }
  destruct Hup as (HPP & HPanc & Hupanc).
  assert (HchP : children ls' P = newMsgs m msgId).
  { unfold children, storage_get. fold ls'.
    rewrite (Hkept P) by apply list_elem_of_here.
    by rewrite lookup_insert_eq. }
  split.
  - cbn. split; [|split].
    + rewrite HchP. intros Hin. by apply HPP, HsubP.
    + apply Forall_forall. intros x Hx.
      destruct (proj1 (Forall_forall _ _) HPanc x Hx) as [H1 H2].
      split; [done|]. rewrite HchP. intros Hin. by apply H2, HsubP.
    + apply (upwards_ext_in ls); [|done]. intros x Hx.
      destruct (proj1 (Forall_forall _ _) HPanc x Hx) as [H1 H2].
      unfold children, storage_get. fold ls'.
      rewrite (Hkept x) by (by apply list_elem_of_further).
      by rewrite Hother.
  - intros n Hn.
    assert (HnP : n <> P) by (intros ->; apply Hn, list_elem_of_here).
    destruct (Hrem n) as [Hsame|[Hdel _]].
    + rewrite Hother in Hsame by done. fold ls' in Hsame.
      assert (Hch : children ls' n = children ls n).
      { unfold children, storage_get. by rewrite Hsame. }
      split.
      * apply (weight_ok_frame ls); [|done| |apply Hok].
        { unfold storage_get. by rewrite Hsame. }
        intros c Hc.
        assert (HcP : c <> P).
        { intros ->. apply Hn.
          apply (Hclosed n P); [apply list_elem_of_here|done]. }
        destruct (Hrem c) as [Hc1|[Hc1 Hc2]].
        { fold ls' in Hc1. unfold storage_get.
          by rewrite Hc1, Hother. }
        exfalso. apply R1, reachable_last in Hc2 as [->|(y & Hy & Hcy)].
        -- apply HnP. by apply (Hsingle n P msgId).
        -- assert (y = n) as -> by (by apply (Hsingle y n c)).
           pose proof (Hgone n Hy) as Hn0. fold ls' in Hn0.
           rewrite Hn0 in Hsame. symmetry in Hsame.
           rewrite (children_missing ls n Hsame) in Hc.
           by apply elem_of_nil in Hc.
      * intros x Hx. rewrite Hch. intros Hc.
        apply Hn. by apply (Hclosed n x).
    + fold ls' in Hdel. split; [by apply weight_ok_missing|].
      intros x _. rewrite (children_missing ls' n Hdel).
      apply not_elem_of_nil.
Qed.

(** C2.  Every mutation, once it completes, leaves every node with the
    weight of its children.  A mutation is one of the four handlers
    ([newBranch], [editSelect], [handleItemDelete], [handleItemClick]),
    called in the component of a node whose render holds the record of the
    node as stored; it completes with the layout effects that follow it,
    those of the new node, of the node and of its ancestors, bottom-up.
    When, before, the persisted weight of every node is the sum over its
    children [c] of [1 + weight(c)], and the node with its [ancestors] is
    the way up from the node to the root, then the same holds of every
    node after: the persisted weight of [n] is that sum, and 0 when [n] has
    no children.  (A weight that was never written reads as 0, as the code
    reads it: [c.weight || 0]; at the node and at its ancestors the sum is
    what is stored.)  The layout effects of components that are rendered
    later, such as that of a child when it is selected or of an answer when
    its task has settled, keep it so. *)
Theorem weight_after_every_mutation (m : Message) (mu : Mutation)
    (ancestors : list string) (w : World) :
  (forall n, weight_ok (localStorage w) n) ->
  parentMsg m = storage_get (id m) (localStorage w) ->
  upwards (localStorage w) (id m :: ancestors) ->
  (forall n x, x ∈ id m :: ancestors -> x ∈ children (localStorage w) n ->
               n ∈ id m :: ancestors) ->
  admissible m mu ancestors w ->
  exists w',
    completed m mu ancestors w = Some w' /\
    (forall n,
       default 0 (MsgStore.weight (storage_get n (localStorage w')))
       = children_weight (localStorage w') n /\
       (children (localStorage w') n = [] ->
        default 0 (MsgStore.weight (storage_get n (localStorage w'))) = 0)) /\
    Forall (fun n => MsgStore.weight (storage_get n (localStorage w'))
                     = Some (children_weight (localStorage w') n))
           (id m :: ancestors) /\
    forall further,
      Forall (fun x => x ∉ children (localStorage w') x) further ->
      forall n, weight_ok (localStorage (layoutEffects further w')) n.
Proof.
  intros Hok Hcur Hup Hclosed Hadm.
  assert (Hend : forall path wm,
            upwards (localStorage wm) path ->
            (forall n, n ∉ path ->
               weight_ok (localStorage wm) n /\
               forall x, x ∈ path -> x ∉ children (localStorage wm) n) ->
            (forall n, n ∈ id m :: ancestors -> n ∈ path) ->
            let w' := layoutEffects path wm in
            (forall n,
               default 0 (MsgStore.weight (storage_get n (localStorage w')))
               = children_weight (localStorage w') n /\
               (children (localStorage w') n = [] ->
                default 0 (MsgStore.weight (storage_get n (localStorage w')))
                = 0)) /\
            Forall (fun n => MsgStore.weight (storage_get n (localStorage w'))
                             = Some (children_weight (localStorage w') n))
                   (id m :: ancestors) /\
            forall further,
              Forall (fun x => x ∉ children (localStorage w') x) further ->
              forall n, weight_ok (localStorage (layoutEffects further w')) n).
  { intros path wm Hup' Hoff Hsub w'.
    pose proof (layoutEffects_restore path wm Hup' Hoff) as Hall.
    fold w' in Hall. split; [|split].
    3: { intros further Hf. by apply layoutEffects_keep_all. }
    - intros n. split; [apply Hall|]. intros Hnil.
      pose proof (Hall n) as H. unfold weight_ok, children_weight in H.
      by rewrite Hnil in H.
    - apply Forall_forall. intros n Hn.
      destruct (layoutEffects_stored path wm n Hup' (Hsub n Hn)) as [z Hz].
      fold w' in Hz. pose proof (Hall n) as H. unfold weight_ok in H.
      rewrite Hz in H |- *. cbn in H. by rewrite H. }
  unfold completed.
  destruct mu as [nanoid1 nanoid2 content fillContent addAnswer
                 |content|msgId|msgId]; cbn [mutate].
  - eexists. split; [reflexivity|].
    destruct (newBranch_premises m nanoid1 nanoid2 content fillContent
                addAnswer ancestors w Hok Hcur Hup Hclosed Hadm)
      as [Hup' Hoff].
    apply Hend; [done|done|].
    intros n Hn. unfold effects_after. apply elem_of_app. by right.
  - eexists. split; [reflexivity|].
    assert (Hsame : forall j,
              MsgStore.weight
                (storage_get j (localStorage (editSelect m content w)))
              = MsgStore.weight (storage_get j (localStorage w)) /\
              children (localStorage (editSelect m content w)) j
              = children (localStorage w) j).
    { unfold editSelect.
      destruct (selectedMsg m) as [sel|] eqn:Hsel; [|done].
      destruct (Hadm sel Hsel) as [Hw Hm].
      cbn [localStorage set_localStorage]. unfold storage_set.
      by apply insert_same_shape. }
    destruct (same_shape_premises _ _ (id m :: ancestors)
                Hsame Hok Hup Hclosed) as [Hup' Hoff].
    by apply Hend.
  - destruct (handleItemDelete_premises m msgId ancestors w
                Hok Hcur Hup Hclosed Hadm) as (w' & -> & Hup' & Hoff).
    eexists. split; [reflexivity|]. by apply Hend.
  - eexists. split; [reflexivity|].
    assert (Hsame : forall j,
              MsgStore.weight
                (storage_get j (localStorage (handleItemClick m msgId w)))
              = MsgStore.weight (storage_get j (localStorage w)) /\
              children (localStorage (handleItemClick m msgId w)) j
              = children (localStorage w) j).
    { unfold handleItemClick. cbn [localStorage set_localStorage].
      unfold storage_set. apply insert_same_shape; by rewrite Hcur. }
    destruct (same_shape_premises _ _ (id m :: ancestors)
                Hsame Hok Hup Hclosed) as [Hup' Hoff].
    by apply Hend.
Qed.

End AfterMutation.

(** The records of [weighed_world]. *)
Lemma weighed_world_records n :
  n = "#0000" \/ n = "#aaaa" \/ n = "#bbbb" \/
  localStorage weighed_world !! n = None.
Proof.
  destruct (localStorage weighed_world !! n) as [r|] eqn:E;
    [|by repeat right].
  apply elem_of_map_to_list in E. vm_compute in E.
  repeat (apply elem_of_cons in E as [E|E];
          [injection E as -> _; auto|]).
  by apply elem_of_nil in E.
Qed.

Lemma weighed_world_children n c :
  c ∈ children (localStorage weighed_world) n ->
  (n = "#0000" /\ c = "#aaaa") \/ (n = "#aaaa" /\ c = "#bbbb").
Proof.
  destruct (weighed_world_records n) as [->|[->|[->|Hn]]].
  - intros Hc. left. split; [done|]. vm_compute in Hc.
    apply elem_of_cons in Hc as [->|Hc]; [done|]. by apply elem_of_nil in Hc.
  - intros Hc. right. split; [done|]. vm_compute in Hc.
    apply elem_of_cons in Hc as [->|Hc]; [done|]. by apply elem_of_nil in Hc.
  - intros Hc. vm_compute in Hc. by apply elem_of_nil in Hc.
  - rewrite (children_missing _ n Hn). intros Hc. by apply elem_of_nil in Hc.
Qed.

Lemma weight_after_every_mutation_witness :
  exists w',
    completed (mount "#aaaa" (hi_path []) weighed_world)
              (NewBranch "cccc" "dddd" None true false) ["#0000"]
              weighed_world = Some w' /\
    children (localStorage w') "#aaaa" = ["#cccc"; "#bbbb"] /\
    MsgStore.weight (storage_get "#aaaa" (localStorage w')) = Some 2 /\
    MsgStore.weight (storage_get "#0000" (localStorage w')) = Some 3 /\
    forall n,
      default 0 (MsgStore.weight (storage_get n (localStorage w')))
      = children_weight (localStorage w') n /\
      (children (localStorage w') n = [] ->
       default 0 (MsgStore.weight (storage_get n (localStorage w'))) = 0).
Proof.
  destruct (weight_after_every_mutation
              (mount "#aaaa" (hi_path []) weighed_world)
              (NewBranch "cccc" "dddd" None true false) ["#0000"]
              weighed_world) as (w' & Hw' & Hall & _ & _).
  - intros n. destruct (weighed_world_records n) as [->|[->|[->|Hn]]];
      [reflexivity|reflexivity|reflexivity|by apply weight_ok_missing].
  - reflexivity.
  - split; [|split; [|split; [|split; [|done]]]].
    + intros Hc. apply weighed_world_children in Hc as [[H _]|[_ H]];
        discriminate H.
    + constructor; [|constructor].
      split; [discriminate|].
      intros Hc. apply weighed_world_children in Hc as [[_ H]|[_ H]];
        discriminate H.
    + intros Hc. apply weighed_world_children in Hc as [[_ H]|[H _]];
        discriminate H.
    + constructor.
  - intros n x Hx Hc.
    apply weighed_world_children in Hc as [[-> _]|[-> _]].
    + apply list_elem_of_further, list_elem_of_here.
    + apply list_elem_of_here.
  - split; [discriminate|]. split.
    + constructor; [|constructor; [|constructor]].
      * split; [vm_compute; reflexivity|]. split.
        -- intros H. apply elem_of_cons in H as [H|H]; [discriminate H|].
           apply elem_of_cons in H as [H|H]; [discriminate H|].
           by apply elem_of_nil in H.
        -- intros n Hc.
           apply weighed_world_children in Hc as [[_ H]|[_ H]];
             discriminate H.
      * split; [vm_compute; reflexivity|]. split.
        -- intros H. apply elem_of_cons in H as [H|H]; [discriminate H|].
           apply elem_of_cons in H as [H|H]; [discriminate H|].
           by apply elem_of_nil in H.
        -- intros n Hc.
           apply weighed_world_children in Hc as [[_ H]|[_ H]];
             discriminate H.
    + intros H. vm_compute in H.
      apply elem_of_cons in H as [H|H]; [discriminate H|].
      by apply elem_of_nil in H.
  - exists w'. split; [exact Hw'|].
    assert (H1 : (fun w => children (localStorage w) "#aaaa")
                 <$> completed (mount "#aaaa" (hi_path []) weighed_world)
                       (NewBranch "cccc" "dddd" None true false) ["#0000"]
                       weighed_world
                 = Some ["#cccc"; "#bbbb"]) by (vm_compute; reflexivity).
    assert (H2 : (fun w => MsgStore.weight
                              (storage_get "#aaaa" (localStorage w)))
                 <$> completed (mount "#aaaa" (hi_path []) weighed_world)
                       (NewBranch "cccc" "dddd" None true false) ["#0000"]
                       weighed_world
                 = Some (Some 2)) by (vm_compute; reflexivity).
    assert (H3 : (fun w => MsgStore.weight
                              (storage_get "#0000" (localStorage w)))
                 <$> completed (mount "#aaaa" (hi_path []) weighed_world)
                       (NewBranch "cccc" "dddd" None true false) ["#0000"]
                       weighed_world
                 = Some (Some 3)) by (vm_compute; reflexivity).
    rewrite Hw' in H1, H2, H3.
    injection H1 as H1. injection H2 as H2. injection H3 as H3.
    split; [exact H1|]. split; [exact H2|]. split; [exact H3|exact Hall].
Defined.
